(** * QueueCTL: the job record, the file-backed store and the worker cycle

    A shallow embedding of [src/job.js], [src/storage.js], [src/worker.js]
    and of the [enqueue] and [dlq retry] actions of [src/cli.js].

    Conventions of the embedding.
    - A JavaScript [Map] is an association list in insertion order
      (module [JsMap]); iteration order is list order.
    - Timestamps are milliseconds since the epoch ([Z]); the ISO strings of
      the source are their printed form, and [new Date(a) - new Date(b)]
      is subtraction on them.  Adding seconds to a date is adding
      milliseconds (no change of the local time offset in between).
    - The counters [attempts] and [max_retries] are naturals ([N]) and
      the back-off base is an integer.  [Math.pow] works on doubles: its
      result is the integer power while that is below 2^53 in absolute
      value, and is that large at least otherwise.
    - A [Date] holds a time of at most 8.64e15 ms on either side of the
      epoch; beyond it the date is invalid and [toISOString] raises a
      [RangeError].  The clock shows a time within some ten thousand
      years of the epoch: the arithmetic of [setSeconds] is then exact
      whenever its result is a valid date, and a delay of 2^53 seconds
      or more gives none.
    - The process state ([this.jobs], [this.dlq], [this.lockHandle]) and the
      operating system (the three files, the clock, the live processes)
      are threaded through a state monad with exceptions.  Writing or
      removing a file raises when the data directory is not writable.
    - Other processes act on the files between two reads of this process:
      every [load] first takes the next entry of a schedule of
      file-system states left behind by the others.
    - What awaiting the shell command ([runCommand]) gives is a parameter
      of the worker cycle: the promise resolves to [true] or [false], or
      it is rejected.  Console output and the worker's [currentJob] field
      have no part in the store and are left out. *)

From Stdlib Require Import List String Ascii ZArith NArith Bool Lia.
From Stdlib Require Import Permutation DecimalString.
Import ListNotations.

Local Open Scope string_scope.
Local Open Scope list_scope.

Set Implicit Arguments.

(* ================================================================== *)
(** ** JavaScript [Map] with string keys *)
(* ================================================================== *)

Module JsMap.
Section Ops.
Variable V : Type.

Definition t := list (string * V).

Definition empty : t := [].

Fixpoint get (k : string) (m : t) : option V :=
  match m with
  | [] => None
  | (k', v) :: r => if String.eqb k k' then Some v else get k r
  end.

Definition has (k : string) (m : t) : bool :=
  match get k m with Some _ => true | None => false end.

(** [Map.prototype.set]: an existing key keeps its position, a new key
    goes last. *)
Fixpoint set (k : string) (v : V) (m : t) : t :=
  match m with
  | [] => [(k, v)]
  | (k', v') :: r =>
      if String.eqb k k' then (k, v) :: r else (k', v') :: set k v r
  end.

Definition delete (k : string) (m : t) : t :=
  filter (fun e => negb (String.eqb k (fst e))) m.

Definition keys (m : t) : list string := map fst m.
Definition values (m : t) : list V := map snd m.
Definition size (m : t) : nat := List.length m.
End Ops.
End JsMap.

(* ================================================================== *)
(** ** Property order of a plain object

    [save] writes [Object.fromEntries(map)] and [load] reads
    [Object.entries] of the parsed text.  An object lists its array-index
    keys first, in ascending numeric order, then its other string keys in
    insertion order. *)
(* ================================================================== *)

Definition digit (c : ascii) : option N :=
  let n := N_of_ascii c in
  if (48 <=? n)%N && (n <=? 57)%N then Some (n - 48)%N else None.

Fixpoint digits (s : string) (acc : N) : option N :=
  match s with
  | EmptyString => Some acc
  | String c r =>
      match digit c with
      | Some d => digits r (10 * acc + d)%N
      | None => None
      end
  end.

(** A canonical numeric string denoting an integer in [0, 2^32 - 2]. *)
Definition arrayIndex (s : string) : option N :=
  match s with
  | EmptyString => None
  | String c r =>
      if Ascii.eqb c "0"%char
      then match r with EmptyString => Some 0%N | _ => None end
      else match digits s 0 with
           | Some n => if (n <? 4294967295)%N then Some n else None
           | None => None
           end
  end.

Definition isArrayIndex (s : string) : bool :=
  match arrayIndex s with Some _ => true | None => false end.

Definition indexOf (s : string) : N :=
  match arrayIndex s with Some n => n | None => 0%N end.

Section ObjectOrder.
Variable V : Type.

Fixpoint insertByIndex (e : string * V) (l : list (string * V)) :=
  match l with
  | [] => [e]
  | e' :: r =>
      if (indexOf (fst e) <=? indexOf (fst e'))%N
      then e :: e' :: r
      else e' :: insertByIndex e r
  end.

Fixpoint sortByIndex (l : list (string * V)) :=
  match l with
  | [] => []
  | e :: r => insertByIndex e (sortByIndex r)
  end.

Definition objectOrder (m : JsMap.t V) : JsMap.t V :=
  sortByIndex (filter (fun e => isArrayIndex (fst e)) m)
  ++ filter (fun e => negb (isArrayIndex (fst e))) m.
End ObjectOrder.

(* ================================================================== *)
(** ** What a call gives: a value, or the message of the error raised *)
(* ================================================================== *)

Inductive Result (A : Type) :=
| Ok (a : A)
| Threw (message : string).

Arguments Ok {A} a.
Arguments Threw {A} message.

(* ================================================================== *)
(** ** The job record ([src/job.js]) *)
(* ================================================================== *)

Inductive State := pending | processing | completed | failed | dead.

Definition State_eqb (a b : State) : bool :=
  match a, b with
  | pending, pending | processing, processing | completed, completed
  | failed, failed | dead, dead => true
  | _, _ => false
  end.

(** The argument of [new Job(data)]: any field may be missing. *)
Record JobData := mkJobData {
  d_id : option string;
  d_command : option string;
  d_state : option State;
  d_attempts : option N;
  d_max_retries : option N;
  d_created_at : option Z;
  d_updated_at : option Z;
  d_error : option string;
  d_next_retry_at : option Z
}.

(** A [Job] instance, and equally the plain object [toJSON] gives. *)
Record Job := mkJob {
  id : string;
  command : option string;
  state : State;
  attempts : N;
  max_retries : N;
  created_at : Z;
  updated_at : Z;
  error : option string;
  next_retry_at : option Z
}.

(** [x || d] on a string that may be missing: the empty string is falsy. *)
Definition orString (x : option string) (d : string) : string :=
  match x with
  | Some s => if String.eqb s "" then d else s
  | None => d
  end.

(** [x || d] on a number that may be missing: zero is falsy. *)
Definition orNumber (x : option N) (d : N) : N :=
  match x with
  | Some n => if N.eqb n 0 then d else n
  | None => d
  end.

Definition orElse {A} (x : option A) (d : A) : A :=
  match x with Some a => a | None => d end.

(** [x || null] on a string. *)
Definition orNull (x : option string) : option string :=
  match x with
  | Some s => if String.eqb s "" then None else Some s
  | None => None
  end.

Definition showZ (z : Z) : string := NilZero.string_of_int (Z.to_int z).

(** [generateId]: [timestamp] is [Date.now()], [random] the nine base-36
    digits drawn from [Math.random()]. *)
Definition generateId (timestamp : Z) (random : string) : string :=
  ("job-" ++ showZ timestamp ++ "-" ++ random)%string.

(** The constructor; [now] and [random] are what the clock and the random
    generator give at the call. *)
Definition newJob (now : Z) (random : string) (data : JobData) : Job :=
  {| id := orString (d_id data) (generateId now random);
     command := d_command data;
     state := orElse (d_state data) pending;
     attempts := orNumber (d_attempts data) 0;
     max_retries := orNumber (d_max_retries data) 3;
     created_at := orElse (d_created_at data) now;
     updated_at := orElse (d_updated_at data) now;
     error := orNull (d_error data);
     next_retry_at := d_next_retry_at data |}.

Definition toJSON (j : Job) : JobData :=
  {| d_id := Some (id j);
     d_command := command j;
     d_state := Some (state j);
     d_attempts := Some (attempts j);
     d_max_retries := Some (max_retries j);
     d_created_at := Some (created_at j);
     d_updated_at := Some (updated_at j);
     d_error := error j;
     d_next_retry_at := next_retry_at j |}.

(** [Job.fromJSON] applied to a stored record. *)
Definition fromJSON (now : Z) (random : string) (j : Job) : Job :=
  newJob now random (toJSON j).

Definition canRetry (j : Job) : bool :=
  (attempts j <? max_retries j)%N && State_eqb (state j) failed.

Definition shouldRetryNow (now : Z) (j : Job) : bool :=
  match next_retry_at j with
  | None => true
  | Some t => (t <=? now)%Z
  end.

(** The local [delay] of [calculateNextRetry], in seconds:
    [Math.pow(base, this.attempts)].  The double holds the integer power
    while that is below 2^53; past it ([None]) it is a rounded value or
    [Infinity], and in any case more seconds than lie between the clock
    and the last date a [Date] holds. *)
Definition retryDelay (base : Z) (j : Job) : option Z :=
  let delay := (base ^ Z.of_N (attempts j))%Z in
  if (Z.abs delay <? 2 ^ 53)%Z then Some delay else None.

(** The largest time value of a [Date], in milliseconds. *)
Definition maxTime : Z := 8640000000000000.

Definition validTime (t : Z) : bool := (Z.abs t <=? maxTime)%Z.

(** The message of the [RangeError] that [toISOString] raises on an
    invalid date. *)
Definition RangeError : string := "Invalid time value".

(** [calculateNextRetry]: the clock advanced by [delay] seconds, read by
    [toISOString]. *)
Definition calculateNextRetry (now : Z) (base : Z) (j : Job) : Result Z :=
  match retryDelay base j with
  | Some delay =>
      let nextRetry := (now + 1000 * delay)%Z in
      if validTime nextRetry then Ok nextRetry else Threw RangeError
  | None => Threw RangeError
  end.

(** [!job.command] *)
Definition noCommand (j : Job) : bool :=
  match command j with
  | Some c => String.eqb c ""
  | None => true
  end.

Definition setState (s : State) (j : Job) : Job :=
  mkJob (id j) (command j) s (attempts j) (max_retries j) (created_at j)
        (updated_at j) (error j) (next_retry_at j).

Definition setAttempts (n : N) (j : Job) : Job :=
  mkJob (id j) (command j) (state j) n (max_retries j) (created_at j)
        (updated_at j) (error j) (next_retry_at j).

Definition setUpdatedAt (t : Z) (j : Job) : Job :=
  mkJob (id j) (command j) (state j) (attempts j) (max_retries j)
        (created_at j) t (error j) (next_retry_at j).

Definition setError (e : option string) (j : Job) : Job :=
  mkJob (id j) (command j) (state j) (attempts j) (max_retries j)
        (created_at j) (updated_at j) e (next_retry_at j).

Definition setNextRetryAt (t : option Z) (j : Job) : Job :=
  mkJob (id j) (command j) (state j) (attempts j) (max_retries j)
        (created_at j) (updated_at j) (error j) t.

(* ================================================================== *)
(** ** Process state, operating system, and the monad of operations *)
(* ================================================================== *)

Definition Table := JsMap.t Job.

(** What reading and parsing a table file gives: the file is missing,
    reading or [JSON.parse] raises, or the file holds a table (the [Map]
    built from the entries of the parsed object). *)
Inductive File :=
| Absent
| Corrupt
| Holds (t : Table).

Record Os := mkOs {
  jobs_file : File;          (* JOBS_FILE *)
  dlq_file : File;           (* DLQ_FILE *)
  lock_file : option N;      (* LOCK_FILE: the pid written in it *)
  writable : bool;           (* writeFileSync and unlinkSync succeed *)
  live : list N;             (* pids for which process.kill(pid, 0) returns *)
  pid : N;                   (* process.pid *)
  clock : Z;                 (* Date.now() *)
  random : string            (* the digits Math.random() gives next *)
}.

(** The fields of the [Storage] singleton. *)
Record Storage := mkStorage {
  jobs : Table;
  dlq : Table;
  lockHandle : bool
}.

Record World := mkWorld {
  store : Storage;
  os : Os;
  others : list (option Os)  (* what other processes leave on disk, per reload *)
}.

Definition M (A : Type) := World -> Result A * World.

Definition ret {A} (a : A) : M A := fun w => (Ok a, w).

Definition bind {A B} (m : M A) (f : A -> M B) : M B :=
  fun w =>
    match m w with
    | (Ok a, w') => f a w'
    | (Threw e, w') => (Threw e, w')
    end.

Definition throw {A} (e : string) : M A := fun w => (Threw e, w).

(** [try { body } catch (error) { handler(error.message) }] *)
Definition tryCatch {A} (body : M A) (handler : string -> M A) : M A :=
  fun w =>
    match body w with
    | (Ok a, w') => (Ok a, w')
    | (Threw e, w') => handler e w'
    end.

Declare Scope monad_scope.
Delimit Scope monad_scope with monad.
Notation "x <- m ;; k" := (bind m (fun x => k))
  (at level 61, m at next level, right associativity) : monad_scope.
Notation "m ;; k" := (bind m (fun _ => k))
  (at level 61, right associativity) : monad_scope.
Local Open Scope monad_scope.

Definition getStore : M Storage := fun w => (Ok (store w), w).
Definition getOs : M Os := fun w => (Ok (os w), w).
Definition putStore (s : Storage) : M unit :=
  fun w => (Ok tt, mkWorld s (os w) (others w)).
Definition putOs (o : Os) : M unit :=
  fun w => (Ok tt, mkWorld (store w) o (others w)).

Definition setJobs (t : Table) : M unit :=
  s <- getStore ;; putStore (mkStorage t (dlq s) (lockHandle s)).
Definition setDlq (t : Table) : M unit :=
  s <- getStore ;; putStore (mkStorage (jobs s) t (lockHandle s)).
Definition setLockHandle (b : bool) : M unit :=
  s <- getStore ;; putStore (mkStorage (jobs s) (dlq s) b).

Definition withTables (j d : File) (o : Os) : Os :=
  mkOs j d (lock_file o) (writable o) (live o) (pid o) (clock o) (random o).
Definition withLock (l : option N) (o : Os) : Os :=
  mkOs (jobs_file o) (dlq_file o) l (writable o) (live o) (pid o) (clock o)
       (random o).
Definition withClock (t : Z) (o : Os) : Os :=
  mkOs (jobs_file o) (dlq_file o) (lock_file o) (writable o) (live o) (pid o)
       t (random o).

(** The message of the error a failed write raises; its text plays no
    part below. *)
Definition EACCES : string := "EACCES: permission denied".

(** The other processes take their turn. *)
Definition interfere : M unit :=
  fun w =>
    match others w with
    | [] => (Ok tt, w)
    | None :: rest => (Ok tt, mkWorld (store w) (os w) rest)
    | Some o :: rest => (Ok tt, mkWorld (store w) o rest)
    end.

(* ================================================================== *)
(** ** The store ([src/storage.js]) *)
(* ================================================================== *)

(** [sleep(ms)] blocks the process; only the clock moves. *)
Definition sleep (ms : Z) : M unit :=
  o <- getOs ;; putOs (withClock (clock o + ms) o).

Definition acquireLock : M bool :=
  s <- getStore ;;
  if lockHandle s then ret true
  else
    o <- getOs ;;
    let take :=
      if writable o
      then putOs (withLock (Some (pid o)) o) ;; setLockHandle true ;; ret true
      else ret false in
    match lock_file o with
    | Some holder =>
        if existsb (N.eqb holder) (live o)
        then ret false          (* lock held by a running process *)
        else take               (* stale lock: unlink, then write *)
    | None => take
    end.

Definition releaseLock : M unit :=
  s <- getStore ;;
  o <- getOs ;;
  match lockHandle s, lock_file o with
  | true, Some _ =>
      if writable o
      then putOs (withLock None o) ;; setLockHandle false
      else ret tt               (* unlink raises: ignored *)
  | _, _ => ret tt
  end.

(** The tables a reload leaves in memory, given the files found. *)
Definition loaded (o : Os) (s : Storage) : Storage :=
  match jobs_file o, dlq_file o with
  | Corrupt, _ => mkStorage [] [] (lockHandle s)
  | _, Corrupt => mkStorage [] [] (lockHandle s)
  | Absent, Absent => s
  | Absent, Holds d => mkStorage (jobs s) d (lockHandle s)
  | Holds j, Absent => mkStorage j (dlq s) (lockHandle s)
  | Holds j, Holds d => mkStorage j d (lockHandle s)
  end.

Definition load : M unit :=
  interfere ;;
  s <- getStore ;;
  o <- getOs ;;
  putStore (loaded o s).

Definition save : M unit :=
  s <- getStore ;;
  o <- getOs ;;
  if writable o
  then putOs (withTables (Holds (objectOrder (jobs s)))
                         (Holds (objectOrder (dlq s))) o)
  else throw EACCES.

Definition addJob (job : Job) : M unit :=
  s <- getStore ;;
  setJobs (JsMap.set (id job) job (jobs s)) ;;
  save.

Definition getJob (k : string) : M (option Job) :=
  s <- getStore ;; ret (JsMap.get k (jobs s)).

Definition updateJob (job : Job) : M bool :=
  load ;;
  s <- getStore ;;
  if JsMap.has (id job) (jobs s)
  then setJobs (JsMap.set (id job) job (jobs s)) ;; save ;; ret true
  else ret false.

Definition deleteJob (k : string) : M bool :=
  s <- getStore ;;
  if JsMap.has k (jobs s)
  then setJobs (JsMap.delete k (jobs s)) ;; save ;; ret true
  else ret false.

Definition getJobsByState (st : State) : M (list Job) :=
  s <- getStore ;;
  ret (filter (fun j => State_eqb (state j) st) (JsMap.values (jobs s))).

Definition getAllJobs : M (list Job) :=
  s <- getStore ;; ret (JsMap.values (jobs s)).

Definition getDLQJobs : M (list Job) :=
  s <- getStore ;; ret (JsMap.values (dlq s)).

(** The stable sort of [getNextPendingJob]: ascending [created_at], equal
    keys in their original order. *)
Fixpoint insertByCreated (j : Job) (l : list Job) : list Job :=
  match l with
  | [] => [j]
  | j' :: r =>
      if (created_at j <=? created_at j')%Z
      then j :: j' :: r
      else j' :: insertByCreated j r
  end.

Fixpoint sortByCreated (l : list Job) : list Job :=
  match l with
  | [] => []
  | j :: r => insertByCreated j (sortByCreated r)
  end.

Fixpoint acquireLockWithRetry (maxRetries : nat) (delay : Z) : M bool :=
  match maxRetries with
  | O => ret false
  | S n =>
      got <- acquireLock ;;
      if got then ret true
      else sleep delay ;; acquireLockWithRetry n delay
  end.

(** The body of [for (const job of pendingJobs)] for one candidate:
    [Some j] when the function returns [j], [None] when the loop goes on. *)
Definition claim (job : Job) : M (option Job) :=
  got <- acquireLockWithRetry 3 50 ;;
  if got then
    tryCatch
      (load ;;
       s <- getStore ;;
       match JsMap.get (id job) (jobs s) with
       | Some currentJob =>
           if State_eqb (state currentJob) pending then
             o <- getOs ;;
             let currentJob' :=
               setUpdatedAt (clock o) (setState processing currentJob) in
             (* the record is changed in place, then set under its own id *)
             setJobs (JsMap.set (id currentJob') currentJob'
                        (JsMap.set (id job) currentJob' (jobs s))) ;;
             save ;;
             releaseLock ;;
             ret (Some currentJob')
           else ret None
       | None => ret None
       end)
      (fun _ => releaseLock ;; ret None)
  else ret None.

Fixpoint claimFirst (pendingJobs : list Job) : M (option Job) :=
  match pendingJobs with
  | [] => ret None
  | job :: rest =>
      r <- claim job ;;
      match r with
      | Some j => ret (Some j)
      | None => claimFirst rest
      end
  end.

(** [attemptsLeft] counts down what [attempt] counts up:
    [attempt = maxRetries - attemptsLeft]. *)
Fixpoint pendingLoop (attemptsLeft : nat) : M (option Job) :=
  match attemptsLeft with
  | O => ret None
  | S n =>
      load ;;
      all <- getJobsByState pending ;;
      let pendingJobs := sortByCreated all in
      r <- claimFirst pendingJobs ;;
      match r with
      | Some j => ret (Some j)
      | None =>
          match pendingJobs with
          | [] => ret None
          | _ :: _ =>
              (match n with O => ret tt | S _ => sleep 100 end) ;;
              pendingLoop n
          end
      end
  end.

Definition getNextPendingJob : M (option Job) := pendingLoop 10.

Definition moveToDLQ (job : Job) : M unit :=
  o <- getOs ;;
  let jobData := setUpdatedAt (clock o) (setState dead job) in
  s <- getStore ;;
  setDlq (JsMap.set (id jobData) jobData (dlq s)) ;;
  s <- getStore ;;
  setJobs (JsMap.delete (id jobData) (jobs s)) ;;
  save.

Definition retryFromDLQ (jobId : string) : M (option Job) :=
  s <- getStore ;;
  match JsMap.get jobId (dlq s) with
  | None => ret None
  | Some job =>
      o <- getOs ;;
      let job' :=
        setUpdatedAt (clock o) (setAttempts 0 (setState pending job)) in
      setDlq (JsMap.delete jobId (dlq s)) ;;
      s <- getStore ;;
      setJobs (JsMap.set (id job') job' (jobs s)) ;;
      save ;;
      ret (Some job')
  end.

(* ================================================================== *)
(** ** Enqueue ([processJobData] of [src/cli.js]) *)
(* ================================================================== *)

(** How the [enqueue] action ends: the job is stored and reported, the
    validation of the command rejects it (exit code 1), or the [catch]
    block reports the error raised (exit code 1). *)
Inductive Enqueue :=
| Enqueued (job : Job)
| ValidationError
| Failure (message : string).

Definition processJobData (data : JobData) : M Enqueue :=
  tryCatch
    (o <- getOs ;;
     let job := newJob (clock o) (random o) data in
     if noCommand job then ret ValidationError
     else addJob job ;; ret (Enqueued job))
    (fun e => ret (Failure e)).

(* ================================================================== *)
(** ** The worker ([src/worker.js]) *)
(* ================================================================== *)

Section Worker.
(** [config.get('backoffBase')] *)
Variable backoffBase : Z.
(** [Date.prototype.toISOString], used only inside error texts. *)
Variable toISOString : Z -> string.

Definition retryText (j : Job) (next : Z) : string :=
  ("Failed after " ++ showZ (Z.of_N (attempts j))
     ++ " attempt(s). Will retry at " ++ toISOString next)%string.

(** What awaiting [runCommand] gives: the promise resolves to [true] or
    to [false], or it is rejected, as it is when [spawn] raises. *)
Inductive Outcome :=
| Succeeded
| Failed
| Rejected (message : string).

(** How the [try] block of [executeJob] goes on once the command is
    over: with a call of the store on the job as mutated so far, or by
    raising before any such call. *)
Inductive Attempt :=
| Calls (job : Job) (call : Job -> M unit)
| Raises (message : string) (job : Job).

(** The job as the [try] block has mutated it when it calls the store or
    raises. *)
Definition attempted (a : Attempt) : Job :=
  match a with
  | Calls job _ => job
  | Raises _ job => job
  end.

(** The [try] block of [executeJob], at time [now]. *)
Definition attempt (outcome : Outcome) (now : Z) (job : Job) : Attempt :=
  match outcome with
  | Rejected message => Raises message job
  | Succeeded =>
      Calls (setError None (setUpdatedAt now (setState completed job)))
            (fun j => updateJob j ;; ret tt)
  | Failed =>
      let job1 := setUpdatedAt now (setAttempts (attempts job + 1) job) in
      if (max_retries job1 <=? attempts job1)%N then
        Calls (setError (Some "Max retries exceeded") (setState failed job1))
              (fun j => moveToDLQ j)
      else
        match calculateNextRetry now backoffBase job1 with
        | Threw message => Raises message job1
        | Ok next =>
            let job2 := setState failed (setNextRetryAt (Some next) job1) in
            Calls (setError (Some (retryText job2 next)) job2)
                  (fun j => updateJob j ;; ret tt)
        end
  end.

(** The [catch] block of [executeJob], run on the job as the [try] block
    left it.  An error of [calculateNextRetry] leaves the block. *)
Definition recover (message : string) (job : Job) : M unit :=
  o <- getOs ;;
  let job1 :=
    setError (Some message)
      (setUpdatedAt (clock o) (setAttempts (attempts job + 1) job)) in
  if (max_retries job1 <=? attempts job1)%N then moveToDLQ job1
  else
    match calculateNextRetry (clock o) backoffBase job1 with
    | Threw message' => throw message'
    | Ok next =>
        updateJob (setState failed (setNextRetryAt (Some next) job1)) ;;
        ret tt
    end.

Definition executeJob (outcome : Outcome) (job : Job) : M unit :=
  o <- getOs ;;
  match attempt outcome (clock o) job with
  | Calls job' call => tryCatch (call job') (fun e => recover e job')
  | Raises e job' => recover e job'
  end.

(** The predicate of [failedJobs.find]. *)
Definition readyToRetry (now : Z) (rnd : string) (j : Job) : bool :=
  let jobObj := fromJSON now rnd j in
  canRetry jobObj && shouldRetryNow now jobObj.

Definition findReadyToRetry : M (option Job) :=
  failedJobs <- getJobsByState failed ;;
  o <- getOs ;;
  ret (find (readyToRetry (clock o) (random o)) failedJobs).

(** The record handed to [updateJob] for the job found. *)
Definition promoted (now : Z) (rnd : string) (j : Job) : Job :=
  setUpdatedAt now (setState pending (fromJSON now rnd j)).

Definition runJob (outcome : Outcome) (j : Job) : M unit :=
  o <- getOs ;;
  executeJob outcome (fromJSON (clock o) (random o) j).

(** The [if (readyToRetry)] block of [processNextJob]. *)
Definition promoteAndRun (outcome : Outcome) (r : Job) : M unit :=
  o <- getOs ;;
  updateJob (promoted (clock o) (random o) r) ;;
  pendingJob <- getNextPendingJob ;;
  match pendingJob with
  | Some p => runJob outcome p
  | None => ret tt
  end.

(** One cycle of the worker; [outcome] is what the command gives, should
    one be run. *)
Definition processNextJob (outcome : Outcome) : M unit :=
  job <- getNextPendingJob ;;
  match job with
  | Some j => runJob outcome j
  | None =>
      ready <- findReadyToRetry ;;
      match ready with
      | Some r => promoteAndRun outcome r
      | None => ret tt
      end
  end.
End Worker.

(* ================================================================== *)
(** ** Vocabulary of the statements *)
(* ================================================================== *)



(** The record [retryFromDLQ] puts back into the active table. *)
Definition revived (now : Z) (job : Job) : Job :=
  setUpdatedAt now (setAttempts 0 (setState pending job)).

(** What [save] leaves in the two table files. *)
Definition persisted (w : World) : Prop :=
  jobs_file (os w) = Holds (objectOrder (jobs (store w)))
  /\ dlq_file (os w) = Holds (objectOrder (dlq (store w))).

(** The job the [enqueue] action builds in world [w]. *)
Definition submitted (data : JobData) (w : World) : Job :=
  newJob (clock (os w)) (random (os w)) data.

(** The failed jobs of the table that are ready to be retried, as
    [processNextJob] tests them. *)
Definition eligible (now : Z) (rnd : string) (j : Job) : bool :=
  State_eqb (state j) failed && readyToRetry now rnd j.

(** Every record of a table sits under its own id. *)
Definition keyed (t : Table) : Prop :=
  forall k j, In (k, j) t -> id j = k.

(** No id is in both tables. *)
Definition apart (active deadLetter : Table) : Prop :=
  forall k, JsMap.has k active = true -> JsMap.has k deadLetter = false.

Definition tablesOk (active deadLetter : Table) : Prop :=
  keyed active /\ keyed deadLetter /\ apart active deadLetter.

(** The two files go together (none yet, or both written by a [save]) and
    the tables they hold are well formed; a file that cannot be read makes
    [load] start from empty tables. *)
Definition filesOk (o : Os) : Prop :=
  match jobs_file o, dlq_file o with
  | Corrupt, _ => True
  | _, Corrupt => True
  | Absent, Absent => True
  | Holds j, Holds d => tablesOk j d
  | _, _ => False
  end.

Definition turnOk (t : option Os) : Prop :=
  match t with
  | Some o => filesOk o
  | None => True
  end.

(** The invariant of the store: in memory, on disk, and in whatever the
    other processes are going to leave on disk. *)
Definition consistent (w : World) : Prop :=
  tablesOk (jobs (store w)) (dlq (store w))
  /\ filesOk (os w)
  /\ Forall turnOk (others w).

Definition preserves {A} (m : M A) : Prop :=
  forall w, consistent w -> consistent (snd (m w)).

(** *** Following a job that keeps failing *)

(** The operating system with the given table files, the lock free and
    the disk writable; the rest is as in [o]. *)
Definition quietOs (jf df : File) (o : Os) : Os :=
  mkOs jf df None true (live o) (pid o) (clock o) (random o).


(** The record a successful claim stores and returns. *)
Definition claimed (now : Z) (j : Job) : Job :=
  setUpdatedAt now (setState processing j).

(** The record a successful run stores. *)
Definition completedRecord (now : Z) (j : Job) : Job :=
  setError None (setUpdatedAt now (setState completed j)).

(** The date of the retry after [a] failures can be told at time [now]:
    the delay is below 2^53 seconds and the date is one a [Date] holds. *)
Definition inRange (now base : Z) (a : N) : Prop :=
  (Z.abs (base ^ Z.of_N a) < 2 ^ 53)%Z
  /\ (Z.abs (now + 1000 * base ^ Z.of_N a) <= maxTime)%Z.

(** The record of a job after a failed run at time [now] that does not
    use up its retries, and the record the dead-letter table gets when it
    does. *)
Definition failedOnce (backoffBase : Z) (toISOString : Z -> string)
    (now : Z) (j : Job) : Job :=
  attempted (attempt backoffBase toISOString Failed now j).

Definition buriedRecord (backoffBase : Z) (toISOString : Z -> string)
    (now : Z) (j : Job) : Job :=
  setUpdatedAt now
    (setState dead
       (attempted (attempt backoffBase toISOString Failed now j))).

(** *** One worker on an undisturbed store *)

(** A table as the operations leave it: every record under its own id, no
    key twice, no empty key. *)
Definition sound (t : Table) : Prop :=
  keyed t /\ NoDup (JsMap.keys t) /\ ~ In "" (JsMap.keys t).

(** A file holding [f] agrees with the cached table [c]: it was just read
    into the cache or just written from it. *)
Definition written (c f : Table) : Prop := f = c \/ f = objectOrder c.

(** The process with cache [c], [cd] over files holding [f], [fd]; the lock
    is free, the disk writable and no other process acts. *)
Definition settledWorld (c cd f fd : Table) (o : Os) : World :=
  mkWorld (mkStorage c cd false) (quietOs (Holds f) (Holds fd) o) [].

Definition settled (w : World) : Prop :=
  exists c cd f fd o,
    w = settledWorld c cd f fd o
    /\ sound c /\ sound cd /\ written c f /\ written cd fd.

(** The same before the first write: the files may be missing still. *)
Definition calm (w : World) : Prop :=
  others w = []
  /\ writable (os w) = true
  /\ lockHandle (store w) = false
  /\ lock_file (os w) = None
  /\ sound (jobs (store w))
  /\ sound (dlq (store w)).

(** The job a worker cycle gets to execute, if any: the one dequeued, or
    the one dequeued after a promotion ([processNextJob] without the two
    calls of [executeJob]). *)
Definition selected : M (option Job) :=
  job <- getNextPendingJob ;;
  match job with
  | Some j => ret (Some j)
  | None =>
      ready <- findReadyToRetry ;;
      match ready with
      | Some r =>
          o <- getOs ;;
          updateJob (promoted (clock o) (random o) r) ;;
          getNextPendingJob
      | None => ret None
      end
  end.

(** The clock shows [t]. *)
Definition atTime (t : Z) : M unit :=
  o <- getOs ;; putOs (withClock t o).

(** One turn of the loop of [Worker.start]: an error that leaves
    [processNextJob] is logged, and the loop goes on. *)
Definition startTurn (backoffBase : Z) (toISOString : Z -> string)
    (outcome : Outcome) : M unit :=
  tryCatch (processNextJob backoffBase toISOString outcome)
           (fun _ => ret tt).

(** Worker cycles, each given the time it starts at and what the command
    it may run gives. *)
Fixpoint workerCycles (backoffBase : Z) (toISOString : Z -> string)
    (cycles : list (Z * Outcome)) : M unit :=
  match cycles with
  | [] => ret tt
  | (t, outcome) :: rest =>
      atTime t ;;
      startTurn backoffBase toISOString outcome ;;
      workerCycles backoffBase toISOString rest
  end.



(** How the run of job [k] ends on a settled world with tables [c], [cd]
    over files [f], [fd]: normally, its record stored as completed or
    failed, or moved to the dead-letter table as dead; or with a
    [RangeError], no table touched. *)
Definition runEnds (k : string) (c cd f fd : Table) (r : Result unit)
    (c2 cd2 f2 fd2 : Table) : Prop :=
  match r with
  | Threw e => e = RangeError /\ c2 = c /\ cd2 = cd /\ f2 = f /\ fd2 = fd
  | Ok _ =>
      f2 = objectOrder c2 /\ fd2 = objectOrder cd2
      /\ ((exists R,
              JsMap.get k c2 = Some R
              /\ JsMap.get k cd2 = JsMap.get k cd
              /\ (state R = completed \/ state R = failed))
          \/ (JsMap.get k c2 = None
              /\ exists D, JsMap.get k cd2 = Some D /\ state D = dead))
  end.



(* ================================================================== *)
(** ** Concrete worlds used in examples *)
(* ================================================================== *)

Module Examples.

(** Process 100 on a writable disk with no files yet. *)
Definition freshOs : Os :=
  mkOs Absent Absent None true [100%N] 100%N 1700000000000%Z "k3j2h1g0f".

Definition freshWorld : World := mkWorld (mkStorage [] [] false) freshOs [].

Definition plainJob (i : string) (s : State) (n m : N) (c u : Z)
    (next : option Z) : Job :=
  mkJob i (Some "exit 1") s n m c u None next.

(** [{"id":"job1","command":"exit 1","max_retries":0}] *)
Definition noRetryData : JobData :=
  mkJobData (Some "job1") (Some "exit 1") None None (Some 0%N)
            None None None None.

(** [{"id":"job1","command":""}] *)
Definition emptyCommandData : JobData :=
  mkJobData (Some "job1") (Some "") None None None None None None None.

(** [{"id":"job1","command":"echo again"}] *)
Definition againData : JobData :=
  mkJobData (Some "job1") (Some "echo again") None None None
            None None None None.

(** A store, in memory and on disk, holding the given tables. *)
Definition syncedWorld (j d : Table) : World :=
  mkWorld (mkStorage j d false)
          (withTables (Holds j) (Holds d) freshOs) [].

Definition job1 : Job := plainJob "job1" pending 0 3 1000 1000 None.





Definition deadJob1 : Job := plainJob "job1" dead 3 3 1000 5000 None.

(** Two failed jobs due for retry; ["a"] comes first in the table, ["b"]
    was updated earlier. *)
Definition jobA : Job := plainJob "a" failed 1 3 1000 4000 (Some 6000%Z).
Definition jobB : Job := plainJob "b" failed 1 3 2000 3000 (Some 5000%Z).
Definition twoFailed : World := syncedWorld [("a", jobA); ("b", jobB)] [].

(** Job ["a"] is pending when this process first reads the table; before
    it reads the table again under the lock, another process sharing the
    data directory has claimed ["a"] (marked it [processing]). *)
Definition pendingA : Job := plainJob "a" pending 0 3 1000 1000 None.
Definition claimedA : Job := plainJob "a" processing 0 3 1000 1500 None.
Definition raced : World :=
  mkWorld (mkStorage [] [] false)
          (withTables (Holds [("a", pendingA)]) (Holds []) freshOs)
          [ None;
            Some (withLock (Some 100%N)
                    (withTables (Holds [("a", claimedA)]) (Holds [])
                       freshOs)) ].



(** Four cycles after ["job1"] is enqueued in [busyWorld]: the first runs
    the older job, which succeeds; the second runs ["job1"], which fails
    and is to be retried two seconds later; in the third it is not due;
    the fourth runs it again and it fails again. *)
Definition fourCycles : list (Z * Outcome) :=
  [(1700000001000, Succeeded); (1700000002000, Failed);
   (1700000003000, Failed); (1700000004000, Failed)]%Z.

(** The dead-letter table holds ["job1"]; the active table is empty. *)
Definition deadOnly : World := syncedWorld [] [("job1", deadJob1)].
End Examples.

From Stdlib Require Import Sorted.

(* ================================================================== *)
(** ** The rest of the store: constructor and statistics
       ([src/storage.js]) *)
(* ================================================================== *)

(** [new Storage()]: two empty maps, no lock handle, then a first
    [load].  Every process (each CLI call, the worker process) starts
    with it. *)
Definition newStorage : M unit :=
  putStore (mkStorage [] [] false) ;; load.

(** The object [getStats] returns. *)
Record Stats := mkStats {
  s_pending : nat;
  s_processing : nat;
  s_completed : nat;
  s_failed : nat;
  s_dead : nat
}.

(** [stats[job.state]++]; each of the five states is a key of [stats]. *)
Definition countState (st : State) (s : Stats) : Stats :=
  match st with
  | pending =>
      mkStats (S (s_pending s)) (s_processing s) (s_completed s)
              (s_failed s) (s_dead s)
  | processing =>
      mkStats (s_pending s) (S (s_processing s)) (s_completed s)
              (s_failed s) (s_dead s)
  | completed =>
      mkStats (s_pending s) (s_processing s) (S (s_completed s))
              (s_failed s) (s_dead s)
  | failed =>
      mkStats (s_pending s) (s_processing s) (s_completed s)
              (S (s_failed s)) (s_dead s)
  | dead =>
      mkStats (s_pending s) (s_processing s) (s_completed s)
              (s_failed s) (S (s_dead s))
  end.

Definition getStats : M Stats :=
  all <- getAllJobs ;;
  s <- getStore ;;
  ret (fold_left (fun stats job => countState (state job) stats) all
         (mkStats 0 0 0 0 (JsMap.size (dlq s)))).

(* ================================================================== *)
(** ** The [dlq retry] action ([src/cli.js]) *)
(* ================================================================== *)

(** How an action ends when no error escapes it: it returns (exit code
    0) or calls [process.exit(1)]. *)
Inductive Exit := Returned | ExitOne.

(** The message of the [TypeError] raised by calling a missing method. *)
Definition notAFunction : string := "job.toJSON is not a function".

(** The action of [dlq retry <job-id>].  What [retryFromDLQ] returns is
    the value of [this.dlq] itself: a plain object, read from the file or
    made by [toJSON], which has no method [toJSON]; the call
    [job.toJSON()] on it raises. *)
Definition dlqRetry (jobId : string) : M Exit :=
  job <- retryFromDLQ jobId ;;
  match job with
  | None => ret ExitOne
  | Some _ => throw notAFunction
  end.

(* ================================================================== *)
(** ** The worker manager ([src/worker.js]) *)
(* ================================================================== *)

Module WorkerManager.

(** What [parseInt(fs.readFileSync(pidFile))] finds: no file, a text
    that is no number, or a process id. *)
Inductive PidFile :=
| NoPidFile
| NotANumber
| PidOf (p : N).

Record Pool := mkPool {
  pid_file : PidFile;        (* the file [this.pidFile] *)
  pid_writable : bool;       (* writing and removing it succeed *)
  workers : list nat         (* [this.workers], by worker id *)
}.

(** [removePid]: an error of [unlinkSync] is ignored. *)
Definition removePid (p : Pool) : Pool :=
  match pid_file p with
  | NoPidFile => p
  | _ =>
      if pid_writable p
      then mkPool NoPidFile (pid_writable p) (workers p)
      else p
  end.

(** [savePid]: an error of [writeFileSync] is logged, nothing more. *)
Definition savePid (o : Os) (p : Pool) : Pool :=
  if pid_writable p
  then mkPool (PidOf (pid o)) (pid_writable p) (workers p)
  else p.

(** [isRunning]: [process.kill(pid, 0)] raises for a process that is
    gone and for a pid that is no number. *)
Definition isRunning (o : Os) (p : Pool) : bool * Pool :=
  match pid_file p with
  | NoPidFile => (false, p)
  | NotANumber => (false, removePid p)
  | PidOf q =>
      if existsb (N.eqb q) (live o)
      then (true, p)
      else (false, removePid p)
  end.

(** [start(count)]: the workers made are numbered from 1. *)
Definition start (count : nat) (o : Os) (p : Pool) : Pool :=
  let (running, p1) := isRunning o p in
  if running then p1
  else
    let p2 := savePid o p1 in
    mkPool (pid_file p2) (pid_writable p2) (workers p2 ++ seq 1 count).

(** [stop], up to [process.exit(0)]. *)
Definition stop (p : Pool) : Pool :=
  removePid (mkPool (pid_file p) (pid_writable p) []).

Definition getWorkerCount (p : Pool) : nat := List.length (workers p).

End WorkerManager.

(* ================================================================== *)
(** ** Vocabulary of the further statements *)
(* ================================================================== *)

(** A record that [new Job] leaves as it is: its id is not empty, its
    [max_retries] is not zero, its [error] is not the empty string. *)
Definition canonical (j : Job) : Prop :=
  id j <> "" /\ max_retries j <> 0%N /\ error j <> Some "".

(** How many records of a table are in state [st]. *)
Definition countOf (st : State) (t : Table) : nat :=
  List.length (filter (fun j => State_eqb (state j) st) (JsMap.values t)).

(** The pending records of a table, in table order. *)
Definition pendingOf (t : Table) : list Job :=
  filter (fun j => State_eqb (state j) pending) (JsMap.values t).

(** Key [k] holds a pending record. *)
Definition pendingAt (k : string) (t : Table) : Prop :=
  exists j, JsMap.get k t = Some j /\ state j = pending.

(** [n] calls of [getNextPendingJob] in a row, and the jobs they hand
    out. *)
Fixpoint dequeues (n : nat) : M (list Job) :=
  match n with
  | O => ret []
  | S n' =>
      r <- getNextPendingJob ;;
      rest <- dequeues n' ;;
      ret (match r with Some j => j :: rest | None => rest end)
  end.

(** The lock file names a running process and this process does not hold
    the lock; no other process acts. *)
Definition lockedOut (w : World) : Prop :=
  others w = []
  /\ lockHandle (store w) = false
  /\ exists holder,
       lock_file (os w) = Some holder
       /\ existsb (N.eqb holder) (live (os w)) = true.

(** The time a dequeue spends waiting for a lock it never gets, with [n]
    pending jobs in the table: ten rounds of three tries of 50 ms for
    every candidate, and 100 ms between two rounds. *)
Definition lockedOutWait (n : nat) : Z :=
  match n with
  | O => 0
  | S _ => 10 * (Z.of_nat n * (3 * 50)) + 9 * 100
  end.

(** A record no worker cycle takes up: it is being processed, or it is
    completed or dead. *)
Definition atRest (j : Job) : Prop :=
  state j = processing \/ state j = completed \/ state j = dead.

(** Ascending array indices, as [sortByIndex] compares two entries. *)
Definition byIndex (V : Type) (e e' : string * V) : Prop :=
  (indexOf (fst e) <= indexOf (fst e'))%N.

(** The operating system as seen while the running process [holder] keeps
    the lock. *)
Definition heldBy (holder : N) (running : list N) (o : Os) : Prop :=
  lock_file o = Some holder /\ live o = running.

(** A job handed out by a dequeue is stored as processing, in memory and
    on disk. *)
Definition handedOut (p : Job) (w : World) : Prop :=
  state p = processing
  /\ JsMap.get (id p) (jobs (store w)) = Some p
  /\ persisted w.

(** The data directory accepts writes, now and after every turn of the
    other processes. *)
Definition diskOk (w : World) : Prop :=
  writable (os w) = true
  /\ Forall (fun turn => match turn with
                         | Some o => writable o = true
                         | None => True
                         end) (others w).

(** An operation that ends normally whenever the directory accepts
    writes. *)
Definition unfailing {A} (m : M A) : Prop :=
  forall w, diskOk w -> (exists a, fst (m w) = Ok a) /\ diskOk (snd (m w)).

(** An operation that, whenever the directory accepts writes, ends
    normally or raises the [RangeError] of a retry date that cannot be
    told, and nothing else. *)
Definition rangeOnly {A} (m : M A) : Prop :=
  forall w,
    diskOk w ->
    ((exists a, fst (m w) = Ok a) \/ fst (m w) = Threw RangeError)
    /\ diskOk (snd (m w)).


(* ================================================================== *)
(** ** Further concrete worlds *)
(* ================================================================== *)

Module Scenarios.
Import Examples.

(** The data directory holds a table of jobs that cannot be parsed and a
    dead-letter table with ["job1"]. *)
Definition brokenJobsFile : World :=
  mkWorld (mkStorage [] [] false)
          (withTables Corrupt (Holds [("job1", deadJob1)]) freshOs) [].

(** Process 200 runs and holds the lock; ["job1"] is pending. *)
Definition heldByOther : World :=
  mkWorld (mkStorage [] [] false)
          (mkOs (Holds [("job1", job1)]) (Holds []) (Some 200%N) true
                [100%N; 200%N] 100%N 0%Z "x") [].

(** Process 300 left its lock behind and is gone. *)
Definition staleLock : World :=
  mkWorld (mkStorage [] [] false)
          (mkOs (Holds [("job1", job1)]) (Holds []) (Some 300%N) true
                [100%N; 200%N] 100%N 0%Z "x") [].

(** Three pending jobs, the youngest first in the table. *)
Definition young : Job := plainJob "c" pending 0 3 3000 3000 None.
Definition middle : Job := plainJob "2" pending 0 3 2000 2000 None.
Definition old : Job := plainJob "a" pending 0 3 1000 1000 None.
Definition threePending : World :=
  syncedWorld [("c", young); ("2", middle); ("a", old)] [].

(** ["done"] is completed, ["job1"] is pending. *)
Definition doneJob : Job :=
  mkJob "done" (Some "echo ok") completed 0 3 500 900 None None.
Definition oneDone : World :=
  syncedWorld [("done", doneJob); ("job1", job1)] [].

Definition lastTry : Job := plainJob "job1" processing 2 3 1000 1500 None.


(** A manager that finds no pid file, and one whose pid file cannot be
    written; a host where processes 100 and 200 run. *)
Definition noPool : WorkerManager.Pool :=
  WorkerManager.mkPool WorkerManager.NoPidFile true [].
Definition readOnlyPool : WorkerManager.Pool :=
  WorkerManager.mkPool WorkerManager.NoPidFile false [].
Definition busyHost : Os :=
  mkOs Absent Absent None true [100%N; 200%N] 100%N 0%Z "x".
End Scenarios.

(* ================================================================== *)
(** * Facts about maps and property order *)
(* ================================================================== *)

Module JsMapFacts.
Import JsMap.
Section Facts.
Variable V : Type.
Implicit Types (m : t V) (k : string) (v : V).

Lemma get_set_eq k v m : get k (set k v m) = Some v.
Proof.
  induction m as [|[k' v'] r IH]; simpl.
  - now rewrite String.eqb_refl.
  - destruct (String.eqb k k') eqn:E; simpl.
    + now rewrite String.eqb_refl.
    + now rewrite E.
Qed.

Lemma get_set_ne k k' v m : k <> k' -> get k' (set k v m) = get k' m.
Proof.
  intros Hne. induction m as [|[k0 v0] r IH]; simpl.
  - destruct (String.eqb k' k) eqn:E; [|reflexivity].
    apply String.eqb_eq in E. congruence.
  - destruct (String.eqb k k0) eqn:E; simpl.
    + apply String.eqb_eq in E. subst k0.
      destruct (String.eqb k' k) eqn:E'; [|reflexivity].
      apply String.eqb_eq in E'. congruence.
    + now rewrite IH.
Qed.

Lemma get_set k k' v m :
  get k' (set k v m) = if String.eqb k' k then Some v else get k' m.
Proof.
  destruct (String.eqb k' k) eqn:E.
  - apply String.eqb_eq in E. subst. apply get_set_eq.
  - apply String.eqb_neq in E. apply get_set_ne. congruence.
Qed.

Lemma has_set k k' v m :
  has k' (set k v m) = String.eqb k' k || has k' m.
Proof.
  unfold has. rewrite get_set. now destruct (String.eqb k' k).
Qed.


Lemma get_delete k k' m :
  get k' (delete k m) = if String.eqb k' k then None else get k' m.
Proof.
  unfold delete. induction m as [|[k0 v0] r IH]; simpl.
  - now destruct (String.eqb k' k).
  - destruct (String.eqb k k0) eqn:E; simpl.
    + apply String.eqb_eq in E. subst k0. rewrite IH.
      now destruct (String.eqb k' k).
    + rewrite IH. destruct (String.eqb k' k) eqn:E'; [|reflexivity].
      apply String.eqb_eq in E'. subst k'. now rewrite E.
Qed.

Lemma has_delete k k' m :
  has k' (delete k m) = negb (String.eqb k' k) && has k' m.
Proof.
  unfold has. rewrite get_delete. now destruct (String.eqb k' k).
Qed.

Lemma get_In k v m : get k m = Some v -> In (k, v) m.
Proof.
  induction m as [|[k' v'] r IH]; simpl; [discriminate|].
  destruct (String.eqb k k') eqn:E.
  - apply String.eqb_eq in E. intros [= ->]. subst. now left.
  - intros H. right. now apply IH.
Qed.

Lemma In_has k v m : In (k, v) m -> has k m = true.
Proof.
  unfold has. induction m as [|[k' v'] r IH]; simpl; [tauto|].
  intros [[= -> ->]|H].
  - now rewrite String.eqb_refl.
  - destruct (String.eqb k k'); [reflexivity|]. now apply IH.
Qed.

Lemma In_set k v k0 v0 m :
  In (k, v) (set k0 v0 m) -> (k, v) = (k0, v0) \/ In (k, v) m.
Proof.
  induction m as [|[k' v'] r IH]; simpl.
  - intros [H|[]]. now left.
  - destruct (String.eqb k0 k'); simpl.
    + intros [H|H]; [now left | right; now right].
    + intros [H|H]; [right; now left|].
      destruct (IH H); [now left | right; now right].
Qed.

Lemma In_delete_raw (e : string * V) k0 m : In e (delete k0 m) -> In e m.
Proof. unfold delete. intros H. now apply filter_In in H. Qed.

Lemma In_delete k v k0 m : In (k, v) (delete k0 m) -> In (k, v) m.
Proof. apply In_delete_raw. Qed.

Lemma get_app k m m' :
  get k (m ++ m') =
    match get k m with Some v => Some v | None => get k m' end.
Proof.
  induction m as [|[k' v'] r IH]; simpl; [reflexivity|].
  now destruct (String.eqb k k').
Qed.

Lemma get_filter_key (p : string -> bool) k m :
  get k (filter (fun e => p (fst e)) m) = if p k then get k m else None.
Proof.
  induction m as [|[k' v'] r IH]; simpl.
  - now destruct (p k).
  - destruct (p k') eqn:P; simpl.
    + destruct (String.eqb k k') eqn:E; [|exact IH].
      apply String.eqb_eq in E. subst. now rewrite P.
    + rewrite IH. destruct (String.eqb k k') eqn:E; [|reflexivity].
      apply String.eqb_eq in E. subst. now rewrite P.
Qed.

Lemma get_insertByIndex k e m :
  get k (insertByIndex e m) =
    if String.eqb k (fst e) then Some (snd e) else get k m.
Proof.
  destruct e as [k0 v0]. simpl.
  induction m as [|[k' v'] r IH]; simpl; [reflexivity|].
  destruct (indexOf k0 <=? indexOf k')%N eqn:L; simpl; [reflexivity|].
  rewrite IH. destruct (String.eqb k k0) eqn:E; [|reflexivity].
  destruct (String.eqb k k') eqn:E'; [|reflexivity].
  apply String.eqb_eq in E, E'. subst.
  rewrite N.leb_refl in L. discriminate.
Qed.

Lemma get_sortByIndex k m : get k (sortByIndex m) = get k m.
Proof.
  induction m as [|[k' v'] r IH]; simpl; [reflexivity|].
  rewrite get_insertByIndex. simpl. now rewrite IH.
Qed.

(** Writing a table out and reading it back keeps every binding. *)
Lemma get_objectOrder k m : get k (objectOrder m) = get k m.
Proof.
  unfold objectOrder. rewrite get_app, get_sortByIndex.
  rewrite (get_filter_key isArrayIndex).
  rewrite (get_filter_key (fun s => negb (isArrayIndex s))).
  destruct (isArrayIndex k); simpl; [|reflexivity].
  now destruct (get k m).
Qed.

Lemma has_objectOrder k m : has k (objectOrder m) = has k m.
Proof. unfold has. now rewrite get_objectOrder. Qed.

Lemma insertByIndex_perm e m : Permutation (e :: m) (insertByIndex e m).
Proof.
  induction m as [|e' r IH]; simpl; [reflexivity|].
  destruct (indexOf (fst e) <=? indexOf (fst e'))%N; [reflexivity|].
  rewrite perm_swap. now constructor.
Qed.

Lemma sortByIndex_perm m : Permutation m (sortByIndex m).
Proof.
  induction m as [|e r IH]; simpl; [constructor|].
  rewrite <- insertByIndex_perm. now constructor.
Qed.

Lemma filter_split_perm (p : string * V -> bool) m :
  Permutation m (filter p m ++ filter (fun e => negb (p e)) m).
Proof.
  induction m as [|e r IH]; simpl; [constructor|].
  destruct (p e); simpl.
  - now constructor.
  - now apply Permutation_cons_app.
Qed.

Lemma objectOrder_perm m : Permutation m (objectOrder m).
Proof.
  unfold objectOrder.
  rewrite <- sortByIndex_perm.
  apply (filter_split_perm (fun e => isArrayIndex (fst e))).
Qed.

Lemma In_objectOrder e m : In e (objectOrder m) <-> In e m.
Proof.
  split; apply Permutation_in;
    [symmetry|]; apply objectOrder_perm.
Qed.

(** *** Keys *)

Lemma has_In_keys k m : has k m = true <-> In k (keys m).
Proof.
  unfold has, keys. induction m as [|[k' v'] r IH]; simpl.
  - split; [discriminate | tauto].
  - destruct (String.eqb k k') eqn:E.
    + apply String.eqb_eq in E. subst. split; [now left | reflexivity].
    + apply String.eqb_neq in E. rewrite IH. split; [now right|].
      intros [H|H]; [congruence | exact H].
Qed.

Lemma keys_set_has k v m : has k m = true -> keys (set k v m) = keys m.
Proof.
  unfold has, keys. induction m as [|[k' v'] r IH]; simpl; [discriminate|].
  destruct (String.eqb k k') eqn:E; simpl.
  - apply String.eqb_eq in E. now subst.
  - intros H. now rewrite IH.
Qed.

Lemma keys_set_new k v m :
  has k m = false -> keys (set k v m) = keys m ++ [k].
Proof.
  unfold has, keys. induction m as [|[k' v'] r IH]; simpl; [reflexivity|].
  destruct (String.eqb k k') eqn:E; simpl; [discriminate|].
  intros H. now rewrite IH.
Qed.

Lemma In_keys_set k k' v m :
  In k' (keys (set k v m)) <-> k' = k \/ In k' (keys m).
Proof.
  rewrite <- !has_In_keys, has_set.
  destruct (String.eqb k' k) eqn:E; simpl.
  - apply String.eqb_eq in E. tauto.
  - apply String.eqb_neq in E. tauto.
Qed.

Lemma NoDup_keys_set k v m : NoDup (keys m) -> NoDup (keys (set k v m)).
Proof.
  intros H. destruct (has k m) eqn:E.
  - now rewrite keys_set_has.
  - rewrite keys_set_new by exact E.
    apply NoDup_app; [exact H | repeat constructor; tauto |].
    intros x Hx [<-|[]]. apply has_In_keys in Hx. congruence.
Qed.

Lemma NoDup_keys_delete k m : NoDup (keys m) -> NoDup (keys (delete k m)).
Proof.
  unfold keys, delete. induction m as [|[k' v'] r IH]; simpl; [tauto|].
  intros H. inversion H as [|? ? Hn Hr]; subst.
  destruct (negb (String.eqb k k')); simpl; [|now apply IH].
  constructor; [|now apply IH].
  intros Hin. apply Hn. apply in_map_iff in Hin as ([k0 v0] & <- & Hf).
  apply filter_In in Hf as [Hf _]. now apply (in_map fst) in Hf.
Qed.

Lemma In_keys_delete k k' m : In k' (keys (delete k m)) -> In k' (keys m).
Proof.
  unfold keys. intros H. apply in_map_iff in H as (e & <- & He).
  apply in_map. now apply In_delete_raw in He.
Qed.

Lemma keys_objectOrder_perm m : Permutation (keys m) (keys (objectOrder m)).
Proof. unfold keys. apply Permutation_map, objectOrder_perm. Qed.

Lemma In_get k v m : NoDup (keys m) -> In (k, v) m -> get k m = Some v.
Proof.
  unfold keys. induction m as [|[k' v'] r IH]; simpl; [tauto|].
  intros H. inversion H as [|? ? Hn Hr]; subst.
  intros [[= -> ->]|Hin].
  - now rewrite String.eqb_refl.
  - destruct (String.eqb k k') eqn:E; [|now apply IH].
    apply String.eqb_eq in E. subst. exfalso. apply Hn.
    now apply (in_map fst) in Hin.
Qed.

Lemma In_values v m : In v (values m) -> exists k, In (k, v) m.
Proof.
  unfold values. intros H. apply in_map_iff in H as ([k v0] & <- & H).
  now exists k.
Qed.

Lemma set_set k v v' m : set k v (set k v' m) = set k v m.
Proof.
  induction m as [|[k' v0] r IH]; simpl.
  - now rewrite String.eqb_refl.
  - destruct (String.eqb k k') eqn:E; simpl.
    + now rewrite String.eqb_refl.
    + now rewrite E, IH.
Qed.
End Facts.
End JsMapFacts.

(* ================================================================== *)
(** * Worked examples *)
(* ================================================================== *)

Import Examples.

(** Array-index keys come first, in numeric order; ["01"] is not one. *)
Example objectOrder_mixed_keys :
  map fst (objectOrder [("b", 1); ("10", 2); ("2", 3); ("a", 4); ("01", 5)])
  = ["2"; "10"; "b"; "a"; "01"].
Proof. reflexivity. Qed.

Example generated_id :
  generateId 1700000000000 "k3j2h1g0f" = "job-1700000000000-k3j2h1g0f".
Proof. reflexivity. Qed.

(** The defaults of the constructor. *)
Example constructor_defaults :
  newJob 1700000000000 "k3j2h1g0f"
    (mkJobData None (Some "echo hi") None None None None None None None)
  = mkJob "job-1700000000000-k3j2h1g0f" (Some "echo hi") pending 0 3
      1700000000000 1700000000000 None None.
Proof. reflexivity. Qed.

Example enqueue_empty_command :
  processJobData emptyCommandData freshWorld = (Ok ValidationError, freshWorld).
Proof. reflexivity. Qed.

Example enqueue_then_succeed :
  let w := snd (bind (processJobData againData)
                  (fun _ => processNextJob 2 showZ Succeeded) freshWorld) in
  option_map state (JsMap.get "job1" (jobs (store w))) = Some completed
  /\ option_map error (JsMap.get "job1" (jobs (store w))) = Some None
  /\ lockHandle (store w) = false
  /\ lock_file (os w) = None.
Proof. vm_compute. repeat split; reflexivity. Qed.

Example retry_from_dead_letter :
  let w := snd (retryFromDLQ "job1" deadOnly) in
  JsMap.get "job1" (jobs (store w)) = Some (revived 1700000000000 deadJob1)
  /\ dlq (store w) = [].
Proof. split; reflexivity. Qed.

(** With the lock held by the live process 200 the dequeue gives up after
    ten rounds of three tries and takes nothing. *)
Example dequeue_locked_out :
  let w := mkWorld (mkStorage [] [] false)
             (withLock (Some 200%N)
                (mkOs (Holds [("job1", job1)]) (Holds []) None true
                      [100%N; 200%N] 100%N 0%Z "x")) [] in
  fst (getNextPendingJob w) = Ok None
  /\ lockHandle (store (snd (getNextPendingJob w))) = false
  /\ lock_file (os (snd (getNextPendingJob w))) = Some 200%N
  /\ clock (os (snd (getNextPendingJob w))) = (10 * 3 * 50 + 9 * 100)%Z.
Proof. vm_compute. repeat split; reflexivity. Qed.

Unset Implicit Arguments.

(* ================================================================== *)
(** * The job record *)
(* ================================================================== *)

Lemma orNumber_zero (n : N) : orNumber (Some n) 0 = n.
Proof.
  simpl. destruct (N.eqb n 0) eqn:E; [|reflexivity].
  apply N.eqb_eq in E. now subst n.
Qed.

(** The test of the worker on a stored record. *)
Lemma eligible_eq now rnd j :
  eligible now rnd j
  = State_eqb (state j) failed
    && ((attempts j <? orNumber (Some (max_retries j)) 3)%N
        && shouldRetryNow now j).
Proof.
  unfold eligible, readyToRetry, canRetry, shouldRetryNow, fromJSON,
    newJob, toJSON.
  cbn [d_state d_attempts d_max_retries d_next_retry_at state attempts
       max_retries next_retry_at orElse].
  rewrite orNumber_zero.
  destruct (State_eqb (state j) failed); simpl; [|reflexivity].
  now rewrite andb_true_r.
Qed.

Lemma calculateNextRetry_inRange (now base : Z) (j : Job) :
  inRange now base (attempts j) ->
  retryDelay base j = Some (base ^ Z.of_N (attempts j))%Z
  /\ calculateNextRetry now base j
     = Ok (now + 1000 * base ^ Z.of_N (attempts j))%Z.
Proof.
  intros [Hd Ht]. unfold calculateNextRetry, retryDelay, validTime.
  cbv zeta. apply Z.ltb_lt in Hd. apply Z.leb_le in Ht.
  now rewrite Hd, Ht.
Qed.

Lemma calculateNextRetry_Ok (now base : Z) (j : Job) (next : Z) :
  calculateNextRetry now base j = Ok next ->
  inRange now base (attempts j)
  /\ next = (now + 1000 * base ^ Z.of_N (attempts j))%Z.
Proof.
  unfold calculateNextRetry, retryDelay, validTime, inRange. cbv zeta.
  destruct (Z.ltb_spec (Z.abs (base ^ Z.of_N (attempts j))) (2 ^ 53));
    [|discriminate].
  destruct (Z.leb_spec (Z.abs (now + 1000 * base ^ Z.of_N (attempts j)))
              maxTime); [|discriminate].
  intros [= <-]. now repeat split.
Qed.

Lemma calculateNextRetry_Threw (now base : Z) (j : Job) (e : string) :
  calculateNextRetry now base j = Threw e ->
  e = RangeError /\ ~ inRange now base (attempts j).
Proof.
  intros H. split.
  - revert H. unfold calculateNextRetry. destruct (retryDelay base j);
      [destruct (validTime _)|]; congruence.
  - intros R. destruct (calculateNextRetry_inRange now base j R) as [_ E].
    congruence.
Qed.

Arguments calculateNextRetry : simpl never.




(* ================================================================== *)
(** * Single operations of the store *)
(* ================================================================== *)

Ltac run_monad :=
  unfold bind, ret, throw, tryCatch, getStore, getOs, putStore, putOs,
    setJobs, setDlq, setLockHandle; simpl.

(** C7. When [jobId] is in the dead-letter table, [retryFromDLQ] removes it
    from there and puts the record into the active table with state
    [pending] and [attempts] 0 (and the tables are written out, unless the
    disk refuses the write); when it is not, the call returns [null] and
    nothing at all changes. *)
Theorem retryFromDLQ_spec (jobId : string) (w : World) :
  match JsMap.get jobId (dlq (store w)) with
  | Some job =>
      let job' := revived (clock (os w)) job in
      let w' := snd (retryFromDLQ jobId w) in
      JsMap.get jobId (dlq (store w')) = None
      /\ JsMap.get (id job') (jobs (store w')) = Some job'
      /\ id job' = id job
      /\ state job' = pending
      /\ attempts job' = 0%N
      /\ (if writable (os w)
          then fst (retryFromDLQ jobId w) = Ok (Some job') /\ persisted w'
          else fst (retryFromDLQ jobId w) = Threw EACCES /\ os w' = os w)
  | None => retryFromDLQ jobId w = (Ok None, w)
  end.
Proof.
  unfold retryFromDLQ. run_monad.
  destruct (JsMap.get jobId (dlq (store w))) as [job|] eqn:G; simpl.
  2: reflexivity.
  unfold save. run_monad.
  destruct (writable (os w)) eqn:W; simpl;
    rewrite JsMapFacts.get_delete, String.eqb_refl, JsMapFacts.get_set_eq;
    repeat split; reflexivity.
Qed.





Lemma generateId_nonempty now rnd : generateId now rnd <> "".
Proof. unfold generateId. simpl. discriminate. Qed.

Lemma orString_nonempty x d : d <> "" -> orString x d <> "".
Proof.
  intros Hd. unfold orString. destruct x as [s|]; [|exact Hd].
  destruct (String.eqb s "") eqn:E; [exact Hd|].
  now apply String.eqb_neq in E.
Qed.

(** C2. With an empty (or missing) command the [enqueue] action ends with
    the validation error and the world, tables and files alike, is as
    before.  With any other command the job built carries that command
    and has the id given, or a generated one when none was given; its
    record is set under that id in the active table, the dead-letter
    table is untouched, and both tables are written out (the action
    reports the error instead when the disk refuses the write). *)
Theorem enqueue_spec (data : JobData) (w : World) :
  let job := submitted data w in
  let w' := snd (processJobData data w) in
  match d_command data with
  | None => processJobData data w = (Ok ValidationError, w)
  | Some c =>
      if String.eqb c ""
      then processJobData data w = (Ok ValidationError, w)
      else
        command job = Some c
        /\ id job = orString (d_id data)
                      (generateId (clock (os w)) (random (os w)))
        /\ id job <> ""
        /\ jobs (store w') = JsMap.set (id job) job (jobs (store w))
        /\ JsMap.get (id job) (jobs (store w')) = Some job
        /\ dlq (store w') = dlq (store w)
        /\ (if writable (os w)
            then fst (processJobData data w) = Ok (Enqueued job)
                 /\ persisted w'
                 /\ (exists t, jobs_file (os w') = Holds t
                               /\ JsMap.get (id job) t = Some job)
            else fst (processJobData data w) = Ok (Failure EACCES)
                 /\ os w' = os w)
  end.
Proof.
  unfold submitted. cbv zeta.
  unfold processJobData, addJob, save. run_monad. unfold noCommand.
  cbn [command newJob].
  destruct (d_command data) as [c|]; [|reflexivity].
  destruct (String.eqb c "") eqn:Hc; simpl; [reflexivity|].
  split; [reflexivity|]. split; [reflexivity|].
  split; [apply orString_nonempty, generateId_nonempty|].
  destruct (writable (os w)); simpl.
  - split; [reflexivity|]. split; [apply JsMapFacts.get_set_eq|].
    split; [reflexivity|]. split; [reflexivity|].
    split; [split; reflexivity|].
    eexists. split; [reflexivity|].
    rewrite JsMapFacts.get_objectOrder. apply JsMapFacts.get_set_eq.
  - split; [reflexivity|]. split; [apply JsMapFacts.get_set_eq|].
    repeat split; reflexivity.
Qed.

Lemma enqueue_spec_witness :
  let w' := snd (processJobData againData freshWorld) in
  command (submitted againData freshWorld) = Some "echo again"
  /\ JsMap.get "job1" (jobs (store w'))
     = Some (mkJob "job1" (Some "echo again") pending 0 3
               1700000000000 1700000000000 None None)
  /\ fst (processJobData againData freshWorld)
     = Ok (Enqueued (submitted againData freshWorld)).
Proof.
  destruct (enqueue_spec againData freshWorld)
    as (Hc & _ & _ & _ & Hg & _ & He & _).
  exact (conj Hc (conj Hg He)).
Defined.




(* ================================================================== *)
(** * The constructor and a requested [max_retries] of zero *)
(* ================================================================== *)

(** C1. A request for [max_retries] 0 is stored as [max_retries] 3, because
    [data.max_retries || 3] takes 0 for a missing value.  Enqueued on a
    fresh store and failed once by a worker cycle, the job stays in the
    active table and the dead-letter table stays empty; the record is
    [failed] with [attempts] 1 and a retry time, for every back-off base
    with which that time can be told. *)
Theorem zero_max_retries_is_retried
    (backoffBase : Z) (toISOString : Z -> string) :
  (forall now rnd i c s a ca ua e nx,
      max_retries
        (newJob now rnd (mkJobData i c s a (Some 0%N) ca ua e nx)) = 3%N)
  /\ let w1 := snd (processJobData noRetryData freshWorld) in
     let w2 := snd (processNextJob backoffBase toISOString Failed w1) in
     option_map max_retries (JsMap.get "job1" (jobs (store w1))) = Some 3%N
     /\ option_map max_retries (JsMap.get "job1" (jobs (store w2)))
        = Some 3%N
     /\ dlq (store w2) = []
     /\ (inRange 1700000000000 backoffBase 1 ->
         option_map state (JsMap.get "job1" (jobs (store w2))) = Some failed
         /\ option_map attempts (JsMap.get "job1" (jobs (store w2)))
            = Some 1%N
         /\ option_map next_retry_at (JsMap.get "job1" (jobs (store w2)))
            = Some (Some (1700000000000 + 1000 * backoffBase ^ 1)%Z)).
Proof.
  split; [reflexivity|]. cbv zeta.
  split; [reflexivity|].
  set (w1 := snd (processJobData noRetryData freshWorld)).
  set (held := mkJob "job1" (Some "exit 1") processing 0 3
                 1700000000000 1700000000000 None None).
  set (counted := setUpdatedAt 1700000000000 (setAttempts 1 held)).
  remember (snd (processNextJob backoffBase toISOString Failed w1))
    as w2 eqn:Hw2.
  assert (E : processNextJob backoffBase toISOString Failed w1
              = executeJob backoffBase toISOString Failed held
                  (syncedWorld [("job1", held)] [])) by reflexivity.
  rewrite E in Hw2. clear E.
  unfold executeJob, bind at 1, getOs at 1, attempt in Hw2.
  change (max_retries _ <=? attempts _)%N with false in Hw2.
  cbv iota in Hw2.
  change (clock (os (syncedWorld [("job1", held)] [])))
    with 1700000000000%Z in Hw2.
  change (attempts held + 1)%N with 1%N in Hw2. fold counted in Hw2.
  destruct (calculateNextRetry 1700000000000 backoffBase counted)
    as [next|e] eqn:E1.
  - apply calculateNextRetry_Ok in E1 as [_ ->]. subst w2.
    split; [reflexivity|]. split; [reflexivity|].
    intros _. repeat split; reflexivity.
  - apply calculateNextRetry_Threw in E1 as [_ R1].
    unfold recover, bind at 1, getOs at 1 in Hw2.
    change (max_retries _ <=? attempts _)%N with false in Hw2.
    cbv iota in Hw2.
    change (clock (os (syncedWorld [("job1", held)] [])))
      with 1700000000000%Z in Hw2.
    match type of Hw2 with
    | context [calculateNextRetry _ _ ?j] =>
        destruct (calculateNextRetry 1700000000000 backoffBase j)
          as [next|e'] eqn:E2
    end; subst w2.
    + split; [reflexivity|]. split; [reflexivity|].
      intros R. now destruct (R1 R).
    + split; [reflexivity|]. split; [reflexivity|].
      intros R. now destruct (R1 R).
Qed.

Lemma zero_max_retries_is_retried_witness :
  let w1 := snd (processJobData noRetryData freshWorld) in
  let w2 := snd (processNextJob 2 showZ Failed w1) in
  option_map state (JsMap.get "job1" (jobs (store w2))) = Some failed
  /\ option_map attempts (JsMap.get "job1" (jobs (store w2))) = Some 1%N
  /\ option_map next_retry_at (JsMap.get "job1" (jobs (store w2)))
     = Some (Some 1700000002000%Z).
Proof.
  apply (proj2 (proj2 (proj2 (proj2 (zero_max_retries_is_retried 2 showZ))))).
  split; vm_compute; [reflexivity | discriminate].
Defined.

(* ================================================================== *)
(** * The lock of [getNextPendingJob] *)
(* ================================================================== *)

(** C3. In the world [raced] the job selected is no longer [pending] when
    it is read again under the lock.  [getNextPendingJob] then returns
    [null] while [this.lockHandle] is still set and the lock file still
    names this process: the branch that finds the job taken does not call
    [releaseLock], as the branch that claims it and the [catch] block do. *)
Theorem getNextPendingJob_keeps_lock :
  let w' := snd (getNextPendingJob raced) in
  lockHandle (store raced) = false
  /\ lock_file (os raced) = None
  /\ fst (getNextPendingJob raced) = Ok None
  /\ lockHandle (store w') = true
  /\ lock_file (os w') = Some (pid (os w')).
Proof. vm_compute. repeat split; reflexivity. Qed.

(* ================================================================== *)
(** * Which failed job a worker cycle promotes *)
(* ================================================================== *)

Lemma find_filter {A} (p q : A -> bool) (l : list A) :
  find p (filter q l) = find (fun x => q x && p x) l.
Proof.
  induction l as [|x r IH]; simpl; [reflexivity|].
  destruct (q x); simpl; [|exact IH].
  now destruct (p x).
Qed.

Lemma find_first {A} (p : A -> bool) (l : list A) (x : A) :
  find p l = Some x ->
  p x = true
  /\ exists before after,
       l = before ++ x :: after
       /\ forallb (fun y => negb (p y)) before = true.
Proof.
  induction l as [|y r IH]; simpl; [discriminate|].
  destruct (p y) eqn:P.
  - intros [= ->]. split; [exact P|]. now exists [], r.
  - intros H. destruct (IH H) as [Hx (b & a & -> & Hb)].
    split; [exact Hx|]. exists (y :: b), a. simpl.
    now rewrite P, Hb.
Qed.

Lemma findReadyToRetry_eq (w : World) :
  findReadyToRetry w
  = (Ok (find (eligible (clock (os w)) (random (os w)))
              (JsMap.values (jobs (store w)))), w).
Proof.
  unfold findReadyToRetry, getJobsByState. run_monad.
  now rewrite find_filter.
Qed.

(** C5, as the code has it.  In a cycle whose dequeue returns no job, the
    job promoted is the first one, in the iteration order of the active
    table, that is [failed], can be retried and is due; every job before
    it in the table fails that test.  It is handed to [updateJob] with
    state [pending].  When no job passes the test the cycle ends there. *)
Theorem promotes_first_ready
    (backoffBase : Z) (toISOString : Z -> string) (outcome : Outcome)
    (w w1 : World) :
  getNextPendingJob w = (Ok None, w1) ->
  let now := clock (os w1) in
  let rnd := random (os w1) in
  let table := JsMap.values (jobs (store w1)) in
  match find (eligible now rnd) table with
  | Some r =>
      (exists before after,
          table = before ++ r :: after
          /\ forallb (fun j => negb (eligible now rnd j)) before = true)
      /\ eligible now rnd r = true
      /\ state (promoted now rnd r) = pending
      /\ processNextJob backoffBase toISOString outcome w
         = promoteAndRun backoffBase toISOString outcome r w1
      /\ promoteAndRun backoffBase toISOString outcome r w1
         = bind (updateJob (promoted now rnd r))
             (fun _ =>
                bind getNextPendingJob
                  (fun pendingJob =>
                     match pendingJob with
                     | Some p => runJob backoffBase toISOString outcome p
                     | None => ret tt
                     end)) w1
  | None =>
      processNextJob backoffBase toISOString outcome w = (Ok tt, w1)
  end.
Proof.
  intros H. cbv zeta.
  assert (E : processNextJob backoffBase toISOString outcome w
              = match find (eligible (clock (os w1)) (random (os w1)))
                        (JsMap.values (jobs (store w1))) with
                | Some r => promoteAndRun backoffBase toISOString outcome r w1
                | None => (Ok tt, w1)
                end).
  { unfold processNextJob, bind at 1. rewrite H.
    unfold bind at 1. rewrite findReadyToRetry_eq.
    now destruct (find _ _). }
  destruct (find _ _) as [r|] eqn:F; [|exact E].
  destruct (find_first _ _ _ F) as [Hr Hfirst].
  repeat split; try assumption; reflexivity.
Qed.

Lemma promotes_first_ready_witness :
  processNextJob 2 showZ Succeeded twoFailed
  = promoteAndRun 2 showZ Succeeded jobA twoFailed.
Proof.
  exact (proj1 (proj2 (proj2 (proj2
           (promotes_first_ready 2 showZ Succeeded twoFailed twoFailed
              eq_refl))))).
Defined.

(** C5, as the specification words it, refuted.  In [twoFailed] both jobs
    pass the test and ["b"] has the older [updated_at]; the dequeue returns
    no job, and the cycle promotes and runs ["a"], the first in the table,
    leaving ["b"] as it was. *)
Lemma promotion_ignores_updated_at :
  let now := clock (os twoFailed) in
  let rnd := random (os twoFailed) in
  let w' := snd (processNextJob 2 showZ Succeeded twoFailed) in
  getNextPendingJob twoFailed = (Ok None, twoFailed)
  /\ eligible now rnd jobA = true
  /\ eligible now rnd jobB = true
  /\ (updated_at jobB < updated_at jobA)%Z
  /\ findReadyToRetry twoFailed = (Ok (Some jobA), twoFailed)
  /\ option_map state (JsMap.get "a" (jobs (store w'))) = Some completed
  /\ JsMap.get "b" (jobs (store w')) = Some jobB.
Proof. vm_compute. repeat split; reflexivity. Qed.

(* ================================================================== *)
(** * The two tables never share an id *)
(* ================================================================== *)

Section Consistency.
Import JsMapFacts.

Lemma keyed_set (j : Job) (t : Table) :
  keyed t -> keyed (JsMap.set (id j) j t).
Proof.
  intros K k j' H. apply In_set in H as [[= -> ->]|H]; [reflexivity|].
  now apply K.
Qed.

Lemma keyed_delete (k : string) (t : Table) :
  keyed t -> keyed (JsMap.delete k t).
Proof. intros K k' j H. apply In_delete in H. now apply K. Qed.

Lemma keyed_objectOrder (t : Table) : keyed t -> keyed (objectOrder t).
Proof.
  intros K k j H. apply K. now apply (proj1 (In_objectOrder _ _)).
Qed.

Lemma keyed_get (k : string) (j : Job) (t : Table) :
  keyed t -> JsMap.get k t = Some j -> id j = k.
Proof. intros K G. apply K. now apply get_In. Qed.

Lemma apart_set_known (k : string) (j : Job) (a d : Table) :
  JsMap.has k a = true -> apart a d -> apart (JsMap.set k j a) d.
Proof.
  intros Hk D k'. rewrite has_set.
  destruct (String.eqb k' k) eqn:E; simpl; [|apply D].
  apply String.eqb_eq in E. subst. intros _. now apply D.
Qed.

Lemma apart_set_new (k : string) (j : Job) (a d : Table) :
  JsMap.has k d = false -> apart a d -> apart (JsMap.set k j a) d.
Proof.
  intros Hk D k'. rewrite has_set.
  destruct (String.eqb k' k) eqn:E; simpl; [|apply D].
  apply String.eqb_eq in E. now subst.
Qed.

Lemma apart_delete (k : string) (a d : Table) :
  apart a d -> apart (JsMap.delete k a) d.
Proof.
  intros D k'. rewrite has_delete.
  destruct (String.eqb k' k); simpl; [discriminate|apply D].
Qed.

(** The move of [moveToDLQ]. *)
Lemma apart_move (k : string) (j : Job) (a d : Table) :
  apart a d -> apart (JsMap.delete k a) (JsMap.set k j d).
Proof.
  intros D k'. rewrite has_delete, has_set.
  destruct (String.eqb k' k); simpl; [discriminate|apply D].
Qed.

(** The move of [retryFromDLQ]. *)
Lemma apart_move_back (k : string) (j : Job) (a d : Table) :
  apart a d -> apart (JsMap.set k j a) (JsMap.delete k d).
Proof.
  intros D k'. rewrite has_delete, has_set.
  destruct (String.eqb k' k); simpl; [reflexivity|].
  apply D.
Qed.

Lemma tablesOk_objectOrder (a d : Table) :
  tablesOk a d -> tablesOk (objectOrder a) (objectOrder d).
Proof.
  intros (Ka & Kd & D). repeat split; try now apply keyed_objectOrder.
  intros k. rewrite !has_objectOrder. apply D.
Qed.

Lemma tablesOk_nil : tablesOk [] [].
Proof. repeat split; intros k j []. Qed.

(** *** Building blocks *)

Lemma preserves_ret {A} (a : A) : preserves (ret a).
Proof. now intros w H. Qed.

Lemma preserves_bind {A B} (m : M A) (f : A -> M B) :
  preserves m -> (forall a, preserves (f a)) -> preserves (bind m f).
Proof.
  intros Hm Hf w H. unfold bind. specialize (Hm w H).
  destruct (m w) as [[a|e] w']; simpl in *; [now apply Hf | assumption].
Qed.

Lemma preserves_tryCatch {A} (m : M A) (h : string -> M A) :
  preserves m -> (forall e, preserves (h e)) -> preserves (tryCatch m h).
Proof.
  intros Hm Hh w H. unfold tryCatch. specialize (Hm w H).
  destruct (m w) as [[a|e] w']; simpl in *; [assumption | now apply Hh].
Qed.

Lemma preserves_getStore {A} (f : Storage -> M A) :
  (forall w, consistent w -> consistent (snd (f (store w) w))) ->
  preserves (bind getStore f).
Proof. intros Hf w H. unfold bind, getStore. now apply Hf. Qed.

Lemma preserves_getOs {A} (f : Os -> M A) :
  (forall w, consistent w -> consistent (snd (f (os w) w))) ->
  preserves (bind getOs f).
Proof. intros Hf w H. unfold bind, getOs. now apply Hf. Qed.

(** Once the first step has kept the invariant, so does the rest. *)
Lemma consistent_bind {A B} (m : M A) (f : A -> M B) (w : World) :
  consistent (snd (m w)) -> (forall a, preserves (f a)) ->
  consistent (snd (bind m f w)).
Proof.
  intros Hm Hf. unfold bind.
  destruct (m w) as [[a|e] w']; simpl in *; [now apply Hf | assumption].
Qed.

Lemma consistent_setJobs (t : Table) (w : World) :
  consistent w -> tablesOk t (dlq (store w)) ->
  consistent (snd (setJobs t w)).
Proof. intros (_ & F & O) T. split; [exact T | split; assumption]. Qed.

Ltac keep_all := split; [assumption | split; assumption].

Lemma preserves_sleep ms : preserves (sleep ms).
Proof. intros w (T & F & O). keep_all. Qed.

Lemma preserves_interfere : preserves interfere.
Proof.
  intros [s o ot] (T & F & O). unfold interfere. simpl in *.
  destruct ot as [|[o'|] rest]; simpl.
  - keep_all.
  - inversion O; subst. keep_all.
  - inversion O; subst. keep_all.
Qed.

Lemma tablesOk_loaded (o : Os) (s : Storage) :
  tablesOk (jobs s) (dlq s) -> filesOk o ->
  tablesOk (jobs (loaded o s)) (dlq (loaded o s)).
Proof.
  unfold loaded, filesOk. intros T F.
  destruct (jobs_file o), (dlq_file o); simpl;
    try assumption; try apply tablesOk_nil; contradiction.
Qed.

Lemma preserves_load : preserves load.
Proof.
  unfold load. apply preserves_bind; [apply preserves_interfere|].
  intros _ w (T & F & O). unfold bind, getStore, getOs, putStore. simpl.
  split; [now apply tablesOk_loaded | split; assumption].
Qed.

Lemma preserves_save : preserves save.
Proof.
  intros w (T & F & O). unfold save, bind, getStore, getOs, putOs, throw.
  destruct (writable (os w)); simpl; [|keep_all].
  split; [assumption|]. split; [|assumption].
  unfold filesOk. simpl. now apply tablesOk_objectOrder.
Qed.

Lemma preserves_acquireLock : preserves acquireLock.
Proof.
  intros w (T & F & O).
  unfold acquireLock, bind, getStore, getOs, putOs, setLockHandle, ret.
  simpl. destruct (lockHandle (store w)); [keep_all|].
  destruct (lock_file (os w)) as [holder|];
    [destruct (existsb _ _); [keep_all|]|];
    destruct (writable (os w)); simpl; keep_all.
Qed.

Lemma preserves_releaseLock : preserves releaseLock.
Proof.
  intros w (T & F & O).
  unfold releaseLock, bind, getStore, getOs, putOs, setLockHandle, ret.
  simpl. destruct (lockHandle (store w)); [|keep_all].
  destruct (lock_file (os w)); [|keep_all].
  destruct (writable (os w)); simpl; keep_all.
Qed.

Lemma preserves_acquireLockWithRetry n delay :
  preserves (acquireLockWithRetry n delay).
Proof.
  induction n as [|n IH]; simpl; [apply preserves_ret|].
  apply preserves_bind; [apply preserves_acquireLock|].
  intros [|]; [apply preserves_ret|].
  apply preserves_bind; [apply preserves_sleep | intros _; exact IH].
Qed.
End Consistency.

Section StoreOperations.
Import JsMapFacts.

Lemma preserves_updateJob job : preserves (updateJob job).
Proof.
  unfold updateJob. apply preserves_bind; [apply preserves_load|].
  intros _. apply preserves_getStore. intros w H.
  destruct (JsMap.has (id job) (jobs (store w))) eqn:E; [|exact H].
  apply consistent_bind.
  - apply consistent_setJobs; [exact H|].
    destruct H as ((Ka & Kd & D) & _).
    repeat split; [now apply keyed_set | exact Kd |].
    now apply apart_set_known.
  - intros _. apply preserves_bind; [apply preserves_save|].
    intros _. apply preserves_ret.
Qed.

Lemma preserves_deleteJob k : preserves (deleteJob k).
Proof.
  unfold deleteJob. apply preserves_getStore. intros w H.
  destruct (JsMap.has k (jobs (store w))); [|exact H].
  apply consistent_bind.
  - apply consistent_setJobs; [exact H|].
    destruct H as ((Ka & Kd & D) & _).
    repeat split; [now apply keyed_delete | exact Kd |].
    now apply apart_delete.
  - intros _. apply preserves_bind; [apply preserves_save|].
    intros _. apply preserves_ret.
Qed.

Lemma preserves_moveToDLQ job : preserves (moveToDLQ job).
Proof.
  unfold moveToDLQ. apply preserves_getOs. intros w H.
  change (consistent (snd (bind
    (bind (setDlq (JsMap.set (id job)
                     (setUpdatedAt (clock (os w)) (setState dead job))
                     (dlq (store w))))
       (fun _ => bind getStore (fun s =>
          setJobs (JsMap.delete (id job) (jobs s)))))
    (fun _ => save) w))).
  apply consistent_bind; [|intros _; apply preserves_save].
  destruct H as ((Ka & Kd & D) & F & O).
  split; [|split; assumption]. simpl.
  repeat split.
  - now apply keyed_delete.
  - now apply (keyed_set (setUpdatedAt (clock (os w)) (setState dead job))).
  - now apply apart_move.
Qed.

Lemma preserves_addJob job :
  forall w, consistent w ->
            JsMap.has (id job) (dlq (store w)) = false ->
            consistent (snd (addJob job w)).
Proof.
  intros w H Hd. unfold addJob, bind at 1, getStore at 1.
  apply consistent_bind; [|intros _; apply preserves_save].
  apply consistent_setJobs; [exact H|].
  destruct H as ((Ka & Kd & D) & _).
  repeat split; [now apply keyed_set | exact Kd |].
  now apply apart_set_new.
Qed.

Lemma preserves_processJobData data :
  forall w, consistent w ->
            JsMap.has (id (submitted data w)) (dlq (store w)) = false ->
            consistent (snd (processJobData data w)).
Proof.
  intros w H Hd. unfold processJobData, tryCatch, bind at 1, getOs at 1.
  fold (submitted data w).
  destruct (noCommand (submitted data w)); [exact H|].
  pose proof (preserves_addJob (submitted data w) w H Hd) as P.
  unfold bind at 1.
  destruct (addJob (submitted data w) w) as [[[]|e] w']; exact P.
Qed.

Lemma preserves_retryFromDLQ jobId : preserves (retryFromDLQ jobId).
Proof.
  unfold retryFromDLQ. apply preserves_getStore. intros w H.
  destruct (JsMap.get jobId (dlq (store w))) as [job|] eqn:G; [|exact H].
  unfold bind at 1, getOs at 1.
  assert (Hid : id job = jobId).
  { destruct H as ((_ & Kd & _) & _). exact (keyed_get _ _ _ Kd G). }
  set (job' := setUpdatedAt (clock (os w))
                 (setAttempts 0 (setState pending job))).
  change (consistent (snd (bind
    (bind (setDlq (JsMap.delete jobId (dlq (store w))))
       (fun _ => bind getStore (fun s =>
          setJobs (JsMap.set (id job') job' (jobs s)))))
    (fun _ => bind save (fun _ => ret (Some job'))) w))).
  apply consistent_bind.
  - destruct H as ((Ka & Kd & D) & F & O).
    split; [|split; assumption]. simpl.
    repeat split.
    + now apply (keyed_set job').
    + now apply keyed_delete.
    + change (id job') with (id job). rewrite Hid.
      now apply apart_move_back.
  - intros _. apply preserves_bind; [apply preserves_save|].
    intros _. apply preserves_ret.
Qed.

Lemma preserves_claim job : preserves (claim job).
Proof.
  unfold claim.
  apply preserves_bind; [apply preserves_acquireLockWithRetry|].
  intros [|]; [|apply preserves_ret].
  apply preserves_tryCatch.
  2:{ intros _. apply preserves_bind; [apply preserves_releaseLock|].
      intros _. apply preserves_ret. }
  apply preserves_bind; [apply preserves_load|].
  intros _. apply preserves_getStore. intros w H.
  destruct (JsMap.get (id job) (jobs (store w))) as [cur|] eqn:G;
    [|exact H].
  destruct (State_eqb (state cur) pending); [|exact H].
  unfold bind at 1, getOs at 1.
  set (cur' := setUpdatedAt (clock (os w)) (setState processing cur)).
  assert (Hid : id cur' = id job).
  { destruct H as ((Ka & _) & _). exact (keyed_get _ _ _ Ka G). }
  assert (Hhas : JsMap.has (id job) (jobs (store w)) = true).
  { unfold JsMap.has. now rewrite G. }
  apply consistent_bind.
  - apply consistent_setJobs; [exact H|].
    destruct H as ((Ka & Kd & D) & _).
    rewrite <- Hid in Hhas |- *.
    repeat split; [do 2 apply keyed_set; exact Ka | exact Kd |].
    apply apart_set_known; [|now apply apart_set_known].
    rewrite has_set, String.eqb_refl. reflexivity.
  - intros _. apply preserves_bind; [apply preserves_save|].
    intros _. apply preserves_bind; [apply preserves_releaseLock|].
    intros _. apply preserves_ret.
Qed.

Lemma preserves_claimFirst l : preserves (claimFirst l).
Proof.
  induction l as [|job rest IH]; simpl; [apply preserves_ret|].
  apply preserves_bind; [apply preserves_claim|].
  intros [j|]; [apply preserves_ret | exact IH].
Qed.

Lemma preserves_getJobsByState {A} st (f : list Job -> M A) :
  (forall l, preserves (f l)) -> preserves (bind (getJobsByState st) f).
Proof.
  intros Hf. apply preserves_bind; [|exact Hf].
  unfold getJobsByState. apply preserves_getStore.
  intros w H. exact H.
Qed.

Lemma preserves_pendingLoop n : preserves (pendingLoop n).
Proof.
  induction n as [|n IH]; simpl; [apply preserves_ret|].
  apply preserves_bind; [apply preserves_load|]. intros _.
  apply preserves_getJobsByState. intros all.
  apply preserves_bind; [apply preserves_claimFirst|].
  intros [j|]; [apply preserves_ret|].
  destruct (sortByCreated all); [apply preserves_ret|].
  apply preserves_bind; [|intros _; exact IH].
  destruct n; [apply preserves_ret | apply preserves_sleep].
Qed.

Lemma preserves_getNextPendingJob : preserves getNextPendingJob.
Proof. apply preserves_pendingLoop. Qed.

Section WorkerOperations.
Variables (backoffBase : Z) (toISOString : Z -> string).

Lemma preserves_updateJob_tt job :
  preserves (bind (updateJob job) (fun _ => ret tt)).
Proof.
  apply preserves_bind; [apply preserves_updateJob|].
  intros _. apply preserves_ret.
Qed.

Lemma preserves_throw {A} (e : string) : preserves (@throw A e).
Proof. intros w H. exact H. Qed.

Lemma preserves_recover e job :
  preserves (recover backoffBase e job).
Proof.
  unfold recover. apply preserves_getOs. intros w H.
  destruct (_ <=? _)%N; [now apply preserves_moveToDLQ|].
  destruct (calculateNextRetry _ _ _);
    [now apply preserves_updateJob_tt | now apply preserves_throw].
Qed.

Lemma preserves_executeJob outcome job :
  preserves (executeJob backoffBase toISOString outcome job).
Proof.
  unfold executeJob. apply preserves_getOs. intros w H.
  assert (Hcall : forall (m : M unit) job',
             preserves m ->
             consistent (snd (tryCatch m
                                (fun e => recover backoffBase e job') w))).
  { intros m job' Hm. apply preserves_tryCatch;
      [exact Hm | intros e; apply preserves_recover | exact H]. }
  unfold attempt. destruct outcome as [| |message].
  - apply Hcall, preserves_updateJob_tt.
  - destruct (_ <=? _)%N; [apply Hcall, preserves_moveToDLQ|].
    destruct (calculateNextRetry _ _ _);
      [apply Hcall, preserves_updateJob_tt | now apply preserves_recover].
  - now apply preserves_recover.
Qed.

Lemma preserves_runJob outcome j :
  preserves (runJob backoffBase toISOString outcome j).
Proof.
  unfold runJob. apply preserves_getOs. intros w H.
  now apply preserves_executeJob.
Qed.

Lemma preserves_promoteAndRun outcome r :
  preserves (promoteAndRun backoffBase toISOString outcome r).
Proof.
  unfold promoteAndRun. apply preserves_getOs. intros w H.
  apply consistent_bind; [now apply preserves_updateJob|]. intros _.
  apply preserves_bind; [apply preserves_getNextPendingJob|].
  intros [p|]; [apply preserves_runJob | apply preserves_ret].
Qed.

Lemma preserves_processNextJob outcome :
  preserves (processNextJob backoffBase toISOString outcome).
Proof.
  unfold processNextJob.
  apply preserves_bind; [apply preserves_getNextPendingJob|].
  intros [j|]; [apply preserves_runJob|].
  apply preserves_bind.
  - unfold findReadyToRetry. apply preserves_getJobsByState.
    intros l. apply preserves_getOs. intros w H. exact H.
  - intros [r|]; [apply preserves_promoteAndRun | apply preserves_ret].
Qed.
End WorkerOperations.
End StoreOperations.

(** C4, as the code has it.  Dequeue, update (complete or fail), the move
    to the dead-letter table, the retry from it, deletion, and with them
    the execution of a job and a whole worker cycle, keep the invariant of
    the store, of which "no id is in both tables" is a part.  Enqueue keeps
    it when the id of the new job is not in the dead-letter table. *)
Theorem store_operations_keep_tables_apart (w : World) :
  consistent w ->
  (forall data,
      JsMap.has (id (submitted data w)) (dlq (store w)) = false ->
      consistent (snd (processJobData data w)))
  /\ consistent (snd (getNextPendingJob w))
  /\ (forall job, consistent (snd (updateJob job w)))
  /\ (forall job, consistent (snd (moveToDLQ job w)))
  /\ (forall jobId, consistent (snd (retryFromDLQ jobId w)))
  /\ (forall k, consistent (snd (deleteJob k w)))
  /\ (forall backoffBase toISOString outcome job,
         consistent
           (snd (executeJob backoffBase toISOString outcome job w)))
  /\ (forall backoffBase toISOString outcome,
         consistent (snd (processNextJob backoffBase toISOString outcome w)))
  /\ (forall k, JsMap.has k (jobs (store w)) = true ->
                JsMap.has k (dlq (store w)) = false).
Proof.
  intros H.
  refine (conj _ (conj _ (conj _ (conj _ (conj _
           (conj _ (conj _ (conj _ _)))))))).
  - intros data Hd. now apply preserves_processJobData.
  - now apply preserves_getNextPendingJob.
  - intros job. now apply preserves_updateJob.
  - intros job. now apply preserves_moveToDLQ.
  - intros jobId. now apply preserves_retryFromDLQ.
  - intros k. now apply preserves_deleteJob.
  - intros b t s job. now apply preserves_executeJob.
  - intros b t s. now apply preserves_processNextJob.
  - destruct H as ((_ & _ & D) & _). exact D.
Qed.

(** The invariant holds of a store just constructed on an empty data
    directory. *)
Lemma consistent_initial (o : Os) (h : bool) :
  jobs_file o = Absent -> dlq_file o = Absent ->
  consistent (mkWorld (mkStorage [] [] h) o []).
Proof.
  intros Hj Hd. split; [|split].
  - repeat split; try (intros k j []); intros k; discriminate.
  - unfold filesOk. simpl. now rewrite Hj, Hd.
  - constructor.
Qed.

Lemma consistent_deadOnly : consistent deadOnly.
Proof.
  assert (T : tablesOk [] [("job1", deadJob1)]).
  { repeat split.
    - intros k j [].
    - intros k j [[= <- <-]|[]]. reflexivity.
    - intros k. discriminate. }
  split; [exact T|]. split; [exact T|]. constructor.
Qed.

Lemma store_operations_keep_tables_apart_witness :
  consistent (snd (retryFromDLQ "job1" deadOnly)).
Proof.
  destruct (store_operations_keep_tables_apart deadOnly consistent_deadOnly)
    as (_ & _ & _ & _ & R & _).
  exact (R "job1").
Defined.

(** C4, as the specification words it, refuted for Enqueue.  With ["job1"]
    in the dead-letter table, enqueuing a job under the id ["job1"]
    succeeds and leaves that id in both tables. *)
Lemma enqueue_dead_id_in_both :
  let w' := snd (processJobData againData deadOnly) in
  consistent deadOnly
  /\ fst (processJobData againData deadOnly)
     = Ok (Enqueued (submitted againData deadOnly))
  /\ JsMap.has "job1" (jobs (store w')) = true
  /\ JsMap.has "job1" (dlq (store w')) = true
  /\ ~ consistent w'.
Proof.
  split; [exact consistent_deadOnly|].
  split; [reflexivity|]. split; [reflexivity|]. split; [reflexivity|].
  intros ((_ & _ & D) & _).
  specialize (D "job1" eq_refl). discriminate.
Qed.

(* ================================================================== *)
(** * A job that fails until its retries are used up *)
(* ================================================================== *)

Section FailingJob.
Variables (backoffBase : Z) (toISOString : Z -> string).
Variables (i : string) (m : N).
Hypothesis i_nonempty : i <> "".
Hypothesis m_positive : (1 <= m)%N.






(** *** Taking the free lock *)

Lemma acquire_free (s : Storage) (jf df : File) (o : Os) l :
  lockHandle s = false ->
  acquireLockWithRetry 3 50 (mkWorld s (quietOs jf df o) l)
  = (Ok true,
     mkWorld (mkStorage (jobs s) (dlq s) true)
             (withLock (Some (pid o)) (quietOs jf df o)) l).
Proof.
  intros H. simpl. unfold acquireLock. run_monad. now rewrite H.
Qed.

(** *** One failed run *)



(** *** The records a failed run leaves *)



End FailingJob.

(* ================================================================== *)
(** * One worker on an undisturbed store *)
(* ================================================================== *)

Section Undisturbed.
Import JsMapFacts.

(** *** Sound tables *)

Lemma sound_set (j : Job) (t : Table) :
  sound t -> id j <> "" -> sound (JsMap.set (id j) j t).
Proof.
  intros (K & N & E) Hj. repeat split.
  - now apply keyed_set.
  - now apply NoDup_keys_set.
  - intros H. apply In_keys_set in H as [H|H]; [congruence | tauto].
Qed.

Lemma sound_set_at (k : string) (j : Job) (t : Table) :
  sound t -> k <> "" -> id j = k -> sound (JsMap.set k j t).
Proof. intros S Hk <-. now apply sound_set. Qed.

Lemma sound_set_known (k : string) (j : Job) (t : Table) :
  sound t -> JsMap.has k t = true -> id j = k -> sound (JsMap.set k j t).
Proof.
  intros S Hk <-. apply sound_set; [exact S|].
  destruct S as (_ & _ & E). intros H. apply E.
  apply has_In_keys. now rewrite <- H.
Qed.

Lemma sound_delete (k : string) (t : Table) :
  sound t -> sound (JsMap.delete k t).
Proof.
  intros (K & N & E). repeat split.
  - now apply keyed_delete.
  - now apply NoDup_keys_delete.
  - intros H. apply E. now apply In_keys_delete in H.
Qed.

Lemma sound_objectOrder (t : Table) : sound t -> sound (objectOrder t).
Proof.
  intros (K & N & E). repeat split.
  - now apply keyed_objectOrder.
  - eapply Permutation_NoDup; [apply keys_objectOrder_perm | exact N].
  - intros H. apply E.
    eapply Permutation_in; [symmetry; apply keys_objectOrder_perm | exact H].
Qed.

Lemma sound_written (c f : Table) : sound c -> written c f -> sound f.
Proof. intros S [->| ->]; [exact S | now apply sound_objectOrder]. Qed.

Lemma get_written (c f : Table) k :
  written c f -> JsMap.get k f = JsMap.get k c.
Proof. intros [->| ->]; [reflexivity | apply get_objectOrder]. Qed.

Lemma has_written (c f : Table) k :
  written c f -> JsMap.has k f = JsMap.has k c.
Proof. intros W. unfold JsMap.has. now rewrite (get_written c f k W). Qed.

Lemma written_objectOrder (c : Table) : written c (objectOrder c).
Proof. now right. Qed.

Lemma written_refl (c : Table) : written c c.
Proof. now left. Qed.

(** A record found among the values sits under its id, which is not
    empty. *)
Lemma sound_value (t : Table) (v : Job) :
  sound t -> In v (JsMap.values t) ->
  JsMap.get (id v) t = Some v /\ id v <> "".
Proof.
  intros (K & N & E) Hv. apply In_values in Hv as (k & Hk).
  pose proof (K _ _ Hk) as Hid. subst k. split.
  - now apply In_get.
  - intros H. apply E. rewrite <- H. apply has_In_keys.
    now apply (In_has _ _ _ Hk).
Qed.

Lemma get_has (t : Table) k v : JsMap.get k t = Some v -> JsMap.has k t = true.
Proof. unfold JsMap.has. now intros ->. Qed.

(** *** The operations on a settled world *)

Lemma load_locked c cd f fd o h l :
  load (mkWorld (mkStorage c cd h) (withLock l (quietOs (Holds f) (Holds fd) o)) [])
  = (Ok tt,
     mkWorld (mkStorage f fd h) (withLock l (quietOs (Holds f) (Holds fd) o)) []).
Proof. reflexivity. Qed.

Lemma load_settled c cd f fd o :
  load (settledWorld c cd f fd o) = (Ok tt, settledWorld f fd f fd o).
Proof. reflexivity. Qed.

Lemma claim_settled c0 c cd f fd o :
  JsMap.get (id c0) f = Some c0 -> state c0 = pending ->
  let p := claimed (clock o) c0 in
  claim c0 (settledWorld c cd f fd o)
  = (Ok (Some p),
     settledWorld (JsMap.set (id c0) p f) fd
       (objectOrder (JsMap.set (id c0) p f)) (objectOrder fd) o).
Proof.
  intros G Hs p. unfold claim, settledWorld.
  unfold bind at 1. rewrite acquire_free by reflexivity.
  unfold tryCatch, bind at 1. simpl jobs. simpl dlq.
  rewrite load_locked.
  run_monad. rewrite G, Hs. simpl.
  fold p. change (id p) with (id c0). rewrite set_set.
  unfold save. run_monad. unfold releaseLock. run_monad.
  reflexivity.
Qed.

Lemma sortByCreated_In (l : list Job) (x : Job) :
  In x (sortByCreated l) -> In x l.
Proof.
  assert (Hins : forall j r, In x (insertByCreated j r) -> x = j \/ In x r).
  { intros j r. induction r as [|j' r IH]; simpl.
    - intros [H|[]]; now left.
    - destruct (created_at j <=? created_at j')%Z; simpl.
      + intros [H|H]; [now left | now right].
      + intros [H|H]; [right; now left|].
        destruct (IH H); [now left | right; now right]. }
  induction l as [|j r IH]; simpl; [tauto|].
  intros H. apply Hins in H as [H|H]; [now left | right; now apply IH].
Qed.

Lemma getNextPendingJob_settled c cd f fd o :
  sound f ->
  getNextPendingJob (settledWorld c cd f fd o)
  = match sortByCreated
            (filter (fun j => State_eqb (state j) pending)
                    (JsMap.values f)) with
    | [] => (Ok None, settledWorld f fd f fd o)
    | c0 :: _ =>
        let p := claimed (clock o) c0 in
        (Ok (Some p),
         settledWorld (JsMap.set (id c0) p f) fd
           (objectOrder (JsMap.set (id c0) p f)) (objectOrder fd) o)
    end.
Proof.
  intros S. unfold getNextPendingJob. simpl pendingLoop.
  unfold bind at 1. rewrite load_settled.
  unfold bind at 1, getJobsByState. run_monad.
  destruct (sortByCreated _) as [|c0 rest] eqn:E; [reflexivity|].
  assert (Hin : In c0 (filter (fun j => State_eqb (state j) pending)
                         (JsMap.values f))).
  { apply sortByCreated_In. rewrite E. now left. }
  apply filter_In in Hin as [Hv Hp].
  destruct (sound_value _ _ S Hv) as [G _].
  assert (Hs : state c0 = pending) by (now destruct (state c0)).
  simpl claimFirst. unfold bind at 1.
  fold (settledWorld f fd f fd o).
  rewrite (claim_settled c0 f fd f fd o G Hs). reflexivity.
Qed.

Lemma updateJob_settled job c cd f fd o :
  updateJob job (settledWorld c cd f fd o)
  = if JsMap.has (id job) f
    then (Ok true,
          settledWorld (JsMap.set (id job) job f) fd
            (objectOrder (JsMap.set (id job) job f)) (objectOrder fd) o)
    else (Ok false, settledWorld f fd f fd o).
Proof.
  unfold updateJob, bind at 1. rewrite load_settled.
  run_monad. now destruct (JsMap.has (id job) f).
Qed.

Lemma moveToDLQ_settled job c cd f fd o :
  let jd := setUpdatedAt (clock o) (setState dead job) in
  moveToDLQ job (settledWorld c cd f fd o)
  = (Ok tt,
     settledWorld (JsMap.delete (id job) c) (JsMap.set (id job) jd cd)
       (objectOrder (JsMap.delete (id job) c))
       (objectOrder (JsMap.set (id job) jd cd)) o).
Proof. reflexivity. Qed.

Lemma findReadyToRetry_settled c cd f fd o :
  findReadyToRetry (settledWorld c cd f fd o)
  = (Ok (find (eligible (clock o) (random o)) (JsMap.values c)),
     settledWorld c cd f fd o).
Proof. apply findReadyToRetry_eq. Qed.

Lemma dequeue_shape c cd f fd o :
  sound f ->
  getNextPendingJob (settledWorld c cd f fd o)
  = (Ok None, settledWorld f fd f fd o)
  \/ exists c0,
       JsMap.get (id c0) f = Some c0
       /\ state c0 = pending
       /\ id c0 <> ""
       /\ getNextPendingJob (settledWorld c cd f fd o)
          = (Ok (Some (claimed (clock o) c0)),
             settledWorld (JsMap.set (id c0) (claimed (clock o) c0) f) fd
               (objectOrder (JsMap.set (id c0) (claimed (clock o) c0) f))
               (objectOrder fd) o).
Proof.
  intros S. rewrite (getNextPendingJob_settled c cd f fd o S).
  destruct (sortByCreated _) as [|c0 rest] eqn:E; [now left|].
  right. exists c0.
  assert (Hin : In c0 (filter (fun j => State_eqb (state j) pending)
                         (JsMap.values f))).
  { apply sortByCreated_In. rewrite E. now left. }
  apply filter_In in Hin as [Hv Hp].
  destruct (sound_value _ _ S Hv) as [G Hne].
  repeat split; try assumption. now destruct (state c0).
Qed.

(** Left alone, the dequeue never keeps the lock: it ends in a settled
    world again. *)
Lemma getNextPendingJob_undisturbed w :
  settled w ->
  settled (snd (getNextPendingJob w))
  /\ lockHandle (store (snd (getNextPendingJob w))) = false
  /\ lock_file (os (snd (getNextPendingJob w))) = None.
Proof.
  intros (c & cd & f & fd & o & -> & Sc & Scd & Wc & Wcd).
  pose proof (sound_written _ _ Sc Wc) as Sf.
  pose proof (sound_written _ _ Scd Wcd) as Sfd.
  destruct (dequeue_shape c cd f fd o Sf) as [E|(c0 & G & Hs & Hne & E)];
    rewrite E; cbn [snd]; (split; [|split; reflexivity]).
  - exists f, fd, f, fd, o.
    repeat split; try apply Sf; try apply Sfd; apply written_refl.
  - eexists _, _, _, _, o. split; [reflexivity|].
    split; [apply sound_set_known;
            [exact Sf | now apply (get_has _ _ _ G) | reflexivity]|].
    split; [exact Sfd|].
    split; [apply written_objectOrder|]. apply written_objectOrder.
Qed.

Lemma promoted_id now rnd r : id r <> "" -> id (promoted now rnd r) = id r.
Proof.
  intros H. unfold promoted, fromJSON. simpl. unfold orString.
  apply String.eqb_neq in H. now rewrite H.
Qed.

Lemma fromJSON_id now rnd r : id r <> "" -> id (fromJSON now rnd r) = id r.
Proof. apply promoted_id. Qed.


Section Cycle.
Variables (backoffBase : Z) (toISOString : Z -> string).

Lemma processNextJob_selected outcome w :
  processNextJob backoffBase toISOString outcome w
  = bind selected
      (fun x =>
         match x with
         | Some p => runJob backoffBase toISOString outcome p
         | None => ret tt
         end) w.
Proof.
  unfold processNextJob, selected, promoteAndRun, bind, ret.
  destruct (getNextPendingJob w) as [[[j|]|e] w1]; try reflexivity.
  destruct (findReadyToRetry w1) as [[[r|]|e] w2]; try reflexivity.
  destruct (getOs w2) as [[o|e] w3]; try reflexivity.
  destruct (updateJob _ w3) as [[b|e] w4]; reflexivity.
Qed.

(** The loop of the worker goes on whatever the cycle raises. *)
Lemma startTurn_eq outcome w :
  startTurn backoffBase toISOString outcome w
  = (Ok tt, snd (processNextJob backoffBase toISOString outcome w)).
Proof.
  unfold startTurn, tryCatch, ret.
  now destruct (processNextJob _ _ _ w) as [[[]|e] w'].
Qed.

(** [updateJob] on a record of job [k], which is in the table. *)
Lemma stored_shape job k c1 cd1 f1 fd1 o :
  sound c1 -> sound cd1 -> written c1 f1 -> written cd1 fd1 ->
  id job = k -> JsMap.has k c1 = true ->
  exists c2 cd2,
    bind (updateJob job) (fun _ => ret tt) (settledWorld c1 cd1 f1 fd1 o)
    = (Ok tt, settledWorld c2 cd2 (objectOrder c2) (objectOrder cd2) o)
    /\ sound c2 /\ sound cd2
    /\ (forall k', k' <> k ->
          JsMap.get k' c2 = JsMap.get k' c1
          /\ JsMap.get k' cd2 = JsMap.get k' cd1)
    /\ JsMap.get k c2 = Some job
    /\ JsMap.get k cd2 = JsMap.get k cd1.
Proof.
  intros Sc Scd Wc Wcd Hj Hhas.
  pose proof (sound_written _ _ Sc Wc) as Sf.
  pose proof (sound_written _ _ Scd Wcd) as Sfd.
  assert (Hf : JsMap.has k f1 = true)
    by now rewrite (has_written c1 f1 k Wc).
  unfold bind at 1. rewrite updateJob_settled, Hj, Hf.
  exists (JsMap.set k job f1), fd1.
  split; [reflexivity|].
  split; [now apply sound_set_known|]. split; [exact Sfd|].
  split; [|split; [apply get_set_eq | apply (get_written cd1 fd1 k Wcd)]].
  intros k' Hk. rewrite get_set_ne by congruence.
  now rewrite (get_written c1 f1 k' Wc), (get_written cd1 fd1 k' Wcd).
Qed.

(** [moveToDLQ] on a record of job [k]. *)
Lemma buried_shape job k c1 cd1 f1 fd1 o :
  sound c1 -> sound cd1 -> id job = k -> k <> "" ->
  exists c2 cd2,
    moveToDLQ job (settledWorld c1 cd1 f1 fd1 o)
    = (Ok tt, settledWorld c2 cd2 (objectOrder c2) (objectOrder cd2) o)
    /\ sound c2 /\ sound cd2
    /\ (forall k', k' <> k ->
          JsMap.get k' c2 = JsMap.get k' c1
          /\ JsMap.get k' cd2 = JsMap.get k' cd1)
    /\ JsMap.get k c2 = None
    /\ JsMap.get k cd2 = Some (setUpdatedAt (clock o) (setState dead job)).
Proof.
  intros Sc Scd Hj Hk. rewrite moveToDLQ_settled. cbv zeta. rewrite Hj.
  eexists _, _. split; [reflexivity|].
  split; [now apply sound_delete|].
  split; [apply sound_set_at; [exact Scd | exact Hk | exact Hj]|].
  split; [|split; [|apply get_set_eq]].
  - intros k' Hk'. rewrite get_delete, get_set.
    apply String.eqb_neq in Hk'. now rewrite Hk'.
  - now rewrite get_delete, String.eqb_refl.
Qed.

(** The [catch] block on a settled world. *)
Lemma recover_shape e job k c1 cd1 f1 fd1 o :
  sound c1 -> sound cd1 -> written c1 f1 -> written cd1 fd1 ->
  id job = k -> k <> "" -> JsMap.has k c1 = true ->
  exists r c2 cd2 f2 fd2,
    recover backoffBase e job (settledWorld c1 cd1 f1 fd1 o)
    = (r, settledWorld c2 cd2 f2 fd2 o)
    /\ sound c2 /\ sound cd2 /\ written c2 f2 /\ written cd2 fd2
    /\ (forall k', k' <> k ->
          JsMap.get k' c2 = JsMap.get k' c1
          /\ JsMap.get k' cd2 = JsMap.get k' cd1)
    /\ runEnds k c1 cd1 f1 fd1 r c2 cd2 f2 fd2.
Proof.
  intros Sc Scd Wc Wcd Hj Hk Hhas.
  unfold recover, bind at 1, getOs at 1.
  change (clock (os (settledWorld c1 cd1 f1 fd1 o))) with (clock o).
  destruct (_ <=? _)%N.
  - match goal with
    | |- context [moveToDLQ ?j] =>
        destruct (buried_shape j k c1 cd1 f1 fd1 o Sc Scd Hj Hk)
          as (c2 & cd2 & E & S2 & Sd2 & Hfr & G1 & G2)
    end.
    rewrite E. exists (Ok tt), c2, cd2, (objectOrder c2), (objectOrder cd2).
    split; [reflexivity|]. split; [exact S2|]. split; [exact Sd2|].
    split; [apply written_objectOrder|].
    split; [apply written_objectOrder|]. split; [exact Hfr|].
    split; [reflexivity|]. split; [reflexivity|].
    right. split; [exact G1|]. eexists. split; [exact G2|]. reflexivity.
  - destruct (calculateNextRetry _ _ _) as [next|e'] eqn:E1.
    + match goal with
      | |- context [updateJob ?j] =>
          destruct (stored_shape j k c1 cd1 f1 fd1 o Sc Scd Wc Wcd Hj Hhas)
            as (c2 & cd2 & E & S2 & Sd2 & Hfr & G1 & G2)
      end.
      rewrite E.
      exists (Ok tt), c2, cd2, (objectOrder c2), (objectOrder cd2).
      split; [reflexivity|]. split; [exact S2|]. split; [exact Sd2|].
      split; [apply written_objectOrder|].
      split; [apply written_objectOrder|]. split; [exact Hfr|].
      split; [reflexivity|]. split; [reflexivity|].
      left. eexists. split; [exact G1|]. split; [exact G2|]. now right.
    + apply calculateNextRetry_Threw in E1 as [-> _].
      exists (Threw RangeError), c1, cd1, f1, fd1.
      split; [reflexivity|]. split; [exact Sc|]. split; [exact Scd|].
      split; [exact Wc|]. split; [exact Wcd|].
      split; [now split|]. now repeat split.
Qed.

(** What running the selected job does to a settled world. *)
Lemma runJob_shape outcome p c1 cd1 f1 fd1 o :
  sound c1 -> sound cd1 -> written c1 f1 -> written cd1 fd1 ->
  id p <> "" -> JsMap.has (id p) c1 = true ->
  let J := fromJSON (clock o) (random o) p in
  exists r c2 cd2 f2 fd2,
    runJob backoffBase toISOString outcome p
      (settledWorld c1 cd1 f1 fd1 o)
    = (r, settledWorld c2 cd2 f2 fd2 o)
    /\ sound c2 /\ sound cd2 /\ written c2 f2 /\ written cd2 fd2
    /\ (forall k, k <> id p ->
           JsMap.get k c2 = JsMap.get k c1
           /\ JsMap.get k cd2 = JsMap.get k cd1)
    /\ runEnds (id p) c1 cd1 f1 fd1 r c2 cd2 f2 fd2
    /\ match outcome with
       | Succeeded =>
           r = Ok tt
           /\ JsMap.get (id p) c2 = Some (completedRecord (clock o) J)
       | Failed =>
           if (max_retries J <=? attempts J + 1)%N
           then r = Ok tt
                /\ JsMap.get (id p) c2 = None
                /\ JsMap.get (id p) cd2
                   = Some (buriedRecord backoffBase toISOString (clock o) J)
           else inRange (clock o) backoffBase (attempts J + 1) ->
                r = Ok tt
                /\ JsMap.get (id p) c2
                   = Some (failedOnce backoffBase toISOString (clock o) J)
       | Rejected _ => True
       end.
Proof.
  intros Sc Scd Wc Wcd Hne Hhas J.
  assert (HJ : id J = id p) by now apply fromJSON_id.
  unfold runJob, bind at 1, getOs at 1.
  change (clock (os (settledWorld c1 cd1 f1 fd1 o))) with (clock o).
  change (random (os (settledWorld c1 cd1 f1 fd1 o))) with (random o).
  fold J. unfold executeJob, bind at 1, getOs at 1.
  change (clock (os (settledWorld c1 cd1 f1 fd1 o))) with (clock o).
  assert (Hrec : forall e job,
             id job = id p ->
             exists r c2 cd2 f2 fd2,
               recover backoffBase e job (settledWorld c1 cd1 f1 fd1 o)
               = (r, settledWorld c2 cd2 f2 fd2 o)
               /\ sound c2 /\ sound cd2
               /\ written c2 f2 /\ written cd2 fd2
               /\ (forall k, k <> id p ->
                      JsMap.get k c2 = JsMap.get k c1
                      /\ JsMap.get k cd2 = JsMap.get k cd1)
               /\ runEnds (id p) c1 cd1 f1 fd1 r c2 cd2 f2 fd2).
  { intros e job Hj.
    exact (recover_shape e job (id p) c1 cd1 f1 fd1 o Sc Scd Wc Wcd Hj
             Hne Hhas). }
  unfold buriedRecord, failedOnce, completedRecord, attempt.
  destruct outcome as [| |message].
  - destruct (stored_shape
                (setError None
                   (setUpdatedAt (clock o) (setState completed J)))
                (id p) c1 cd1 f1 fd1 o Sc Scd Wc Wcd HJ Hhas)
      as (c2 & cd2 & E & S2 & Sd2 & Hfr & G1 & G2).
    unfold tryCatch. rewrite E.
    exists (Ok tt), c2, cd2, (objectOrder c2), (objectOrder cd2).
    split; [reflexivity|]. split; [exact S2|]. split; [exact Sd2|].
    split; [apply written_objectOrder|].
    split; [apply written_objectOrder|]. split; [exact Hfr|].
    split; [|now split].
    split; [reflexivity|]. split; [reflexivity|].
    left. eexists. split; [exact G1|]. split; [exact G2|]. now left.
  - cbn [max_retries attempts setUpdatedAt setAttempts].
    destruct (max_retries J <=? attempts J + 1)%N.
    + match goal with
      | |- context [moveToDLQ ?x] =>
          destruct (buried_shape x (id p) c1 cd1 f1 fd1 o Sc Scd HJ Hne)
            as (c2 & cd2 & E & S2 & Sd2 & Hfr & G1 & G2)
      end.
      unfold tryCatch. rewrite E.
      exists (Ok tt), c2, cd2, (objectOrder c2), (objectOrder cd2).
      split; [reflexivity|]. split; [exact S2|]. split; [exact Sd2|].
      split; [apply written_objectOrder|].
      split; [apply written_objectOrder|]. split; [exact Hfr|].
      split; [|now repeat split].
      split; [reflexivity|]. split; [reflexivity|].
      right. split; [exact G1|]. eexists. split; [exact G2|]. reflexivity.
    + destruct (calculateNextRetry _ _ _) as [next|e] eqn:E1.
      * match goal with
        | |- context [tryCatch (bind (updateJob ?x) _)] =>
            destruct (stored_shape x (id p) c1 cd1 f1 fd1 o Sc Scd Wc Wcd
                        HJ Hhas)
              as (c2 & cd2 & E & S2 & Sd2 & Hfr & G1 & G2)
        end.
        unfold tryCatch. rewrite E.
        exists (Ok tt), c2, cd2, (objectOrder c2), (objectOrder cd2).
        split; [reflexivity|]. split; [exact S2|]. split; [exact Sd2|].
        split; [apply written_objectOrder|].
        split; [apply written_objectOrder|]. split; [exact Hfr|].
        split; [|intros _; now split].
        split; [reflexivity|]. split; [reflexivity|].
        left. eexists. split; [exact G1|]. split; [exact G2|]. now right.
      * apply calculateNextRetry_Threw in E1 as [-> R1].
        cbn [attempts setUpdatedAt setAttempts] in R1.
        destruct (Hrec RangeError
                    (setUpdatedAt (clock o)
                       (setAttempts (attempts J + 1) J)) HJ)
          as (r & c2 & cd2 & f2 & fd2 & E & H).
        exists r, c2, cd2, f2, fd2. split; [exact E|].
        destruct H as (H1 & H2 & H3 & H4 & H5 & H6).
        refine (conj H1 (conj H2 (conj H3 (conj H4 (conj H5
                  (conj H6 _)))))).
        intros R. now destruct (R1 R).
  - destruct (Hrec message J HJ) as (r & c2 & cd2 & f2 & fd2 & E & H).
    exists r, c2, cd2, f2, fd2. split; [exact E|].
    destruct H as (H1 & H2 & H3 & H4 & H5 & H6).
    exact (conj H1 (conj H2 (conj H3 (conj H4 (conj H5 (conj H6 I)))))).
Qed.

(** *** Following one job through a cycle *)

Variables (i : string) (m : N).
Hypothesis i_nonempty : i <> "".
Hypothesis m_positive : (1 <= m)%N.


(** *** Following it through a run *)

Lemma atTime_settled t w :
  settled w ->
  atTime t w = (Ok tt, snd (atTime t w))
  /\ settled (snd (atTime t w))
  /\ store (snd (atTime t w)) = store w
  /\ clock (os (snd (atTime t w))) = t.
Proof.
  intros (c & cd & f & fd & o & -> & H).
  split; [reflexivity|]. split; [|split; reflexivity].
  now exists c, cd, f, fd, (withClock t o).
Qed.








End Cycle.
End Undisturbed.

Lemma max_retries_positive now rnd data :
  (1 <= max_retries (newJob now rnd data))%N.
Proof.
  simpl. unfold orNumber. destruct (d_max_retries data) as [n|]; [|lia].
  destruct (N.eqb_spec n 0); lia.
Qed.

Lemma id_nonempty now rnd data : id (newJob now rnd data) <> "".
Proof. simpl. apply orString_nonempty, generateId_nonempty. Qed.

(** The worlds one worker passes through are calm: a store just built on
    an empty directory is, and so is every settled world. *)
Lemma calm_initial (o : Os) :
  lock_file o = None -> writable o = true ->
  calm (mkWorld (mkStorage [] [] false) o []).
Proof.
  intros Hl Hw.
  assert (S : sound []).
  { split; [intros k j []|]. split; [constructor | intros []]. }
  unfold calm. simpl. tauto.
Qed.

Lemma settled_calm (w : World) : settled w -> calm w.
Proof.
  intros (c & cd & f & fd & o & -> & Sc & Scd & _).
  unfold calm. simpl. tauto.
Qed.






(* ================================================================== *)
(** * Further properties: the job record *)
(* ================================================================== *)

Import Scenarios.

Lemma orNull_canonical (x : option string) : orNull x <> Some "".
Proof.
  destruct x as [s|]; simpl; [|discriminate].
  destruct (String.eqb s "") eqn:E; [discriminate|].
  intros [= H]. subst s. discriminate.
Qed.

Lemma orNull_fixed (x : option string) : x <> Some "" -> orNull x = x.
Proof.
  destruct x as [s|]; simpl; [|reflexivity].
  intros H. destruct (String.eqb s "") eqn:E; [|reflexivity].
  apply String.eqb_eq in E. subst s. now elim H.
Qed.

Lemma orString_fixed (s d : string) : s <> "" -> orString (Some s) d = s.
Proof.
  intros H. simpl. destruct (String.eqb s "") eqn:E; [|reflexivity].
  apply String.eqb_eq in E. contradiction.
Qed.

Lemma orNumber_fixed (n d : N) : n <> 0%N -> orNumber (Some n) d = n.
Proof.
  intros H. simpl. destruct (N.eqb n 0) eqn:E; [|reflexivity].
  apply N.eqb_eq in E. contradiction.
Qed.

Lemma canonical_newJob now rnd data : canonical (newJob now rnd data).
Proof.
  split; [apply id_nonempty|]. split.
  - pose proof (max_retries_positive now rnd data). lia.
  - apply orNull_canonical.
Qed.

Lemma fromJSON_canonical now rnd j : canonical j -> fromJSON now rnd j = j.
Proof.
  intros (Hi & Hm & He). destruct j as [i c s a m ca ua e nx].
  simpl in Hi, Hm, He. unfold fromJSON, newJob, toJSON.
  cbn [d_id d_command d_state d_attempts d_max_retries d_created_at
       d_updated_at d_error d_next_retry_at id command state attempts
       max_retries created_at updated_at error next_retry_at orElse].
  now rewrite orString_fixed, orNumber_zero, orNumber_fixed, orNull_fixed.
Qed.

(** X1.  [Job.fromJSON] gives back the record it is given exactly when the
    record has a non-empty id, a non-zero [max_retries] and an [error]
    that is not the empty string; every job made by the constructor is
    such a record, so serialising it with [toJSON] and reading it back
    gives the same job, whatever the clock and the random generator say
    by then. *)
Theorem fromJSON_fixed_point :
  (forall now rnd j, fromJSON now rnd j = j <-> canonical j)
  /\ (forall now rnd data now' rnd',
        fromJSON now' rnd' (newJob now rnd data) = newJob now rnd data).
Proof.
  split.
  - intros now rnd j. split; [|apply fromJSON_canonical].
    intros E. rewrite <- E. apply canonical_newJob.
  - intros now rnd data now' rnd'.
    apply fromJSON_canonical, canonical_newJob.
Qed.

(** X2.  With a back-off base of at least 1 the delay before a retry is
    at least one second and never shrinks as the attempts of a job grow:
    when the date of the retry can be told for a job, it can be told for
    every job with fewer attempts, and is no later for it; one more
    attempt multiplies the delay by the base. *)
Theorem backoff_grows (now base : Z) (j j' : Job) (next' : Z) :
  (1 <= base)%Z ->
  (attempts j <= attempts j')%N ->
  validTime now = true ->
  calculateNextRetry now base j' = Ok next' ->
  exists d d' next,
    retryDelay base j = Some d
    /\ retryDelay base j' = Some d'
    /\ calculateNextRetry now base j = Ok next
    /\ (1 <= d <= d')%Z
    /\ (now + 1000 <= next <= next')%Z
    /\ (forall d1,
          retryDelay base (setAttempts (attempts j + 1) j) = Some d1 ->
          d1 = (base * d)%Z).
Proof.
  intros Hb Ha Hn E'.
  apply calculateNextRetry_Ok in E' as [R' ->].
  assert (H1 : (1 <= base ^ Z.of_N (attempts j))%Z).
  { apply Z.lt_pred_le. apply Z.pow_pos_nonneg; lia. }
  assert (H2 : (base ^ Z.of_N (attempts j)
                <= base ^ Z.of_N (attempts j'))%Z).
  { apply Z.pow_le_mono_r; lia. }
  assert (R : inRange now base (attempts j)).
  { destruct R' as [Rd Rt]. unfold validTime in Hn.
    apply Z.leb_le in Hn. unfold inRange, maxTime in *.
    change (2 ^ 53)%Z with 9007199254740992%Z in *.
    set (d := (base ^ Z.of_N (attempts j))%Z) in *.
    set (d' := (base ^ Z.of_N (attempts j'))%Z) in *.
    split; lia. }
  destruct (calculateNextRetry_inRange now base j R) as [Ed En].
  destruct (calculateNextRetry_inRange now base j' R') as [Ed' _].
  exists (base ^ Z.of_N (attempts j))%Z, (base ^ Z.of_N (attempts j'))%Z,
    (now + 1000 * base ^ Z.of_N (attempts j))%Z.
  split; [exact Ed|]. split; [exact Ed'|]. split; [exact En|].
  split; [lia|]. split; [lia|].
  intros d1. unfold retryDelay. cbv zeta. cbn [attempts setAttempts].
  destruct (_ <? _)%Z; [|discriminate]. intros [= <-].
  rewrite N2Z.inj_add, Z.pow_add_r by lia. change (Z.of_N 1) with 1%Z.
  rewrite Z.pow_1_r. apply Z.mul_comm.
Qed.

Lemma backoff_grows_witness :
  exists d d' next,
    retryDelay 2 Examples.jobA = Some d
    /\ retryDelay 2 lastTry = Some d'
    /\ calculateNextRetry 0 2 Examples.jobA = Ok next
    /\ (1 <= d <= d')%Z
    /\ (0 + 1000 <= next <= 4000)%Z.
Proof.
  destruct (backoff_grows 0 2 Examples.jobA lastTry 4000)
    as (d & d' & next & H1 & H2 & H3 & H4 & H5 & _);
    [lia | vm_compute; discriminate | reflexivity | reflexivity |].
  exists d, d', next. repeat split; assumption || apply H4 || apply H5.
Defined.

(** X3.  A failed job that is ready to be retried stays ready as time
    passes: the test [canRetry() && shouldRetryNow()] of the worker,
    once true at some time, is true at every later time (for an unchanged
    record), whatever id the random generator would propose. *)
Theorem retry_stays_due (now later : Z) (rnd rnd' : string) (j : Job) :
  (now <= later)%Z ->
  eligible now rnd j = true ->
  eligible later rnd' j = true.
Proof.
  intros Hl. rewrite !eligible_eq. unfold shouldRetryNow.
  destruct (State_eqb (state j) failed); [|discriminate].
  destruct (attempts j <? _)%N; [|discriminate]. simpl.
  destruct (next_retry_at j) as [t|]; [|reflexivity].
  intros H. apply Z.leb_le in H. apply Z.leb_le. lia.
Qed.

Lemma retry_stays_due_witness :
  eligible 7000 "x" Examples.jobA = true.
Proof.
  apply (retry_stays_due 6000 7000 "y" "x" Examples.jobA);
    [lia | reflexivity].
Defined.

(* ================================================================== *)
(** * Further properties: the lock *)
(* ================================================================== *)

Lemma withClock_withClock t t' o : withClock t (withClock t' o) = withClock t o.
Proof. reflexivity. Qed.

Lemma acquireLock_held s o l holder :
  lockHandle s = false ->
  lock_file o = Some holder ->
  existsb (N.eqb holder) (live o) = true ->
  acquireLock (mkWorld s o l) = (Ok false, mkWorld s o l).
Proof.
  intros Hh Hl Hv. unfold acquireLock. run_monad.
  rewrite Hh. cbn [os]. now rewrite Hl, Hv.
Qed.

Lemma acquireLockWithRetry_held n delay s l holder :
  lockHandle s = false ->
  forall o,
    lock_file o = Some holder ->
    existsb (N.eqb holder) (live o) = true ->
    acquireLockWithRetry n delay (mkWorld s o l)
    = (Ok false,
       mkWorld s (withClock (clock o + Z.of_nat n * delay) o) l).
Proof.
  intros Hh. induction n as [|n IH]; intros o Hl Hv.
  - simpl. unfold ret. f_equal. f_equal. destruct o; simpl.
    now rewrite Z.add_0_r.
  - replace (Z.of_nat (S n) * delay)%Z
      with (delay + Z.of_nat n * delay)%Z by lia.
    rewrite Z.add_assoc.
    cbn [acquireLockWithRetry]. unfold bind at 1.
    rewrite (acquireLock_held s o l holder Hh Hl Hv).
    unfold bind at 1, sleep, bind, getOs, putOs. cbn [os store others].
    now rewrite (IH (withClock (clock o + delay) o) Hl Hv).
Qed.

(** X4.  A lock file that names a running process is respected:
    [acquireLock] returns [false] and changes nothing, and
    [acquireLockWithRetry(n, delay)] gives up with [false] after sleeping
    [n] times [delay] milliseconds, the lock file, the tables and the
    files being as before. *)
Theorem lock_of_running_process_is_respected
    (n : nat) (delay : Z) (w : World) (holder : N) :
  lockHandle (store w) = false ->
  lock_file (os w) = Some holder ->
  existsb (N.eqb holder) (live (os w)) = true ->
  acquireLock w = (Ok false, w)
  /\ acquireLockWithRetry n delay w
     = (Ok false,
        mkWorld (store w)
          (withClock (clock (os w) + Z.of_nat n * delay) (os w))
          (others w)).
Proof.
  destruct w as [s o l]. cbn [store os others]. intros Hh Hl Hv. split.
  - now apply (acquireLock_held s o l holder).
  - now apply (acquireLockWithRetry_held n delay s l holder).
Qed.

Lemma lock_of_running_process_is_respected_witness :
  acquireLockWithRetry 3 50 heldByOther
  = (Ok false,
     mkWorld (store heldByOther)
       (withClock (clock (os heldByOther) + Z.of_nat 3 * 50)
          (os heldByOther))
       (others heldByOther)).
Proof.
  apply (lock_of_running_process_is_respected 3 50 heldByOther 200);
    reflexivity.
Defined.

(** X5.  A lock file left by a process that no longer runs does not
    block: [acquireLock] replaces it by a lock file with the caller's pid
    and returns [true]; when the directory cannot be written it returns
    [false] and leaves everything as it was. *)
Theorem stale_lock_is_taken_over (w : World) (holder : N) :
  lockHandle (store w) = false ->
  lock_file (os w) = Some holder ->
  existsb (N.eqb holder) (live (os w)) = false ->
  acquireLock w
  = if writable (os w)
    then (Ok true,
          mkWorld (mkStorage (jobs (store w)) (dlq (store w)) true)
            (withLock (Some (pid (os w))) (os w)) (others w))
    else (Ok false, w).
Proof.
  destruct w as [s o l]. cbn [store os others]. intros Hh Hl Hv.
  unfold acquireLock. run_monad. rewrite Hh. cbn [os]. rewrite Hl, Hv.
  destruct (writable o); reflexivity.
Qed.

Lemma stale_lock_is_taken_over_witness :
  fst (acquireLock staleLock) = Ok true
  /\ lock_file (os (snd (acquireLock staleLock))) = Some 100%N.
Proof.
  rewrite (stale_lock_is_taken_over staleLock 300);
    [split; reflexivity | reflexivity | reflexivity | reflexivity].
Defined.

(** X6.  Taking the free lock and releasing it is a round trip: on a
    writable directory [acquireLock] returns [true] with the lock file
    holding the caller's pid, and the [releaseLock] that follows puts the
    process and the directory back exactly as they were. *)
Theorem acquire_then_release (w : World) :
  lockHandle (store w) = false ->
  lock_file (os w) = None ->
  writable (os w) = true ->
  fst (acquireLock w) = Ok true
  /\ lock_file (os (snd (acquireLock w))) = Some (pid (os w))
  /\ lockHandle (store (snd (acquireLock w))) = true
  /\ bind acquireLock (fun _ => releaseLock) w = (Ok tt, w).
Proof.
  destruct w as [[c cd h] [jf df lf wr lv p t r] l].
  cbn [store os others lockHandle lock_file writable].
  intros -> -> ->.
  unfold acquireLock, releaseLock. run_monad.
  repeat split; reflexivity.
Qed.

Lemma acquire_then_release_witness :
  bind acquireLock (fun _ => releaseLock) Examples.freshWorld
  = (Ok tt, Examples.freshWorld).
Proof.
  apply (acquire_then_release Examples.freshWorld); reflexivity.
Defined.

(* ================================================================== *)
(** * Further properties: the tables *)
(* ================================================================== *)

Lemma delete_set_absent (k : string) (v : Job) (t : Table) :
  JsMap.has k t = false -> JsMap.delete k (JsMap.set k v t) = t.
Proof.
  unfold JsMap.has, JsMap.delete.
  induction t as [|[k' v'] r IH]; simpl.
  - now rewrite String.eqb_refl.
  - destruct (String.eqb k k') eqn:E; [discriminate|].
    intros H. simpl. rewrite E. simpl. now rewrite IH.
Qed.

(** X7.  [deleteJob]: for an id that is not in the active table it
    returns [false] and changes nothing, in memory or on disk; for an id
    that is there, the record is removed, every other record and the
    dead-letter table stay, and the tables are written out (or the write
    error is raised, the files being untouched). *)
Theorem deleteJob_spec (k : string) (w : World) :
  if JsMap.has k (jobs (store w))
  then
    let w' := snd (deleteJob k w) in
    JsMap.get k (jobs (store w')) = None
    /\ (forall k', k' <> k ->
          JsMap.get k' (jobs (store w')) = JsMap.get k' (jobs (store w)))
    /\ dlq (store w') = dlq (store w)
    /\ (if writable (os w)
        then fst (deleteJob k w) = Ok true /\ persisted w'
        else fst (deleteJob k w) = Threw EACCES /\ os w' = os w)
  else deleteJob k w = (Ok false, w).
Proof.
  destruct w as [[c cd h] o l]. cbn [store jobs].
  unfold deleteJob. run_monad.
  destruct (JsMap.has k c) eqn:H; [|reflexivity].
  unfold save. run_monad.
  destruct (writable o) eqn:W; cbn [snd fst store jobs dlq os].
  - split.
    { rewrite JsMapFacts.get_delete. now rewrite String.eqb_refl. }
    split.
    { intros k' Hk. rewrite JsMapFacts.get_delete.
      apply String.eqb_neq in Hk. now rewrite Hk. }
    split; [reflexivity|]. split; [reflexivity|]. now split.
  - split.
    { rewrite JsMapFacts.get_delete. now rewrite String.eqb_refl. }
    split.
    { intros k' Hk. rewrite JsMapFacts.get_delete.
      apply String.eqb_neq in Hk. now rewrite Hk. }
    split; [reflexivity|]. now split.
Qed.

(** X8.  Adding a job under an id the active table does not hold and
    deleting that id again is a round trip for the tables in memory: the
    table is what it was, and [deleteJob] reports [true]. *)
Theorem add_then_delete (job : Job) (w : World) :
  JsMap.has (id job) (jobs (store w)) = false ->
  writable (os w) = true ->
  let w' := snd (bind (addJob job) (fun _ => deleteJob (id job)) w) in
  fst (bind (addJob job) (fun _ => deleteJob (id job)) w) = Ok true
  /\ store w' = store w
  /\ persisted w'.
Proof.
  destruct w as [[c cd h] [jf df lf wr lv p t r] l].
  cbn [store jobs os writable]. intros Hn ->.
  unfold addJob, deleteJob, save. run_monad.
  rewrite JsMapFacts.has_set, String.eqb_refl.
  cbn [orb fst snd store os writable withTables jobs dlq lockHandle others].
  rewrite (delete_set_absent _ _ _ Hn). unfold persisted.
  repeat split.
Qed.

Lemma add_then_delete_witness :
  store (snd (bind (addJob Examples.job1)
                (fun _ => deleteJob (id Examples.job1)) Examples.freshWorld))
  = store Examples.freshWorld.
Proof.
  apply (add_then_delete Examples.job1 Examples.freshWorld); reflexivity.
Defined.

(** X9.  Burying a job and reviving it: after [moveToDLQ(job)] and
    [retryFromDLQ(job.id)] on a writable directory the job is in the
    active table only, pending, with no attempts counted; its command, its
    [max_retries], its creation time and also its last [error] and
    [next_retry_at] are those of the job buried. *)
Theorem bury_then_revive (job : Job) (w : World) :
  writable (os w) = true ->
  let now := clock (os w) in
  let back := revived now (setUpdatedAt now (setState dead job)) in
  let w' := snd (bind (moveToDLQ job) (fun _ => retryFromDLQ (id job)) w) in
  fst (bind (moveToDLQ job) (fun _ => retryFromDLQ (id job)) w)
  = Ok (Some back)
  /\ JsMap.get (id job) (jobs (store w')) = Some back
  /\ JsMap.has (id job) (dlq (store w')) = false
  /\ persisted w'
  /\ back = mkJob (id job) (command job) pending 0 (max_retries job)
              (created_at job) now (error job) (next_retry_at job).
Proof.
  intros Hw now back w'. subst w' back now.
  destruct w as [[c cd h] [jf df lf wr lv p t r] l].
  cbn [os writable] in Hw. subst wr.
  unfold moveToDLQ, retryFromDLQ, save, revived. run_monad.
  rewrite JsMapFacts.get_set_eq.
  cbn [orb fst snd store os writable withTables jobs dlq lockHandle others
       clock].
  change (id (setUpdatedAt t (setState dead job))) with (id job).
  split; [reflexivity|].
  split; [apply JsMapFacts.get_set_eq|].
  split.
  { rewrite JsMapFacts.has_delete. now rewrite String.eqb_refl. }
  split; [now split | reflexivity].
Qed.

Lemma bury_then_revive_witness :
  JsMap.has "job1"
    (dlq (store (snd (bind (moveToDLQ lastTry)
                        (fun _ => retryFromDLQ (id lastTry))
                        Examples.freshWorld))))
  = false.
Proof.
  apply (bury_then_revive lastTry Examples.freshWorld). reflexivity.
Defined.

Lemma fold_countState (l : list Job) :
  forall a b c d e,
    fold_left (fun stats job => countState (state job) stats) l
      (mkStats a b c d e)
    = mkStats
        (a + List.length (filter (fun j => State_eqb (state j) pending) l))
        (b + List.length (filter (fun j => State_eqb (state j) processing) l))
        (c + List.length (filter (fun j => State_eqb (state j) completed) l))
        (d + List.length (filter (fun j => State_eqb (state j) failed) l))
        (e + List.length (filter (fun j => State_eqb (state j) dead) l)).
Proof.
  induction l as [|j r IH]; intros a b c d e; simpl.
  - now rewrite !Nat.add_0_r.
  - destruct (state j); cbn [countState s_pending s_processing s_completed
                             s_failed s_dead State_eqb List.length];
      rewrite IH; f_equal; lia.
Qed.

Lemma count_states (l : list Job) :
  (List.length (filter (fun j => State_eqb (state j) pending) l)
   + List.length (filter (fun j => State_eqb (state j) processing) l)
   + List.length (filter (fun j => State_eqb (state j) completed) l)
   + List.length (filter (fun j => State_eqb (state j) failed) l)
   + List.length (filter (fun j => State_eqb (state j) dead) l)
   = List.length l)%nat.
Proof.
  induction l as [|j r IH]; simpl; [reflexivity|].
  destruct (state j); simpl; lia.
Qed.

(** X10.  [getStats] changes nothing and counts every record once: the
    figures for pending, processing, completed and failed are the
    lengths of the lists [getJobsByState] gives for these states; the
    figure for dead is the size of the dead-letter table plus the number
    of records of the active table whose state is dead; the five figures
    add up to the sizes of the two tables. *)
Theorem getStats_counts (w : World) :
  let active := jobs (store w) in
  let stats :=
    mkStats (countOf pending active) (countOf processing active)
            (countOf completed active) (countOf failed active)
            (JsMap.size (dlq (store w)) + countOf dead active) in
  getStats w = (Ok stats, w)
  /\ (forall st,
        exists l, getJobsByState st w = (Ok l, w)
                  /\ List.length l = countOf st active)
  /\ (s_pending stats + s_processing stats + s_completed stats
      + s_failed stats + s_dead stats
      = JsMap.size active + JsMap.size (dlq (store w)))%nat.
Proof.
  intros active stats. subst active stats. split; [|split].
  - unfold getStats, getAllJobs. run_monad. rewrite fold_countState.
    reflexivity.
  - intros st. eexists. split; [reflexivity|]. reflexivity.
  - cbn [s_pending s_processing s_completed s_failed s_dead].
    unfold countOf.
    pose proof (count_states (JsMap.values (jobs (store w)))) as H.
    unfold JsMap.values in H at 6. rewrite length_map in H.
    unfold JsMap.size. lia.
Qed.

(* ================================================================== *)
(** * Further properties: the [dlq retry] action *)
(* ================================================================== *)

(** X11.  The action of [dlq retry] never returns normally.  For an id
    that is not in the dead-letter table it exits with code 1 and changes
    nothing.  For an id that is there the job is moved back to the active
    table (pending, no attempts counted) and the tables are written, and
    then the action raises: what [retryFromDLQ] returns has no method
    [toJSON]. *)
Theorem dlq_retry_never_returns (jobId : string) (w : World) :
  fst (dlqRetry jobId w) <> Ok Returned
  /\ match JsMap.get jobId (dlq (store w)) with
     | None => dlqRetry jobId w = (Ok ExitOne, w)
     | Some job =>
         let back := revived (clock (os w)) job in
         let w' := snd (dlqRetry jobId w) in
         JsMap.get (id job) (jobs (store w')) = Some back
         /\ JsMap.get jobId (dlq (store w')) = None
         /\ (if writable (os w)
             then fst (dlqRetry jobId w) = Threw notAFunction
                  /\ persisted w'
             else fst (dlqRetry jobId w) = Threw EACCES
                  /\ os w' = os w)
     end.
Proof.
  destruct w as [[c cd h] o l]. cbn [store os dlq].
  unfold dlqRetry, retryFromDLQ, save, revived. run_monad.
  destruct (JsMap.get jobId cd) as [job|] eqn:G; run_monad.
  - destruct (writable o) eqn:W; cbn [fst snd store os jobs dlq].
    + split; [discriminate|].
      split; [apply JsMapFacts.get_set_eq|].
      split.
      { rewrite JsMapFacts.get_delete. now rewrite String.eqb_refl. }
      split; [reflexivity|]. now split.
    + split; [discriminate|].
      split; [apply JsMapFacts.get_set_eq|].
      split.
      { rewrite JsMapFacts.get_delete. now rewrite String.eqb_refl. }
      now split.
  - split; [discriminate | reflexivity].
Qed.

(* ================================================================== *)
(** * Further properties: dequeuing on an undisturbed store *)
(* ================================================================== *)

Section Dequeue.
Import JsMapFacts.

Lemma State_eqb_eq (a b : State) : State_eqb a b = true <-> a = b.
Proof. destruct a, b; simpl; split; congruence. Qed.

Lemma insertByCreated_cons (j : Job) (l : list Job) :
  exists x r, insertByCreated j l = x :: r.
Proof.
  destruct l as [|j' r]; simpl; [now eexists _, _|].
  destruct (created_at j <=? created_at j')%Z; now eexists _, _.
Qed.

Lemma sortByCreated_nil (l : list Job) : sortByCreated l = [] -> l = [].
Proof.
  destruct l as [|j r]; [reflexivity|]. simpl.
  destruct (insertByCreated_cons j (sortByCreated r)) as (x & r' & E).
  rewrite E. discriminate.
Qed.

(** The first job of the sorted list is an oldest one. *)
Lemma sortByCreated_head (l : list Job) :
  forall c0 r,
    sortByCreated l = c0 :: r ->
    Forall (fun j => (created_at c0 <= created_at j)%Z) l.
Proof.
  induction l as [|a l IH]; intros c0 r E; [constructor|].
  simpl in E. destruct (sortByCreated l) as [|c1 r1] eqn:E1.
  - apply sortByCreated_nil in E1. subst l. simpl in E.
    injection E as <- <-. constructor; [lia | constructor].
  - specialize (IH c1 r1 eq_refl). simpl in E.
    destruct (created_at a <=? created_at c1)%Z eqn:L.
    + injection E as <- <-. apply Z.leb_le in L.
      constructor; [lia|].
      eapply Forall_impl; [|exact IH]. simpl. intros; lia.
    + injection E as <- <-. apply Z.leb_gt in L.
      constructor; [lia | exact IH].
Qed.

Lemma pendingOf_In (t : Table) (k : string) (j : Job) :
  JsMap.get k t = Some j -> state j = pending -> In j (pendingOf t).
Proof.
  intros G Hs. apply filter_In. split.
  - apply get_In in G. now apply (in_map snd) in G.
  - now rewrite Hs.
Qed.

Lemma In_pendingOf (t : Table) (j : Job) :
  sound t -> In j (pendingOf t) ->
  JsMap.get (id j) t = Some j /\ state j = pending /\ id j <> "".
Proof.
  intros S H. apply filter_In in H as [Hv Hp].
  destruct (sound_value t j S Hv) as [G Hne].
  split; [exact G|]. split; [now apply State_eqb_eq | exact Hne].
Qed.

(** X12.  On an undisturbed store [getNextPendingJob] hands out an oldest
    pending job: the record returned is a pending record of the table,
    no pending record was created before it, and it is stored (in memory
    and on disk) in state processing with the time of the claim, every
    other record being left as it is; the call returns [null] only when
    no record is pending. *)
Theorem dequeue_takes_oldest_pending (w : World) :
  settled w ->
  let active := jobs (store w) in
  let w' := snd (getNextPendingJob w) in
  match fst (getNextPendingJob w) with
  | Ok (Some p) =>
      exists c0,
        JsMap.get (id p) active = Some c0
        /\ state c0 = pending
        /\ p = claimed (clock (os w)) c0
        /\ (forall k j,
              JsMap.get k active = Some j -> state j = pending ->
              (created_at c0 <= created_at j)%Z)
        /\ JsMap.get (id p) (jobs (store w')) = Some p
        /\ (forall k, k <> id p ->
              JsMap.get k (jobs (store w')) = JsMap.get k active)
        /\ persisted w'
  | Ok None =>
      (forall k j, JsMap.get k active = Some j -> state j <> pending)
      /\ (forall k, JsMap.get k (jobs (store w')) = JsMap.get k active)
  | Threw _ => False
  end.
Proof.
  intros (c & cd & f & fd & o & -> & Sc & Scd & Wc & Wcd) active w'.
  subst active w'.
  pose proof (sound_written c f Sc Wc) as Sf.
  rewrite (getNextPendingJob_settled c cd f fd o Sf).
  fold (pendingOf f).
  destruct (sortByCreated (pendingOf f)) as [|c0 rest] eqn:E.
  - apply sortByCreated_nil in E. cbn [fst snd store jobs settledWorld].
    split; [|intros k; apply (get_written c f k Wc)].
    intros k j G Hs.
    rewrite <- (get_written c f k Wc) in G.
    pose proof (pendingOf_In f k j G Hs) as Hin.
    rewrite E in Hin. contradiction.
  - cbn [fst snd store jobs os settledWorld quietOs clock].
    assert (Hin : In c0 (pendingOf f)).
    { apply sortByCreated_In. rewrite E. now left. }
    destruct (In_pendingOf f c0 Sf Hin) as (G & Hs & Hne).
    exists c0. change (id (claimed (clock o) c0)) with (id c0).
    split; [now rewrite <- (get_written c f (id c0) Wc)|].
    split; [exact Hs|]. split; [reflexivity|].
    split.
    { intros k j Gk Hj.
      rewrite <- (get_written c f k Wc) in Gk.
      pose proof (sortByCreated_head (pendingOf f) c0 rest E) as HF.
      rewrite Forall_forall in HF.
      exact (HF j (pendingOf_In f k j Gk Hj)). }
    split; [apply get_set_eq|].
    split.
    { intros k Hk. rewrite get_set_ne by congruence.
      apply (get_written c f k Wc). }
    split; reflexivity.
Qed.

Lemma sound_nil : sound [].
Proof.
  split; [|split].
  - intros k j [].
  - constructor.
  - intros [].
Qed.

Lemma sound_cons (k : string) (j : Job) (t : Table) :
  id j = k -> k <> "" -> JsMap.has k t = false -> sound t ->
  sound ((k, j) :: t).
Proof.
  intros Hk Hne Hn (K & N & E). split; [|split].
  - intros k' j' [[= <- <-]|H]; [exact Hk | now apply K].
  - simpl. constructor; [|exact N].
    intros H. apply has_In_keys in H. congruence.
  - simpl. intros [H|H]; [congruence | contradiction].
Qed.

Lemma settled_synced (j d : Table) :
  sound j -> sound d -> settled (Examples.syncedWorld j d).
Proof.
  intros Sj Sd. exists j, d, j, d, Examples.freshOs.
  split; [reflexivity|]. split; [exact Sj|]. split; [exact Sd|].
  split; apply written_refl.
Qed.

Lemma settled_threePending : settled threePending.
Proof.
  apply settled_synced; [|apply sound_nil].
  repeat (apply sound_cons;
          [reflexivity | discriminate | reflexivity |]).
  apply sound_nil.
Qed.

Lemma dequeue_takes_oldest_pending_witness :
  exists c0,
    JsMap.get "a" (jobs (store threePending)) = Some c0
    /\ state c0 = pending
    /\ claimed 1700000000000 old = claimed (clock (os threePending)) c0.
Proof.
  pose proof (dequeue_takes_oldest_pending threePending
                settled_threePending) as H.
  cbv zeta in H.
  change (fst (getNextPendingJob threePending))
    with (Ok (Some (claimed 1700000000000 old))) in H.
  destruct H as (c0 & G & Hs & Hp & _).
  exists c0. split; [exact G|]. split; [exact Hs | exact Hp].
Defined.

Lemma settledWorld_settled c cd f fd o :
  sound c -> sound cd -> written c f -> written cd fd ->
  settled (settledWorld c cd f fd o).
Proof.
  intros Sc Scd Wc Wcd. exists c, cd, f, fd, o.
  now refine (conj eq_refl (conj Sc (conj Scd (conj Wc Wcd)))).
Qed.

Lemma dequeues_distinct (n : nat) :
  forall c cd f fd o,
    sound c -> sound cd -> written c f -> written cd fd ->
    exists l w',
      dequeues n (settledWorld c cd f fd o) = (Ok l, w')
      /\ settled w'
      /\ NoDup (map id l)
      /\ (List.length l <= n)%nat
      /\ forall p, In p l -> pendingAt (id p) c /\ state p = processing.
Proof.
  induction n as [|n IH]; intros c cd f fd o Sc Scd Wc Wcd.
  - exists [], (settledWorld c cd f fd o).
    split; [reflexivity|].
    split; [now apply settledWorld_settled|].
    split; [constructor|]. split; [simpl; lia|]. intros p [].
  - pose proof (sound_written c f Sc Wc) as Sf.
    pose proof (sound_written cd fd Scd Wcd) as Sfd.
    cbn [dequeues]. unfold bind at 1.
    destruct (dequeue_shape c cd f fd o Sf) as [E|(c0 & G & Hs & Hne & E)];
      rewrite E; clear E.
    + destruct (IH f fd f fd o Sf Sfd (written_refl f) (written_refl fd))
        as (l & w' & E & Hw & Hd & Hl & Hp).
      exists l, w'. unfold bind at 1. rewrite E.
      split; [reflexivity|]. split; [exact Hw|]. split; [exact Hd|].
      split; [lia|].
      intros p Hin. destruct (Hp p Hin) as [(j & Gj & Hj) Hpr].
      split; [|exact Hpr]. exists j.
      split; [now rewrite <- (get_written c f (id p) Wc) | exact Hj].
    + set (p0 := claimed (clock o) c0).
      set (c1 := JsMap.set (id c0) p0 f).
      assert (S1 : sound c1).
      { apply sound_set_known;
          [exact Sf | now apply (get_has f (id c0) c0) | reflexivity]. }
      destruct (IH c1 fd (objectOrder c1) (objectOrder fd) o S1 Sfd
                  (written_objectOrder c1) (written_objectOrder fd))
        as (l & w' & E & Hw & Hd & Hl & Hp).
      exists (p0 :: l), w'. unfold bind at 1. rewrite E.
      split; [reflexivity|]. split; [exact Hw|].
      assert (Hrest : forall p, In p l ->
                        id p <> id c0 /\ pendingAt (id p) c
                        /\ state p = processing).
      { intros p Hin. destruct (Hp p Hin) as [(j & Gj & Hj) Hpr].
        unfold c1 in Gj. rewrite get_set in Gj.
        destruct (String.eqb (id p) (id c0)) eqn:Ek.
        - injection Gj as <-. discriminate.
        - apply String.eqb_neq in Ek. split; [exact Ek|].
          split; [|exact Hpr]. exists j.
          split; [now rewrite <- (get_written c f (id p) Wc) | exact Hj]. }
      split.
      { simpl. constructor; [|exact Hd].
        intros Hin. apply in_map_iff in Hin as (p & Hid & Hin).
        destruct (Hrest p Hin) as [Hk _]. now apply Hk. }
      split; [simpl; lia|].
      intros p [<-|Hin].
      * split; [|reflexivity]. exists c0.
        change (id p0) with (id c0).
        split; [now rewrite <- (get_written c f (id c0) Wc) | exact Hs].
      * destruct (Hrest p Hin) as (_ & H1 & H2). now split.
Qed.

(** X13.  Calls of [getNextPendingJob] never hand out a job twice: on an
    undisturbed store, the jobs returned by any number of calls in a row
    have pairwise different ids, each was pending in the table at the
    start, and each is returned in state processing. *)
Theorem dequeues_hand_out_each_job_once (n : nat) (w : World) :
  settled w ->
  exists l,
    fst (dequeues n w) = Ok l
    /\ NoDup (map id l)
    /\ (List.length l <= n)%nat
    /\ (forall p, In p l ->
          pendingAt (id p) (jobs (store w)) /\ state p = processing)
    /\ settled (snd (dequeues n w)).
Proof.
  intros (c & cd & f & fd & o & -> & Sc & Scd & Wc & Wcd).
  destruct (dequeues_distinct n c cd f fd o Sc Scd Wc Wcd)
    as (l & w' & E & Hw & Hd & Hl & Hp).
  exists l. rewrite E.
  now refine (conj eq_refl (conj Hd (conj Hl (conj Hp Hw)))).
Qed.

Lemma dequeues_hand_out_each_job_once_witness :
  exists l,
    fst (dequeues 5 threePending) = Ok l
    /\ NoDup (map id l)
    /\ (List.length l <= 5)%nat
    /\ (forall p, In p l ->
          pendingAt (id p) (jobs (store threePending))
          /\ state p = processing)
    /\ settled (snd (dequeues 5 threePending)).
Proof.
  exact (dequeues_hand_out_each_job_once 5 threePending
           settled_threePending).
Defined.

End Dequeue.

(* ================================================================== *)
(** * Further properties: the worker cycle on an undisturbed store *)
(* ================================================================== *)

Section Cycles.
Import JsMapFacts.
Variables (backoffBase : Z) (toISOString : Z -> string).

(** The job a cycle selects, and the world it is selected in. *)
Lemma selected_settled c cd f fd o :
  sound f ->
  selected (settledWorld c cd f fd o)
  = match sortByCreated (pendingOf f) with
    | c0 :: _ =>
        let p := claimed (clock o) c0 in
        (Ok (Some p),
         settledWorld (JsMap.set (id c0) p f) fd
           (objectOrder (JsMap.set (id c0) p f)) (objectOrder fd) o)
    | [] =>
        match find (eligible (clock o) (random o)) (JsMap.values f) with
        | Some r =>
            let pr := promoted (clock o) (random o) r in
            let f1 := objectOrder (JsMap.set (id r) pr f) in
            let p := claimed (clock o) pr in
            (Ok (Some p),
             settledWorld (JsMap.set (id r) p f1) (objectOrder fd)
               (objectOrder (JsMap.set (id r) p f1))
               (objectOrder (objectOrder fd)) o)
        | None => (Ok None, settledWorld f fd f fd o)
        end
    end.
Proof.
  intros S. unfold selected, bind at 1.
  rewrite (getNextPendingJob_settled c cd f fd o S). fold (pendingOf f).
  destruct (sortByCreated (pendingOf f)) as [|c0 rest] eqn:E;
    [|reflexivity].
  apply sortByCreated_nil in E.
  unfold bind at 1. rewrite findReadyToRetry_settled.
  destruct (find _ _) as [r|] eqn:F; [|reflexivity].
  apply find_some in F as [Hr He].
  destruct (sound_value f r S Hr) as [Gr Hrne].
  set (pr := promoted (clock o) (random o) r).
  assert (Hpid : id pr = id r) by now apply promoted_id.
  unfold bind at 1, getOs at 1.
  change (clock (os (settledWorld f fd f fd o))) with (clock o).
  change (random (os (settledWorld f fd f fd o))) with (random o).
  fold pr. unfold bind at 1.
  rewrite updateJob_settled, Hpid, (get_has f (id r) r Gr).
  set (c2 := JsMap.set (id r) pr f).
  assert (S2 : sound (objectOrder c2)).
  { apply sound_objectOrder, sound_set_known;
      [exact S | now apply (get_has f (id r) r) | exact Hpid]. }
  rewrite (getNextPendingJob_settled c2 fd (objectOrder c2)
             (objectOrder fd) o S2).
  fold (pendingOf (objectOrder c2)).
  destruct (sortByCreated (pendingOf (objectOrder c2)))
    as [|c0 rest] eqn:E2.
  - apply sortByCreated_nil in E2.
    assert (Hin : In pr (pendingOf (objectOrder c2))).
    { apply (pendingOf_In _ (id r)); [|reflexivity].
      rewrite get_objectOrder. apply get_set_eq. }
    rewrite E2 in Hin. contradiction.
  - assert (Hin : In c0 (pendingOf (objectOrder c2))).
    { apply sortByCreated_In. rewrite E2. now left. }
    destruct (In_pendingOf _ c0 S2 Hin) as (G & Hs & Hne).
    unfold c2 in G. rewrite get_objectOrder, get_set in G.
    destruct (String.eqb (id c0) (id r)) eqn:Ek.
    + injection G as <-. cbv zeta. now rewrite Hpid.
    + pose proof (pendingOf_In f (id c0) c0 G Hs) as Hin0.
      rewrite E in Hin0. contradiction.
Qed.

(** What selecting does to the tables, and where the job selected comes
    from. *)
Lemma selected_outcome c cd f fd o :
  sound c -> sound cd -> written c f -> written cd fd ->
  exists x c1 cd1 f1 fd1,
    selected (settledWorld c cd f fd o)
    = (Ok x, settledWorld c1 cd1 f1 fd1 o)
    /\ sound c1 /\ sound cd1 /\ written c1 f1 /\ written cd1 fd1
    /\ (forall k, JsMap.get k cd1 = JsMap.get k cd)
    /\ match x with
       | None => forall k, JsMap.get k c1 = JsMap.get k c
       | Some p =>
           id p <> ""
           /\ JsMap.get (id p) c1 = Some p
           /\ (exists j0,
                  JsMap.get (id p) c = Some j0
                  /\ (state j0 = pending /\ p = claimed (clock o) j0
                      \/ eligible (clock o) (random o) j0 = true
                         /\ p = claimed (clock o)
                                  (promoted (clock o) (random o) j0)))
           /\ (forall k, k <> id p -> JsMap.get k c1 = JsMap.get k c)
       end.
Proof.
  intros Sc Scd Wc Wcd.
  pose proof (sound_written c f Sc Wc) as Sf.
  pose proof (sound_written cd fd Scd Wcd) as Sfd.
  rewrite (selected_settled c cd f fd o Sf).
  destruct (sortByCreated (pendingOf f)) as [|c0 rest] eqn:E.
  - destruct (find _ _) as [r|] eqn:F.
    + apply find_some in F as [Hr He].
      destruct (sound_value f r Sf Hr) as [Gr Hrne].
      cbv zeta.
      set (pr := promoted (clock o) (random o) r).
      assert (Hpid : id pr = id r) by now apply promoted_id.
      set (f1 := objectOrder (JsMap.set (id r) pr f)).
      set (p := claimed (clock o) pr).
      assert (S1 : sound f1).
      { apply sound_objectOrder, sound_set_known;
          [exact Sf | now apply (get_has f (id r) r) | exact Hpid]. }
      assert (H1 : JsMap.has (id r) f1 = true).
      { unfold f1. rewrite has_objectOrder, has_set.
        now rewrite String.eqb_refl. }
      exists (Some p), (JsMap.set (id r) p f1), (objectOrder fd),
        (objectOrder (JsMap.set (id r) p f1)),
        (objectOrder (objectOrder fd)).
      split; [reflexivity|].
      split; [now apply sound_set_known|].
      split; [now apply sound_objectOrder|].
      split; [apply written_objectOrder|].
      split; [apply written_objectOrder|].
      split.
      { intros k. rewrite get_objectOrder. apply (get_written cd fd k Wcd). }
      change (id p) with (id pr). rewrite Hpid.
      split; [exact Hrne|]. split; [apply get_set_eq|].
      split.
      { exists r. split; [now rewrite <- (get_written c f (id r) Wc)|].
        right. now split. }
      intros k Hk. rewrite get_set_ne by congruence.
      unfold f1. rewrite get_objectOrder, get_set_ne by congruence.
      apply (get_written c f k Wc).
    + exists None, f, fd, f, fd.
      split; [reflexivity|]. split; [exact Sf|]. split; [exact Sfd|].
      split; [apply written_refl|]. split; [apply written_refl|].
      split; [intros k; apply (get_written cd fd k Wcd)|].
      intros k. apply (get_written c f k Wc).
  - assert (Hin : In c0 (pendingOf f)).
    { apply sortByCreated_In. rewrite E. now left. }
    destruct (In_pendingOf f c0 Sf Hin) as (G & Hs & Hne).
    cbv zeta. set (p := claimed (clock o) c0).
    exists (Some p), (JsMap.set (id c0) p f), fd,
      (objectOrder (JsMap.set (id c0) p f)), (objectOrder fd).
    split; [reflexivity|].
    split.
    { apply sound_set_known;
        [exact Sf | now apply (get_has f (id c0) c0) | reflexivity]. }
    split; [exact Sfd|].
    split; [apply written_objectOrder|].
    split; [apply written_objectOrder|].
    split; [intros k; apply (get_written cd fd k Wcd)|].
    change (id p) with (id c0).
    split; [exact Hne|]. split; [apply get_set_eq|].
    split.
    { exists c0. split; [now rewrite <- (get_written c f (id c0) Wc)|].
      left. now split. }
    intros k Hk. rewrite get_set_ne by congruence.
    apply (get_written c f k Wc).
Qed.

(** A whole cycle: the job selected, if any, and what becomes of the
    tables. *)
Lemma cycle_outcome outcome c cd f fd o :
  sound c -> sound cd -> written c f -> written cd fd ->
  exists x r c2 cd2 f2 fd2,
    fst (selected (settledWorld c cd f fd o)) = Ok x
    /\ processNextJob backoffBase toISOString outcome
         (settledWorld c cd f fd o)
       = (r, settledWorld c2 cd2 f2 fd2 o)
    /\ sound c2 /\ sound cd2 /\ written c2 f2 /\ written cd2 fd2
    /\ match x with
       | None =>
           r = Ok tt
           /\ (forall k, JsMap.get k c2 = JsMap.get k c)
           /\ (forall k, JsMap.get k cd2 = JsMap.get k cd)
       | Some p =>
           id p <> ""
           /\ (exists j0,
                  JsMap.get (id p) c = Some j0
                  /\ (state j0 = pending /\ p = claimed (clock o) j0
                      \/ eligible (clock o) (random o) j0 = true
                         /\ p = claimed (clock o)
                                  (promoted (clock o) (random o) j0)))
           /\ (forall k, k <> id p ->
                 JsMap.get k c2 = JsMap.get k c
                 /\ JsMap.get k cd2 = JsMap.get k cd)
           /\ match r with
              | Threw e =>
                  e = RangeError
                  /\ JsMap.get (id p) c2 = Some p
                  /\ JsMap.get (id p) cd2 = JsMap.get (id p) cd
              | Ok _ =>
                  f2 = objectOrder c2 /\ fd2 = objectOrder cd2
                  /\ ((exists R,
                          JsMap.get (id p) c2 = Some R
                          /\ JsMap.get (id p) cd2 = JsMap.get (id p) cd
                          /\ (state R = completed \/ state R = failed))
                      \/ (JsMap.get (id p) c2 = None
                          /\ exists D,
                               JsMap.get (id p) cd2 = Some D
                               /\ state D = dead))
              end
           /\ let J := fromJSON (clock o) (random o) p in
              match outcome with
              | Succeeded =>
                  r = Ok tt
                  /\ JsMap.get (id p) c2
                     = Some (completedRecord (clock o) J)
              | Failed =>
                  if (max_retries J <=? attempts J + 1)%N
                  then r = Ok tt
                       /\ JsMap.get (id p) c2 = None
                       /\ JsMap.get (id p) cd2
                          = Some (buriedRecord backoffBase toISOString
                                    (clock o) J)
                  else inRange (clock o) backoffBase (attempts J + 1) ->
                       r = Ok tt
                       /\ JsMap.get (id p) c2
                          = Some (failedOnce backoffBase toISOString
                                    (clock o) J)
              | Rejected _ => True
              end
       end.
Proof.
  intros Sc Scd Wc Wcd.
  destruct (selected_outcome c cd f fd o Sc Scd Wc Wcd)
    as (x & c1 & cd1 & f1 & fd1 & E & S1 & Sd1 & W1 & Wd1 & Hcd & Hx).
  rewrite processNextJob_selected. unfold bind at 1. rewrite E.
  destruct x as [p|].
  - destruct Hx as (Hne & Gp & Hj0 & Hframe).
    destruct (runJob_shape backoffBase toISOString outcome p c1 cd1 f1 fd1
                o S1 Sd1 W1 Wd1 Hne (get_has c1 (id p) p Gp))
      as (r & c2 & cd2 & f2 & fd2 & E2 & S2 & Sd2 & W2 & Wd2 & Hfr
          & Hends & Hrun).
    exists (Some p), r, c2, cd2, f2, fd2.
    split; [reflexivity|]. split; [exact E2|].
    split; [exact S2|]. split; [exact Sd2|].
    split; [exact W2|]. split; [exact Wd2|].
    split; [exact Hne|]. split; [exact Hj0|].
    split.
    { intros k Hk. destruct (Hfr k Hk) as [-> ->].
      split; [now apply Hframe | apply Hcd]. }
    split; [|exact Hrun].
    unfold runEnds in Hends. destruct r as [[]|e].
    + destruct Hends as (-> & -> & H).
      split; [reflexivity|]. split; [reflexivity|].
      destruct H as [(R & G1 & G2 & HR)|(G1 & D & G2 & HD)].
      * left. exists R. rewrite G2, Hcd. now repeat split.
      * right. split; [exact G1|]. now exists D.
    + destruct Hends as (-> & -> & -> & _ & _).
      split; [reflexivity|]. split; [exact Gp | apply Hcd].
  - exists None, (Ok tt), c1, cd1, f1, fd1.
    split; [reflexivity|]. split; [reflexivity|].
    split; [exact S1|]. split; [exact Sd1|].
    split; [exact W1|]. split; [exact Wd1|].
    split; [reflexivity|]. split; [exact Hx | exact Hcd].
Qed.

(** A cycle keeps the store settled and leaves alone every record that
    is neither pending nor ready to be retried, however it ends. *)
Lemma cycle_spares outcome w k j :
  settled w ->
  JsMap.get k (jobs (store w)) = Some j ->
  state j <> pending ->
  eligible (clock (os w)) (random (os w)) j = false ->
  let w2 := snd (processNextJob backoffBase toISOString outcome w) in
  settled w2
  /\ JsMap.get k (jobs (store w2)) = Some j.
Proof.
  intros (c & cd & f & fd & o & -> & Sc & Scd & Wc & Wcd) G Hs He w2.
  subst w2. cbn [store jobs os settledWorld quietOs clock random] in G, He.
  destruct (cycle_outcome outcome c cd f fd o Sc Scd Wc Wcd)
    as (x & r & c2 & cd2 & f2 & fd2 & _ & E & S2 & Sd2 & W2 & Wd2 & Hx).
  rewrite E. cbn [fst snd store jobs os settledWorld quietOs clock].
  split; [now apply settledWorld_settled|].
  destruct x as [p|].
  - destruct Hx as (_ & (j0 & Gp & Hj0) & Hframe & _).
    destruct (String.eqb k (id p)) eqn:Ek.
    + apply String.eqb_eq in Ek. subst k. rewrite Gp in G.
      injection G as ->.
      destruct Hj0 as [[Hp _]|[Hel _]]; [contradiction | congruence].
    + apply String.eqb_neq in Ek.
      destruct (Hframe k Ek) as [-> _]. exact G.
  - destruct Hx as (_ & -> & _). exact G.
Qed.

(** X14.  A worker cycle leaves alone every record that is neither
    pending nor a failed record ready to be retried: a job that is being
    processed, is completed or is dead, and equally a failed job whose
    retry time lies ahead or whose attempts are used up, is after the
    cycle exactly what it was before. *)
Theorem cycle_spares_unready
    (outcome : Outcome) (w : World) (k : string) (j : Job) :
  settled w ->
  JsMap.get k (jobs (store w)) = Some j ->
  state j <> pending ->
  eligible (clock (os w)) (random (os w)) j = false ->
  JsMap.get k
    (jobs (store (snd (processNextJob backoffBase toISOString outcome w))))
  = Some j.
Proof.
  intros Hw G Hs He.
  now destruct (cycle_spares outcome w k j Hw G Hs He) as (_ & H).
Qed.


(** X16.  When the command of the job a cycle selects succeeds, the job
    is stored as completed with its error cleared; its attempts and its
    command are those of the job selected, and the dead-letter table is
    what it was. *)
Theorem successful_run_completes (w : World) (p : Job) :
  settled w ->
  fst (selected w) = Ok (Some p) ->
  let w2 := snd (processNextJob backoffBase toISOString Succeeded w) in
  exists done,
    JsMap.get (id p) (jobs (store w2)) = Some done
    /\ done = completedRecord (clock (os w))
                (fromJSON (clock (os w)) (random (os w)) p)
    /\ state done = completed
    /\ error done = None
    /\ attempts done = attempts p
    /\ command done = command p
    /\ (forall k, JsMap.get k (dlq (store w2)) = JsMap.get k (dlq (store w)))
    /\ persisted w2.
Proof.
  intros (c & cd & f & fd & o & -> & Sc & Scd & Wc & Wcd) Hsel w2.
  subst w2.
  destruct (cycle_outcome Succeeded c cd f fd o Sc Scd Wc Wcd)
    as (x & r & c2 & cd2 & f2 & fd2 & Ex & E & S2 & Sd2 & W2 & Wd2 & Hx).
  rewrite Ex in Hsel. injection Hsel as ->.
  destruct Hx as (Hne & _ & Hframe & Hends & Hr & Hc). subst r.
  destruct Hends as (-> & -> & Hd).
  rewrite E. cbn [snd store jobs dlq os settledWorld quietOs clock random].
  eexists. split; [exact Hc|]. split; [reflexivity|].
  split; [reflexivity|]. split; [reflexivity|].
  split.
  { unfold completedRecord, fromJSON, newJob, toJSON.
    cbn [attempts setError setUpdatedAt setState d_attempts].
    apply orNumber_zero. }
  split; [reflexivity|].
  split; [|now split].
  intros k. destruct (String.eqb k (id p)) eqn:Ek.
  - apply String.eqb_eq in Ek. subst k.
    destruct Hd as [(R & _ & G2 & _)|(G1 & _)]; [exact G2 | congruence].
  - apply String.eqb_neq in Ek. now destruct (Hframe k Ek).
Qed.

Lemma atRest_unready now rnd j :
  atRest j -> state j <> pending /\ eligible now rnd j = false.
Proof.
  unfold eligible. intros [H|[H|H]]; rewrite H; now split.
Qed.

Lemma workerCycles_at_rest (k : string) (j : Job)
    (cycles : list (Z * Outcome)) :
  atRest j ->
  forall w,
    settled w ->
    JsMap.get k (jobs (store w)) = Some j ->
    let r := workerCycles backoffBase toISOString cycles w in
    fst r = Ok tt /\ settled (snd r)
    /\ JsMap.get k (jobs (store (snd r))) = Some j.
Proof.
  intros Hj. induction cycles as [|[t outcome] rest IH]; intros w Hw G r;
    subst r.
  - now split.
  - destruct (atTime_settled t w Hw) as (Ea & Sa & Hst & _).
    set (w0 := snd (atTime t w)) in *.
    rewrite <- Hst in G.
    destruct (atRest_unready (clock (os w0)) (random (os w0)) j Hj)
      as [Hs He].
    destruct (cycle_spares outcome w0 k j Sa G Hs He) as (S2 & G2).
    assert (Eq : workerCycles backoffBase toISOString
                   ((t, outcome) :: rest) w
                 = workerCycles backoffBase toISOString rest
                     (snd (processNextJob backoffBase toISOString outcome
                             w0))).
    { cbn [workerCycles]. unfold bind at 1. rewrite Ea. unfold bind at 1.
      now rewrite startTurn_eq. }
    rewrite Eq. exact (IH _ S2 G2).
Qed.

(** X17.  A job that is completed, dead or being processed stays as it
    is whatever the worker does afterwards: after any number of turns of
    the worker's loop, whatever the commands give and whatever a cycle
    raises, at any times, its record is the same, and the loop has gone
    on to the end.  A completed job is never run again, and a job left in
    state processing (by a worker that died, or by a cycle that raised)
    is never taken up again. *)
Theorem records_at_rest_stay
    (k : string) (j : Job) (cycles : list (Z * Outcome)) (w : World) :
  settled w ->
  JsMap.get k (jobs (store w)) = Some j ->
  atRest j ->
  fst (workerCycles backoffBase toISOString cycles w) = Ok tt
  /\ JsMap.get k
       (jobs (store (snd (workerCycles backoffBase toISOString cycles w))))
     = Some j.
Proof.
  intros Hw G Hj.
  destruct (workerCycles_at_rest k j cycles Hj w Hw G) as (H1 & _ & H2).
  now split.
Qed.





End Cycles.

Lemma settled_oneDone : settled oneDone.
Proof.
  apply settled_synced; [|apply sound_nil].
  repeat (apply sound_cons;
          [reflexivity | discriminate | reflexivity |]).
  apply sound_nil.
Qed.

Lemma cycle_spares_unready_witness :
  JsMap.get "done"
    (jobs (store (snd (processNextJob 2 showZ Failed oneDone))))
  = Some doneJob.
Proof.
  apply (cycle_spares_unready 2 showZ Failed oneDone "done" doneJob
           settled_oneDone);
    [reflexivity | discriminate | reflexivity].
Defined.



Lemma successful_run_completes_witness :
  exists done,
    JsMap.get "job1"
      (jobs (store (snd (processNextJob 2 showZ Succeeded oneDone))))
    = Some done
    /\ state done = completed
    /\ error done = None.
Proof.
  destruct (successful_run_completes 2 showZ oneDone
              (claimed 1700000000000 Examples.job1) settled_oneDone
              eq_refl)
    as (done & G & _ & Hs & He & _).
  exists done. split; [exact G|]. now split.
Defined.

Lemma records_at_rest_stay_witness :
  JsMap.get "done"
    (jobs (store (snd (workerCycles 2 showZ Examples.fourCycles oneDone))))
  = Some doneJob.
Proof.
  apply (records_at_rest_stay 2 showZ "done" doneJob Examples.fourCycles
           oneDone settled_oneDone);
    [reflexivity | right; left; reflexivity].
Defined.


(* ================================================================== *)
(** * Further properties: what is written is what is read *)
(* ================================================================== *)

Section OrderFacts.
Variable V : Type.
Implicit Types (m l : JsMap.t V) (e : string * V).

Lemma insertByIndex_head e e0 l :
  byIndex e0 e -> HdRel (@byIndex V) e0 l -> HdRel (@byIndex V) e0 (insertByIndex e l).
Proof.
  intros He Hl. destruct l as [|e' r]; simpl; [now constructor|].
  destruct (indexOf (fst e) <=? indexOf (fst e'))%N;
    constructor; [exact He | now inversion Hl].
Qed.

Lemma insertByIndex_sorted e l :
  Sorted (@byIndex V) l -> Sorted (@byIndex V) (insertByIndex e l).
Proof.
  induction 1 as [|e' r Hr IH Hd]; simpl.
  - repeat constructor.
  - destruct (indexOf (fst e) <=? indexOf (fst e'))%N eqn:L.
    + apply N.leb_le in L. constructor; [now constructor|].
      now constructor.
    + apply N.leb_gt in L. constructor; [exact IH|].
      apply insertByIndex_head; [|exact Hd]. unfold byIndex. lia.
Qed.

Lemma sortByIndex_sorted l : Sorted (@byIndex V) (sortByIndex l).
Proof.
  induction l as [|e r IH]; simpl; [constructor|].
  now apply insertByIndex_sorted.
Qed.

Lemma sortByIndex_fixed l : Sorted (@byIndex V) l -> sortByIndex l = l.
Proof.
  induction 1 as [|e r Hr IH Hd]; simpl; [reflexivity|].
  rewrite IH. destruct Hd as [|e' r' He]; simpl; [reflexivity|].
  unfold byIndex in He. apply N.leb_le in He. now rewrite He.
Qed.

Lemma filter_all (p : string * V -> bool) l :
  (forall e, In e l -> p e = true) -> filter p l = l.
Proof.
  induction l as [|e r IH]; simpl; intros H; [reflexivity|].
  rewrite (H e (or_introl eq_refl)). f_equal. apply IH.
  intros e' He'. apply H. now right.
Qed.

Lemma filter_none (p : string * V -> bool) l :
  (forall e, In e l -> p e = false) -> filter p l = [].
Proof.
  induction l as [|e r IH]; simpl; intros H; [reflexivity|].
  rewrite (H e (or_introl eq_refl)). apply IH.
  intros e' He'. apply H. now right.
Qed.

(** Putting a table in property order a second time changes nothing. *)
Lemma objectOrder_idempotent m : objectOrder (objectOrder m) = objectOrder m.
Proof.
  unfold objectOrder. rewrite !filter_app.
  set (A := sortByIndex (filter (fun e => isArrayIndex (fst e)) m)).
  set (B := filter (fun e => negb (isArrayIndex (fst e))) m).
  assert (HA : forall e, In e A -> isArrayIndex (fst e) = true).
  { intros e He. unfold A in He.
    apply (Permutation_in e
             (Permutation_sym (JsMapFacts.sortByIndex_perm _))) in He.
    now apply filter_In in He. }
  assert (HB : forall e, In e B -> isArrayIndex (fst e) = false).
  { intros e He. unfold B in He. apply filter_In in He as [_ He].
    now apply negb_true_iff in He. }
  rewrite (filter_all _ A HA).
  rewrite (filter_none (fun e => isArrayIndex (fst e)) B HB).
  rewrite (filter_none (fun e => negb (isArrayIndex (fst e))) A).
  2:{ intros e He. now rewrite (HA e He). }
  rewrite (filter_all (fun e => negb (isArrayIndex (fst e))) B).
  2:{ intros e He. now rewrite (HB e He). }
  rewrite app_nil_r. simpl.
  now rewrite (sortByIndex_fixed A (sortByIndex_sorted _)).
Qed.

Lemma objectOrder_single (k : string) (v : V) :
  objectOrder [(k, v)] = [(k, v)].
Proof.
  unfold objectOrder. simpl. now destruct (isArrayIndex k).
Qed.
End OrderFacts.

(** X19.  What [save] writes a new process reads back: after [save] on a
    writable directory, the tables of a process that starts next hold the
    records the saved tables held, under the same ids; they are the saved
    tables with the keys in property order (ids that are array indices
    first, ascending); and saving these and starting again changes
    nothing. *)
Theorem saved_tables_are_read_back (w : World) :
  writable (os w) = true ->
  others w = [] ->
  let w1 := snd (bind save (fun _ => newStorage) w) in
  fst (bind save (fun _ => newStorage) w) = Ok tt
  /\ jobs (store w1) = objectOrder (jobs (store w))
  /\ dlq (store w1) = objectOrder (dlq (store w))
  /\ (forall k,
        JsMap.get k (jobs (store w1)) = JsMap.get k (jobs (store w))
        /\ JsMap.get k (dlq (store w1)) = JsMap.get k (dlq (store w)))
  /\ Permutation (jobs (store w)) (jobs (store w1))
  /\ Permutation (dlq (store w)) (dlq (store w1))
  /\ bind save (fun _ => newStorage) w1 = (Ok tt, w1).
Proof.
  intros Hw Ho w1. subst w1.
  destruct w as [[c cd h] [jf df lf wr lv p t r] l].
  cbn [store os others writable] in Hw, Ho. subst wr l.
  unfold save, newStorage, load, interfere. run_monad.
  unfold loaded. cbn.
  split; [reflexivity|]. split; [reflexivity|]. split; [reflexivity|].
  split.
  { intros k. now rewrite !JsMapFacts.get_objectOrder. }
  split; [apply JsMapFacts.objectOrder_perm|].
  split; [apply JsMapFacts.objectOrder_perm|].
  now rewrite !objectOrder_idempotent.
Qed.

Lemma saved_tables_are_read_back_witness :
  JsMap.keys (jobs (store (snd (bind save (fun _ => newStorage)
                                  threePending))))
  = ["2"; "c"; "a"].
Proof.
  pose proof (saved_tables_are_read_back threePending eq_refl eq_refl)
    as (_ & H & _).
  rewrite H. reflexivity.
Defined.

(** X20.  A table file that cannot be parsed costs both tables: a process
    that starts on it has two empty tables, whatever the other file
    holds, and its next write (here an enqueue) leaves the file of active
    jobs with the new job alone and the dead-letter file empty. *)
Theorem unreadable_file_empties_both_tables (data : JobData) (w : World) :
  others w = [] ->
  writable (os w) = true ->
  jobs_file (os w) = Corrupt \/ dlq_file (os w) = Corrupt ->
  noCommand (submitted data w) = false ->
  let job := submitted data w in
  let w0 := snd (newStorage w) in
  let w' := snd (bind newStorage (fun _ => processJobData data) w) in
  jobs (store w0) = []
  /\ dlq (store w0) = []
  /\ fst (bind newStorage (fun _ => processJobData data) w)
     = Ok (Enqueued job)
  /\ jobs_file (os w') = Holds [(id job, job)]
  /\ dlq_file (os w') = Holds [].
Proof.
  intros Ho Hw Hc Hn job w0 w'. subst job w0 w'.
  destruct w as [[c cd h] [jf df lf wr lv p t r] l].
  unfold submitted in *.
  cbn [store os others writable jobs_file dlq_file clock random]
    in Ho, Hw, Hc, Hn |- *.
  subst wr l.
  assert (E : newStorage
                (mkWorld (mkStorage c cd h)
                   (mkOs jf df lf true lv p t r) [])
              = (Ok tt,
                 mkWorld (mkStorage [] [] false)
                   (mkOs jf df lf true lv p t r) [])).
  { unfold newStorage, load, interfere. run_monad. unfold loaded. cbn.
    destruct Hc as [-> | ->]; [reflexivity|]. now destruct jf. }
  set (job := newJob t r data) in *.
  assert (E2 : processJobData data
                 (mkWorld (mkStorage [] [] false)
                    (mkOs jf df lf true lv p t r) [])
               = (Ok (Enqueued job),
                  mkWorld (mkStorage [(id job, job)] [] false)
                    (mkOs (Holds [(id job, job)]) (Holds []) lf true lv p
                          t r) [])).
  { unfold processJobData, tryCatch, bind at 1, getOs at 1.
    cbn [os clock random]. fold job. rewrite Hn.
    unfold addJob, save. run_monad.
    now rewrite objectOrder_single. }
  unfold bind. rewrite E, E2. now repeat split.
Qed.

Lemma unreadable_file_empties_both_tables_witness :
  dlq_file (os (snd (bind newStorage
                       (fun _ => processJobData Examples.againData)
                       brokenJobsFile)))
  = Holds [].
Proof.
  apply (unreadable_file_empties_both_tables Examples.againData
           brokenJobsFile);
    [reflexivity | reflexivity | left; reflexivity | reflexivity].
Defined.

(* ================================================================== *)
(** * Further properties: dequeuing while the lock is held elsewhere *)
(* ================================================================== *)

Lemma insertByCreated_length (j : Job) (l : list Job) :
  List.length (insertByCreated j l) = S (List.length l).
Proof.
  induction l as [|j' r IH]; simpl; [reflexivity|].
  destruct (created_at j <=? created_at j')%Z; simpl; [reflexivity|].
  now rewrite IH.
Qed.

Lemma sortByCreated_length (l : list Job) :
  List.length (sortByCreated l) = List.length l.
Proof.
  induction l as [|j r IH]; simpl; [reflexivity|].
  now rewrite insertByCreated_length, IH.
Qed.

Lemma loaded_withClock t o s : loaded (withClock t o) s = loaded o s.
Proof. reflexivity. Qed.

Lemma loaded_loaded o s : loaded o (loaded o s) = loaded o s.
Proof.
  unfold loaded. destruct (jobs_file o), (dlq_file o); reflexivity.
Qed.

Lemma lockHandle_loaded o s : lockHandle (loaded o s) = lockHandle s.
Proof.
  unfold loaded. destruct (jobs_file o), (dlq_file o); reflexivity.
Qed.

Section LockedOut.
Variables (holder : N) (lv : list N).
Hypothesis holder_runs : existsb (N.eqb holder) lv = true.

Lemma held_withClock t o : heldBy holder lv o -> heldBy holder lv (withClock t o).
Proof. intros H. exact H. Qed.

Lemma claim_held job s o :
  lockHandle s = false -> heldBy holder lv o ->
  claim job (mkWorld s o [])
  = (Ok None, mkWorld s (withClock (clock o + 150) o) []).
Proof.
  intros Hh [Hl Hv]. unfold claim, bind at 1.
  rewrite (acquireLockWithRetry_held 3 50 s [] holder Hh o Hl)
    by (now rewrite Hv).
  reflexivity.
Qed.

Lemma claimFirst_held (l : list Job) s :
  lockHandle s = false ->
  forall o,
    heldBy holder lv o ->
    claimFirst l (mkWorld s o [])
    = (Ok None,
       mkWorld s
         (withClock (clock o + Z.of_nat (List.length l) * 150) o) []).
Proof.
  intros Hh. induction l as [|j r IH]; intros o Ho.
  - simpl. unfold ret. do 2 f_equal. destruct o; simpl.
    now rewrite Z.add_0_r.
  - replace (Z.of_nat (List.length (j :: r)) * 150)%Z
      with (150 + Z.of_nat (List.length r) * 150)%Z
      by (cbn [List.length]; lia).
    rewrite Z.add_assoc.
    cbn [claimFirst]. unfold bind at 1.
    rewrite (claim_held j s o Hh Ho).
    now rewrite (IH (withClock (clock o + 150) o) (held_withClock _ o Ho)).
Qed.

Lemma pendingLoop_S (n : nat) (w : World) :
  pendingLoop (S n) w
  = bind load
      (fun _ =>
         bind (getJobsByState pending)
           (fun all =>
              bind (claimFirst (sortByCreated all))
                (fun r =>
                   match r with
                   | Some j => ret (Some j)
                   | None =>
                       match sortByCreated all with
                       | [] => ret None
                       | _ :: _ =>
                           bind (match n with
                                 | O => ret tt
                                 | S _ => sleep 100
                                 end)
                             (fun _ => pendingLoop n)
                       end
                   end))) w.
Proof. reflexivity. Qed.

(** One round of the loop of [getNextPendingJob]. *)
Lemma pendingLoop_held_round (n : nat) s o :
  lockHandle s = false -> heldBy holder lv o ->
  let s1 := loaded o s in
  let k := List.length (pendingOf (jobs s1)) in
  pendingLoop (S n) (mkWorld s o [])
  = match k with
    | O => (Ok None, mkWorld s1 (withClock (clock o + 0) o) [])
    | S _ =>
        match n with
        | O =>
            (Ok None,
             mkWorld s1 (withClock (clock o + Z.of_nat k * 150) o) [])
        | S _ =>
            pendingLoop n
              (mkWorld s1
                 (withClock (clock o + Z.of_nat k * 150 + 100) o) [])
        end
    end.
Proof.
  intros Hh Ho s1 k. rewrite pendingLoop_S. unfold bind at 1.
  change (load (mkWorld s o [])) with (Ok tt, mkWorld s1 o []).
  unfold bind at 1.
  change (getJobsByState pending (mkWorld s1 o []))
    with (Ok (pendingOf (jobs s1)), mkWorld s1 o []).
  unfold bind at 1.
  rewrite (claimFirst_held _ s1 (eq_trans (lockHandle_loaded o s) Hh) o Ho).
  rewrite sortByCreated_length. fold k.
  destruct (sortByCreated (pendingOf (jobs s1))) as [|c0 r] eqn:E.
  - apply sortByCreated_nil in E. subst k. rewrite E. reflexivity.
  - assert (Hk : k <> O).
    { subst k. rewrite <- sortByCreated_length, E. discriminate. }
    destruct k as [|k']; [contradiction|].
    destruct n; reflexivity.
Qed.

Ltac same_clock :=
  match goal with
  | |- (_, mkWorld _ (withClock ?t' _) _)
       = (_, mkWorld _ (withClock ?t _) _) =>
      replace t with t' by lia; reflexivity
  end.

Lemma pendingLoop_held (n : nat) :
  forall s o,
    lockHandle s = false -> heldBy holder lv o ->
    let k := List.length (pendingOf (jobs (loaded o s))) in
    pendingLoop (S n) (mkWorld s o [])
    = (Ok None,
       mkWorld (loaded o s)
         (withClock
            (clock o
             + match k with
               | O => 0
               | S _ => Z.of_nat (S n) * (Z.of_nat k * 150)
                        + Z.of_nat n * 100
               end) o) []).
Proof.
  induction n as [|n IH]; intros s o Hh Ho k.
  - rewrite (pendingLoop_held_round 0 s o Hh Ho). cbv zeta. fold k.
    destruct k as [|k']; [reflexivity|]. same_clock.
  - rewrite (pendingLoop_held_round (S n) s o Hh Ho). cbv zeta. fold k.
    destruct k as [|k'] eqn:Ek; [reflexivity|].
    rewrite (IH (loaded o s) _ (eq_trans (lockHandle_loaded o s) Hh)
               (held_withClock _ o Ho)).
    cbv zeta. rewrite loaded_withClock, loaded_loaded. fold k. rewrite Ek.
    rewrite withClock_withClock. cbn [clock withClock]. same_clock.
Qed.
End LockedOut.

(** X21.  While another running process holds the lock,
    [getNextPendingJob] hands out nothing and writes nothing: it returns
    [null] with the files and the lock file untouched, after re-reading
    the tables, and the time it takes is bounded: ten rounds of three
    tries of 50 ms for each pending job, 100 ms between two rounds, and no
    wait at all when no job is pending. *)
Theorem dequeue_waits_for_a_held_lock (w : World) :
  lockedOut w ->
  let s1 := loaded (os w) (store w) in
  let n := List.length (pendingOf (jobs s1)) in
  getNextPendingJob w
  = (Ok None,
     mkWorld s1 (withClock (clock (os w) + lockedOutWait n) (os w)) []).
Proof.
  intros H s1 n. subst s1 n. destruct w as [s o l].
  unfold lockedOut in H. cbn [store os others] in H |- *.
  destruct H as (-> & Hh & holder & Hl & Hv).
  unfold getNextPendingJob.
  rewrite (pendingLoop_held holder (live o) Hv 9 s o Hh (conj Hl eq_refl)).
  cbv zeta. unfold lockedOutWait.
  destruct (List.length (pendingOf (jobs (loaded o s)))); reflexivity.
Qed.

Lemma dequeue_waits_for_a_held_lock_witness :
  fst (getNextPendingJob heldByOther) = Ok None
  /\ clock (os (snd (getNextPendingJob heldByOther))) = 2400%Z.
Proof.
  rewrite (dequeue_waits_for_a_held_lock heldByOther).
  - split; reflexivity.
  - split; [reflexivity|]. split; [reflexivity|].
    exists 200%N. split; reflexivity.
Defined.

(* ================================================================== *)
(** * Further properties: the worker manager *)
(* ================================================================== *)

Section Pool.
Import WorkerManager.

Lemma start_running (count : nat) (o : Os) (pf : PidFile) (wr : bool)
    (ws : list nat) (q : N) :
  pf = PidOf q -> existsb (N.eqb q) (live o) = true ->
  isRunning o (mkPool pf wr ws) = (true, mkPool pf wr ws)
  /\ start count o (mkPool pf wr ws) = mkPool pf wr ws.
Proof.
  intros -> Hq. unfold start, isRunning. cbn [pid_file]. now rewrite Hq.
Qed.

Lemma start_fresh (count : nat) (o : Os) (p : Pool) :
  fst (isRunning o p) = false ->
  pid_writable p = true ->
  start count o p
  = mkPool (PidOf (pid o)) true (workers p ++ seq 1 count).
Proof.
  destruct p as [pf wr ws]. cbn [pid_writable workers]. intros Hr ->.
  unfold start, isRunning, removePid, savePid in *.
  cbn [pid_file pid_writable workers] in *.
  destruct pf as [| |q]; [reflexivity | reflexivity |].
  destruct (existsb (N.eqb q) (live o)); [discriminate | reflexivity].
Qed.

Lemma isRunning_true (o : Os) (p : Pool) :
  fst (isRunning o p) = true ->
  exists q, pid_file p = PidOf q /\ existsb (N.eqb q) (live o) = true.
Proof.
  unfold isRunning. destruct (pid_file p) as [| |q]; try discriminate.
  destruct (existsb (N.eqb q) (live o)) eqn:Hq; [|discriminate].
  intros _. now exists q.
Qed.

(** X22.  The pid file keeps a second pool from starting.  When the file
    can be written and the starting process runs, then after
    [start(count)] a pool is reported running; a second [start] in the
    same manager does nothing; a manager of any other process that finds
    the same file does nothing either; and [stop] removes the file and the
    workers.  If a pool was running already, the first [start] itself
    does nothing; otherwise it writes the pid of the process and makes
    the workers 1 to [count]. *)
Theorem start_is_exclusive (count again : nat) (o : Os) (p : Pool) :
  existsb (N.eqb (pid o)) (live o) = true ->
  pid_writable p = true ->
  let p1 := start count o p in
  fst (isRunning o p1) = true
  /\ start again o p1 = p1
  /\ (forall o' ws,
        live o' = live o ->
        start again o' (mkPool (pid_file p1) (pid_writable p1) ws)
        = mkPool (pid_file p1) (pid_writable p1) ws)
  /\ pid_file (stop p1) = NoPidFile
  /\ workers (stop p1) = []
  /\ (if fst (isRunning o p)
      then p1 = p
      else pid_file p1 = PidOf (pid o)
           /\ workers p1 = workers p ++ seq 1 count).
Proof.
  intros Hme Hw p1.
  assert (H : exists q ws,
             p1 = mkPool (PidOf q) true ws
             /\ existsb (N.eqb q) (live o) = true).
  { subst p1. destruct (fst (isRunning o p)) eqn:Hr.
    - destruct (isRunning_true o p Hr) as (q & Hq & Hl).
      destruct p as [pf wr ws]. cbn [pid_file pid_writable] in Hq, Hw.
      subst wr. exists q, ws.
      destruct (start_running count o pf true ws q Hq Hl) as [_ ->].
      now rewrite Hq.
    - rewrite (start_fresh count o p Hr Hw). now eexists _, _. }
  destruct H as (q & ws & E & Hq).
  assert (Hany : forall o' ws',
             live o' = live o ->
             isRunning o' (mkPool (PidOf q) true ws')
             = (true, mkPool (PidOf q) true ws')
             /\ start again o' (mkPool (PidOf q) true ws')
                = mkPool (PidOf q) true ws').
  { intros o' ws' Hl. apply (start_running again o' _ true ws' q eq_refl).
    now rewrite Hl. }
  split; [rewrite E; now rewrite (proj1 (Hany o ws eq_refl))|].
  split; [rewrite E; apply (proj2 (Hany o ws eq_refl))|].
  split.
  { intros o' ws' Hl. rewrite E. cbn [pid_file pid_writable].
    apply (proj2 (Hany o' ws' Hl)). }
  split; [now rewrite E|]. split; [now rewrite E|].
  subst p1. destruct (fst (isRunning o p)) eqn:Hr.
  - destruct (isRunning_true o p Hr) as (q' & Hq' & Hl').
    destruct p as [pf wr ws0]. cbn [pid_file] in Hq'.
    now destruct (start_running count o pf wr ws0 q' Hq' Hl') as [_ ->].
  - rewrite (start_fresh count o p Hr Hw). now split.
Qed.

(** X23.  When the pid file cannot be written, [start] makes the workers
    all the same and leaves no mark of them: the file is as it was, no
    pool is reported running afterwards, and a further [start] makes
    further workers. *)
Theorem start_without_marker (count again : nat) (o : Os) (p : Pool) :
  pid_writable p = false ->
  fst (isRunning o p) = false ->
  let p1 := start count o p in
  pid_file p1 = pid_file p
  /\ workers p1 = workers p ++ seq 1 count
  /\ getWorkerCount p1 = (getWorkerCount p + count)%nat
  /\ fst (isRunning o p1) = false
  /\ workers (start again o p1)
     = workers p ++ seq 1 count ++ seq 1 again.
Proof.
  intros Hw Hr p1.
  assert (E : p1 = mkPool (pid_file p) false (workers p ++ seq 1 count)
              /\ forall ws, fst (isRunning o (mkPool (pid_file p) false ws))
                            = false).
  { subst p1. destruct p as [pf wr ws]. cbn [pid_writable] in Hw. subst wr.
    unfold start, isRunning, removePid, savePid in *.
    cbn [pid_file pid_writable workers] in *.
    destruct pf as [| |q]; [now split | now split |].
    destruct (existsb (N.eqb q) (live o)); [discriminate | now split]. }
  destruct E as [E Hnot]. rewrite E.
  cbn [pid_file workers]. unfold getWorkerCount. cbn [workers].
  split; [reflexivity|]. split; [reflexivity|].
  split; [now rewrite length_app, length_seq|].
  split; [apply Hnot|].
  unfold start.
  destruct (isRunning o (mkPool (pid_file p) false (workers p ++ seq 1 count)))
    as [running p2] eqn:R.
  pose proof (Hnot (workers p ++ seq 1 count)) as Hf. rewrite R in Hf.
  cbn [fst] in Hf. subst running.
  assert (Hp2 : workers p2 = workers p ++ seq 1 count
                /\ pid_writable p2 = false).
  { unfold isRunning, removePid in R. cbn [pid_file pid_writable] in R.
    destruct (pid_file p) as [| |q].
    - now injection R as <-.
    - now injection R as <-.
    - destruct (existsb (N.eqb q) (live o)); [discriminate|].
      now injection R as <-. }
  destruct Hp2 as [Hws Hwr]. unfold savePid. rewrite Hwr.
  cbn [workers]. now rewrite Hws, <- app_assoc.
Qed.
End Pool.

Lemma start_is_exclusive_witness :
  WorkerManager.start 2 busyHost (WorkerManager.start 3 busyHost noPool)
  = WorkerManager.start 3 busyHost noPool.
Proof.
  apply (start_is_exclusive 3 2 busyHost noPool); reflexivity.
Defined.

Lemma start_without_marker_witness :
  WorkerManager.workers
    (WorkerManager.start 2 busyHost
       (WorkerManager.start 3 busyHost readOnlyPool))
  = [1; 2; 3; 1; 2]%nat.
Proof.
  apply (start_without_marker 3 2 busyHost readOnlyPool); reflexivity.
Defined.

(* ================================================================== *)
(** * Further properties: errors *)
(* ================================================================== *)

Section Unfailing.

Lemma unfailing_ret {A} (a : A) : unfailing (ret a).
Proof. intros w H. split; [now exists a | exact H]. Qed.

Lemma unfailing_bind {A B} (m : M A) (f : A -> M B) :
  unfailing m -> (forall a, unfailing (f a)) -> unfailing (bind m f).
Proof.
  intros Hm Hf w H. unfold bind. destruct (Hm w H) as [[a Ea] Hw].
  destruct (m w) as [[a'|e] w1]; cbn [fst snd] in *; [|discriminate].
  now apply Hf.
Qed.

Lemma unfailing_tryCatch {A} (m : M A) (h : string -> M A) :
  unfailing m -> unfailing (tryCatch m h).
Proof.
  intros Hm w H. unfold tryCatch. destruct (Hm w H) as [[a Ea] Hw].
  destruct (m w) as [[a'|e] w1]; cbn [fst snd] in *; [|discriminate].
  split; [now exists a' | exact Hw].
Qed.

Lemma unfailing_getStore {A} (f : Storage -> M A) :
  (forall s, unfailing (f s)) -> unfailing (bind getStore f).
Proof. intros Hf w H. exact (Hf (store w) w H). Qed.

Lemma unfailing_getOs {A} (f : Os -> M A) :
  (forall w, diskOk w ->
             (exists a, fst (f (os w) w) = Ok a)
             /\ diskOk (snd (f (os w) w))) ->
  unfailing (bind getOs f).
Proof. intros Hf w H. exact (Hf w H). Qed.

Lemma unfailing_getOs_any {A} (f : Os -> M A) :
  (forall o, unfailing (f o)) -> unfailing (bind getOs f).
Proof. intros Hf w H. exact (Hf (os w) w H). Qed.

Lemma unfailing_setJobs t : unfailing (setJobs t).
Proof. intros w H. split; [now exists tt | exact H]. Qed.

Lemma unfailing_setDlq t : unfailing (setDlq t).
Proof. intros w H. split; [now exists tt | exact H]. Qed.

Lemma unfailing_sleep ms : unfailing (sleep ms).
Proof. intros w H. split; [now exists tt | exact H]. Qed.

Lemma unfailing_interfere : unfailing interfere.
Proof.
  intros w [Hw Ho]. unfold interfere.
  destruct (others w) as [|[o|] rest] eqn:E; cbn [fst snd].
  - split; [now exists tt|]. split; [exact Hw | now rewrite E].
  - split; [now exists tt|]. inversion Ho; subst. now split.
  - split; [now exists tt|]. inversion Ho; subst. now split.
Qed.

Lemma unfailing_load : unfailing load.
Proof.
  unfold load. apply unfailing_bind; [apply unfailing_interfere|].
  intros _. apply unfailing_getStore. intros s.
  apply unfailing_getOs. intros w H. split; [now exists tt | exact H].
Qed.

Lemma unfailing_save : unfailing save.
Proof.
  intros w [Hw Ho]. unfold save. run_monad. rewrite Hw. cbn [fst snd].
  split; [now exists tt|]. now split.
Qed.

Lemma unfailing_acquireLock : unfailing acquireLock.
Proof.
  intros w [Hw Ho]. unfold acquireLock. run_monad.
  destruct (lockHandle (store w)); [split; [now eexists | now split]|].
  cbn [os]. rewrite Hw.
  destruct (lock_file (os w)) as [holder|];
    [destruct (existsb (N.eqb holder) (live (os w)))|];
    (split; [now eexists | now split]).
Qed.

Lemma unfailing_releaseLock : unfailing releaseLock.
Proof.
  intros w [Hw Ho]. unfold releaseLock. run_monad.
  destruct (lockHandle (store w)), (lock_file (os w));
    try rewrite Hw; (split; [now eexists | now split]).
Qed.

Lemma unfailing_acquireLockWithRetry n delay :
  unfailing (acquireLockWithRetry n delay).
Proof.
  induction n as [|n IH]; simpl; [apply unfailing_ret|].
  apply unfailing_bind; [apply unfailing_acquireLock|].
  intros [|]; [apply unfailing_ret|].
  apply unfailing_bind; [apply unfailing_sleep | intros _; exact IH].
Qed.

Lemma unfailing_addJob job : unfailing (addJob job).
Proof.
  unfold addJob. apply unfailing_getStore. intros s.
  apply unfailing_bind; [apply unfailing_setJobs|].
  intros _. apply unfailing_save.
Qed.

Lemma unfailing_updateJob job : unfailing (updateJob job).
Proof.
  unfold updateJob. apply unfailing_bind; [apply unfailing_load|].
  intros _. apply unfailing_getStore. intros s.
  destruct (JsMap.has (id job) (jobs s)); [|apply unfailing_ret].
  apply unfailing_bind; [apply unfailing_setJobs|]. intros _.
  apply unfailing_bind; [apply unfailing_save|]. intros _.
  apply unfailing_ret.
Qed.

Lemma unfailing_moveToDLQ job : unfailing (moveToDLQ job).
Proof.
  unfold moveToDLQ. apply unfailing_getOs_any. intros o.
  apply unfailing_getStore. intros s.
  apply unfailing_bind; [apply unfailing_setDlq|]. intros _.
  apply unfailing_getStore. intros s'.
  apply unfailing_bind; [apply unfailing_setJobs|]. intros _.
  apply unfailing_save.
Qed.

Lemma unfailing_retryFromDLQ jobId : unfailing (retryFromDLQ jobId).
Proof.
  unfold retryFromDLQ. apply unfailing_getStore. intros s.
  destruct (JsMap.get jobId (dlq s)) as [job|]; [|apply unfailing_ret].
  apply unfailing_getOs_any. intros o.
  apply unfailing_bind; [apply unfailing_setDlq|]. intros _.
  apply unfailing_getStore. intros s'.
  apply unfailing_bind; [apply unfailing_setJobs|]. intros _.
  apply unfailing_bind; [apply unfailing_save|]. intros _.
  apply unfailing_ret.
Qed.

Lemma unfailing_claim job : unfailing (claim job).
Proof.
  unfold claim.
  apply unfailing_bind; [apply unfailing_acquireLockWithRetry|].
  intros [|]; [|apply unfailing_ret].
  apply unfailing_tryCatch.
  apply unfailing_bind; [apply unfailing_load|]. intros _.
  apply unfailing_getStore. intros s.
  destruct (JsMap.get (id job) (jobs s)) as [currentJob|];
    [|apply unfailing_ret].
  destruct (State_eqb (state currentJob) pending); [|apply unfailing_ret].
  apply unfailing_getOs_any. intros o.
  apply unfailing_bind; [apply unfailing_setJobs|]. intros _.
  apply unfailing_bind; [apply unfailing_save|]. intros _.
  apply unfailing_bind; [apply unfailing_releaseLock|]. intros _.
  apply unfailing_ret.
Qed.

Lemma unfailing_claimFirst l : unfailing (claimFirst l).
Proof.
  induction l as [|job rest IH]; simpl; [apply unfailing_ret|].
  apply unfailing_bind; [apply unfailing_claim|].
  intros [j|]; [apply unfailing_ret | exact IH].
Qed.

Lemma unfailing_getJobsByState st : unfailing (getJobsByState st).
Proof.
  unfold getJobsByState. apply unfailing_getStore. intros s.
  apply unfailing_ret.
Qed.

Lemma unfailing_pendingLoop n : unfailing (pendingLoop n).
Proof.
  induction n as [|n IH]; simpl; [apply unfailing_ret|].
  apply unfailing_bind; [apply unfailing_load|]. intros _.
  apply unfailing_bind; [apply unfailing_getJobsByState|]. intros all.
  apply unfailing_bind; [apply unfailing_claimFirst|].
  intros [j|]; [apply unfailing_ret|].
  destruct (sortByCreated all); [apply unfailing_ret|].
  apply unfailing_bind; [|intros _; exact IH].
  destruct n; [apply unfailing_ret | apply unfailing_sleep].
Qed.

Lemma unfailing_getNextPendingJob : unfailing getNextPendingJob.
Proof. apply unfailing_pendingLoop. Qed.

Lemma unfailing_processJobData data : unfailing (processJobData data).
Proof.
  unfold processJobData. apply unfailing_tryCatch.
  apply unfailing_getOs_any. intros o.
  destruct (noCommand _); [apply unfailing_ret|].
  apply unfailing_bind; [apply unfailing_addJob|]. intros _.
  apply unfailing_ret.
Qed.

Variables (backoffBase : Z) (toISOString : Z -> string).

Lemma unfailing_updateJob_tt job :
  unfailing (bind (updateJob job) (fun _ => ret tt)).
Proof.
  apply unfailing_bind; [apply unfailing_updateJob|]. intros _.
  apply unfailing_ret.
Qed.

Lemma unfailing_rangeOnly {A} (m : M A) : unfailing m -> rangeOnly m.
Proof.
  intros Hm w H. destruct (Hm w H) as [Ha Hw]. split; [now left | exact Hw].
Qed.

Lemma rangeOnly_bind {A B} (m : M A) (f : A -> M B) :
  unfailing m -> (forall a, rangeOnly (f a)) -> rangeOnly (bind m f).
Proof.
  intros Hm Hf w H. unfold bind. destruct (Hm w H) as [[a Ea] Hw].
  destruct (m w) as [[a'|e] w1]; cbn [fst snd] in *; [|discriminate].
  now apply Hf.
Qed.

Lemma rangeOnly_getOs {A} (f : Os -> M A) :
  (forall o, rangeOnly (f o)) -> rangeOnly (bind getOs f).
Proof. intros Hf w H. exact (Hf (os w) w H). Qed.

(** The [catch] block raises nothing but the error of
    [calculateNextRetry]. *)
Lemma rangeOnly_recover e job : rangeOnly (recover backoffBase e job).
Proof.
  unfold recover. apply rangeOnly_getOs. intros o.
  destruct (max_retries _ <=? attempts _)%N;
    [apply unfailing_rangeOnly, unfailing_moveToDLQ|].
  destruct (calculateNextRetry _ _ _) as [next|e'] eqn:E.
  - apply unfailing_rangeOnly, unfailing_updateJob_tt.
  - apply calculateNextRetry_Threw in E as [-> _].
    intros w H. split; [now right | exact H].
Qed.

Lemma rangeOnly_executeJob outcome job :
  rangeOnly (executeJob backoffBase toISOString outcome job).
Proof.
  unfold executeJob. apply rangeOnly_getOs. intros o.
  unfold attempt. destruct outcome as [| |message].
  - apply unfailing_rangeOnly, unfailing_tryCatch, unfailing_updateJob_tt.
  - destruct (max_retries _ <=? attempts _)%N.
    + apply unfailing_rangeOnly, unfailing_tryCatch, unfailing_moveToDLQ.
    + destruct (calculateNextRetry _ _ _).
      * apply unfailing_rangeOnly, unfailing_tryCatch,
          unfailing_updateJob_tt.
      * apply rangeOnly_recover.
  - apply rangeOnly_recover.
Qed.

Lemma unfailing_findReadyToRetry : unfailing findReadyToRetry.
Proof.
  unfold findReadyToRetry.
  apply unfailing_bind; [apply unfailing_getJobsByState|]. intros l.
  apply unfailing_getOs_any. intros o. apply unfailing_ret.
Qed.

(** A cycle raises nothing but what running the job raises. *)
Lemma processNextJob_run {P : M unit -> Prop} outcome :
  (forall m, unfailing m -> P m) ->
  (forall A (m : M A) f, unfailing m -> (forall a, P (f a)) -> P (bind m f)) ->
  (forall j, P (executeJob backoffBase toISOString outcome j)) ->
  P (processNextJob backoffBase toISOString outcome).
Proof.
  intros Hlift Hbind Hrun.
  assert (HrunJob : forall j, P (runJob backoffBase toISOString outcome j)).
  { intros j. unfold runJob.
    apply Hbind; [|intros o; apply Hrun].
    intros w H. split; [now eexists | exact H]. }
  unfold processNextJob.
  apply Hbind; [apply unfailing_getNextPendingJob|].
  intros [j|]; [apply HrunJob|].
  apply Hbind; [apply unfailing_findReadyToRetry|].
  intros [r|]; [|apply Hlift, unfailing_ret].
  unfold promoteAndRun.
  apply Hbind; [intros w H; split; [now eexists | exact H]|]. intros o.
  apply Hbind; [apply unfailing_updateJob|]. intros _.
  apply Hbind; [apply unfailing_getNextPendingJob|].
  intros [p|]; [apply HrunJob | apply Hlift, unfailing_ret].
Qed.

Lemma rangeOnly_processNextJob outcome :
  rangeOnly (processNextJob backoffBase toISOString outcome).
Proof.
  apply (processNextJob_run (P := rangeOnly)).
  - intros m. apply unfailing_rangeOnly.
  - intros A m f. apply rangeOnly_bind.
  - apply rangeOnly_executeJob.
Qed.

Lemma unfailing_processNextJob_Succeeded :
  unfailing (processNextJob backoffBase toISOString Succeeded).
Proof.
  apply (processNextJob_run (P := unfailing)).
  - now intros m.
  - intros A m f. apply unfailing_bind.
  - intros j. unfold executeJob. apply unfailing_getOs_any. intros o.
    apply unfailing_tryCatch, unfailing_updateJob_tt.
Qed.

Lemma workerCycles_Ok cycles w :
  fst (workerCycles backoffBase toISOString cycles w) = Ok tt.
Proof.
  revert w. induction cycles as [|[t outcome] rest IH]; intros w;
    [reflexivity|].
  cbn [workerCycles]. unfold bind at 1, atTime, bind at 1, getOs, putOs.
  unfold bind at 1. rewrite startTurn_eq. apply IH.
Qed.

(** X24.  As long as the data directory accepts writes, whatever the
    tables hold, whoever holds the lock and whatever the other processes
    do to the files in between, the only error a worker cycle raises is
    the [RangeError] of a retry date that cannot be told, and a cycle
    whose command succeeds raises none; the loop of the worker goes on
    through any sequence of cycles; an enqueue never reports a failure
    and a retry from the dead-letter table never raises. *)
Theorem no_error_while_disk_accepts_writes
    (cycles : list (Z * Outcome)) (outcome : Outcome) (data : JobData)
    (jobId : string) (w : World) :
  diskOk w ->
  (fst (processNextJob backoffBase toISOString outcome w) = Ok tt
   \/ fst (processNextJob backoffBase toISOString outcome w)
      = Threw RangeError)
  /\ fst (processNextJob backoffBase toISOString Succeeded w) = Ok tt
  /\ diskOk (snd (processNextJob backoffBase toISOString outcome w))
  /\ fst (workerCycles backoffBase toISOString cycles w) = Ok tt
  /\ (forall e, fst (processJobData data w) <> Ok (Failure e))
  /\ (forall e, fst (processJobData data w) <> Threw e)
  /\ (forall e, fst (retryFromDLQ jobId w) <> Threw e).
Proof.
  intros H.
  destruct (rangeOnly_processNextJob outcome w H) as [E1 H1].
  destruct (unfailing_processNextJob_Succeeded w H) as [[[] E2] _].
  destruct (unfailing_retryFromDLQ jobId w H) as [[r E3] _].
  split.
  { destruct E1 as [[[] E1]|E1]; [now left | now right]. }
  split; [exact E2|]. split; [exact H1|].
  split; [apply workerCycles_Ok|].
  split; [|split].
  - intros e.
    set (job := newJob (clock (os w)) (random (os w)) data).
    assert (Eq : processJobData data w
                 = if noCommand job then (Ok ValidationError, w)
                   else match addJob job w with
                        | (Ok _, w1) => (Ok (Enqueued job), w1)
                        | (Threw e0, w1) => (Ok (Failure e0), w1)
                        end).
    { unfold processJobData, tryCatch, bind, getOs, ret. fold job.
      destruct (noCommand job); [reflexivity|].
      now destruct (addJob job w) as [[[]|e0] w1]. }
    rewrite Eq. destruct (noCommand job); [discriminate|].
    destruct (unfailing_addJob job w H) as [[[] Ea] _].
    destruct (addJob job w) as [[[]|e0] w1]; cbn [fst] in *;
      discriminate.
  - intros e. destruct (unfailing_processJobData data w H) as [[a Ea] _].
    congruence.
  - intros e. congruence.
Qed.
End Unfailing.

Lemma diskOk_raced : diskOk Examples.raced.
Proof.
  split; [reflexivity|]. repeat constructor.
Qed.

Lemma no_error_while_disk_accepts_writes_witness :
  fst (processNextJob 2 showZ Succeeded Examples.raced) = Ok tt.
Proof.
  apply (no_error_while_disk_accepts_writes 2 showZ [] Failed
           Examples.againData "job1" Examples.raced diskOk_raced).
Defined.
Section Refused.
Variables (backoffBase : Z) (toISOString : Z -> string).


End Refused.


(* ================================================================== *)
(** * Further properties: what a dequeue guarantees in any store *)
(* ================================================================== *)

Lemma releaseLock_tables (w : World) :
  fst (releaseLock w) = Ok tt
  /\ store (snd (releaseLock w))
     = mkStorage (jobs (store w)) (dlq (store w))
         (lockHandle (store (snd (releaseLock w))))
  /\ jobs_file (os (snd (releaseLock w))) = jobs_file (os w)
  /\ dlq_file (os (snd (releaseLock w))) = dlq_file (os w).
Proof.
  destruct w as [[c cd h] o l]. unfold releaseLock. run_monad.
  destruct h, (lock_file o); try destruct (writable o); now repeat split.
Qed.

Lemma bind_Ok {A B} (m : M A) (f : A -> M B) (w w' : World) (b : B) :
  bind m f w = (Ok b, w') ->
  exists a w1, m w = (Ok a, w1) /\ f a w1 = (Ok b, w').
Proof.
  unfold bind. destruct (m w) as [[a|e] w1]; [|discriminate].
  intros H. now exists a, w1.
Qed.

Lemma tryCatch_Ok {A} (m : M A) (h : string -> M A) (w w' : World) (a : A) :
  tryCatch m h w = (Ok a, w') ->
  m w = (Ok a, w')
  \/ exists e w1, m w = (Threw e, w1) /\ h e w1 = (Ok a, w').
Proof.
  unfold tryCatch. destruct (m w) as [[a'|e] w1]; intros H.
  - now left.
  - right. now exists e, w1.
Qed.

Lemma save_Ok (w w' : World) :
  save w = (Ok tt, w') ->
  store w' = store w /\ persisted w'.
Proof.
  unfold save. run_monad. destruct (writable (os w)); [|discriminate].
  intros [= <-]. now repeat split.
Qed.

Lemma claim_handedOut (job : Job) (w w' : World) (p : Job) :
  claim job w = (Ok (Some p), w') -> handedOut p w'.
Proof.
  unfold claim. intros H.
  apply bind_Ok in H as ([|] & w1 & _ & H); [|discriminate].
  apply tryCatch_Ok in H as [H|(e & w2 & _ & H)].
  2:{ apply bind_Ok in H as ([] & w3 & _ & H). discriminate. }
  apply bind_Ok in H as ([] & w2 & _ & H).
  unfold bind at 1, getStore at 1 in H.
  destruct (JsMap.get (id job) (jobs (store w2))) as [cur|];
    [|discriminate].
  destruct (State_eqb (state cur) pending); [|discriminate].
  unfold bind at 1, getOs at 1 in H.
  apply bind_Ok in H as ([] & w3 & H3 & H).
  apply bind_Ok in H as ([] & w4 & H4 & H).
  apply bind_Ok in H as ([] & w5 & H5 & H).
  injection H as <- <-.
  apply save_Ok in H4 as [Hs4 Hp4].
  pose proof (releaseLock_tables w4) as (_ & Es & Ej & Ed).
  rewrite H5 in Es, Ej, Ed. cbn [snd] in Es, Ej, Ed.
  assert (G4 : JsMap.get (id cur) (jobs (store w4))
               = Some (setUpdatedAt (clock (os w2))
                         (setState processing cur))).
  { rewrite Hs4. unfold setJobs in H3. revert H3. run_monad.
    intros [= <-]. cbn [store jobs]. apply JsMapFacts.get_set_eq. }
  unfold handedOut, persisted in *. rewrite Es, Ej, Ed.
  cbn [jobs dlq id setUpdatedAt setState state].
  split; [reflexivity|]. split; [exact G4 | exact Hp4].
Qed.

Lemma claimFirst_handedOut (l : list Job) :
  forall w w' p,
    claimFirst l w = (Ok (Some p), w') -> handedOut p w'.
Proof.
  induction l as [|job rest IH]; intros w w' p H; simpl in H.
  - discriminate.
  - apply bind_Ok in H as ([j|] & w1 & Hc & H).
    + injection H as <- <-. exact (claim_handedOut job w w1 j Hc).
    + exact (IH w1 w' p H).
Qed.

Lemma pendingLoop_handedOut (n : nat) :
  forall w w' p,
    pendingLoop n w = (Ok (Some p), w') -> handedOut p w'.
Proof.
  induction n as [|n IH]; intros w w' p H; [discriminate|].
  rewrite pendingLoop_S in H.
  apply bind_Ok in H as ([] & w1 & _ & H).
  apply bind_Ok in H as (all & w2 & _ & H).
  apply bind_Ok in H as ([j|] & w3 & Hc & H).
  - injection H as <- <-.
    exact (claimFirst_handedOut _ w2 w3 j Hc).
  - destruct (sortByCreated all); [discriminate|].
    apply bind_Ok in H as ([] & w4 & _ & H).
    exact (IH w4 w' p H).
Qed.

(** X26.  Whatever the store holds, whoever held the lock and whatever
    the other processes did to the files meanwhile: when
    [getNextPendingJob] returns a job, that job is in state processing,
    it is the record stored under its id in memory, and the tables have
    been written to the files. *)
Theorem dequeued_job_is_stored_as_processing (w : World) (p : Job) :
  fst (getNextPendingJob w) = Ok (Some p) ->
  let w' := snd (getNextPendingJob w) in
  state p = processing
  /\ JsMap.get (id p) (jobs (store w')) = Some p
  /\ persisted w'
  /\ exists table,
       jobs_file (os w') = Holds table
       /\ JsMap.get (id p) table = Some p.
Proof.
  intros H w'. subst w'.
  assert (E : pendingLoop 10 w = (Ok (Some p), snd (getNextPendingJob w))).
  { unfold getNextPendingJob in *.
    destruct (pendingLoop 10 w) as [r w1]. cbn [fst snd] in *.
    now subst r. }
  destruct (pendingLoop_handedOut 10 w _ p E) as (Hs & G & Hp).
  split; [exact Hs|]. split; [exact G|]. split; [exact Hp|].
  destruct Hp as [Hj _]. eexists. split; [exact Hj|].
  now rewrite JsMapFacts.get_objectOrder.
Qed.

Lemma dequeued_job_is_stored_as_processing_witness :
  state (claimed 1700000000000 old) = processing
  /\ JsMap.get "a" (jobs (store (snd (getNextPendingJob threePending))))
     = Some (claimed 1700000000000 old).
Proof.
  destruct (dequeued_job_is_stored_as_processing threePending
              (claimed 1700000000000 old) eq_refl)
    as (Hs & G & _).
  split; [exact Hs | exact G].
Defined.
